(** * andrzejewsky.com: the blog's code, embedded and verified

    The repository is a Gatsby blog.  Its code is of two kinds:

    - the article "How to create your own Redux" defines [combineReducers] and
      [createStore]; the article "Vue 3 reactivity in depth" defines [track],
      [callEffects] and [effect];
    - the site itself has the view components [Heading], [Layout], [Bio] and
      the blog-post template, and the posts' front matter.

    The reactivity article reaches its [track] and [callEffects] through
    two earlier versions, which are embedded as well.  Four more articles
    come with code: "Using command pattern with vue composition-API" ([AddToCart],
    [useCart]), "The optimistic UI with React" (the updaters of
    [TodoListContainer]), "How to get rid of unnecessary props in React.js"
    ([todoReeucer]) and "How to implement Netflix slider with React and
    hooks" ([useSliding]).

    Part I embeds each of them in a module of its own; Part II states and
    proves their properties, module by module; Part III adds further
    properties of the same code. *)

From Stdlib Require Import ZArith.
From stdpp Require Import gmap strings list fin_maps pretty.

Set Default Proof Using "Type".
Set Warnings "-register-all".

(** * Part I: the code

    ** JavaScript values, objects and the heap *)

Module Js.

(** Objects are mutable and compared by identity: a value of object type is a
    reference into the heap.  Properties are own data properties.  Of the
    prototype chain the model knows the names that an object made by [{}]
    inherits ([inherited] below), not their values, which are functions of
    the runtime. *)
Definition loc := positive.

Inductive Val :=
| VUndef
| VNull
| VBool (b : bool)
| VNum (n : Z)
| VStr (s : string)
| VObj (l : loc).

#[global] Instance Val_eq_dec : EqDecision Val.
Proof. solve_decision. Defined.

Abbreviation Heap := (gmap loc (gmap string Val)).

(** The result of running a piece of code: it returns, it throws a
    [TypeError], or the run was cut off (only the re-entrant interpreters
    further down take fuel). *)
Inductive Res (A : Type) :=
| Ok (a : A)
| TypeError
| OutOfFuel.
Arguments Ok {A} a.
Arguments TypeError {A}.
Arguments OutOfFuel {A}.

#[global] Instance Res_ret : MRet Res := @Ok.
#[global] Instance Res_bind : MBind Res := λ A B f m,
  match m with
  | Ok a => f a
  | TypeError => TypeError
  | OutOfFuel => OutOfFuel
  end.

(** [{}]: a new object at a location not in use. *)
Definition alloc (o : gmap string Val) (h : Heap) : loc * Heap :=
  let l := fresh (dom h) in (l, <[l := o]> h).

(** The object a reference points to.  A reference that points nowhere cannot
    arise; it reads as the empty object. *)
Definition obj_at (h : Heap) (l : loc) : gmap string Val := default ∅ (h !! l).

(** The character of [s] at index [i] as a one-character string. *)
Definition char_at (s : string) (i : nat) : option string :=
  (λ c, String c EmptyString) <$> String.get i s.

(** The names of the properties of [Object.prototype]: those of the standard,
    the accessor [__proto__] and the four legacy methods of its Annex B. *)
Definition Object_prototype : list string :=
  ["constructor"; "hasOwnProperty"; "isPrototypeOf"; "propertyIsEnumerable";
   "toLocaleString"; "toString"; "valueOf"; "__proto__";
   "__defineGetter__"; "__defineSetter__"; "__lookupGetter__"; "__lookupSetter__"].

(** [k in {}]: an object that has no property [k] of its own inherits one. *)
Definition inherited (k : string) : bool := bool_decide (k ∈ Object_prototype).

(** [v[k]], for the own properties.  Reading a property of [undefined] or
    [null] throws; numbers and booleans have no own properties; a string has
    [length] and its indices.  A name that [v] does not have reads as
    [undefined], which is what the code reads unless a prototype has the
    name: for an object that is when the name is [inherited], and the code
    then reads a built-in function, for which the model has no value.  The
    properties below are stated for other names. *)
Definition get_prop (h : Heap) (v : Val) (k : string) : Res Val :=
  match v with
  | VUndef | VNull => TypeError
  | VBool _ | VNum _ => Ok VUndef
  | VStr s =>
      if decide (k = "length") then Ok (VNum (Z.of_nat (String.length s)))
      else match list_find (λ i, pretty i = k) (seq 0 (String.length s)) with
           | Some (_, i) => Ok (from_option VStr VUndef (char_at s i))
           | None => Ok VUndef
           end
  | VObj l => Ok (default VUndef (obj_at h l !! k))
  end.

(** [o[k] = v] for an object reference [o] and a name other than
    ["__proto__"], the one name whose assignment adds no property. *)
Definition set_prop (l : loc) (k : string) (v : Val) (h : Heap) : Heap :=
  <[l := <[k := v]> (obj_at h l)]> h.

(** Numbers are IEEE doubles; the model has those that are integers, as
    [Z].  Up to [2^53] in absolute value every integer is a double.  A sum or
    a difference of two doubles is the exact result rounded to the nearest
    double, a tie going to the even significand; overflow to [Infinity],
    beyond [2^1024], is not modelled. *)
Definition round_double (z : Z) : Z :=
  let n := Z.abs z in
  if (n <=? 2 ^ 53)%Z then z
  else
    let ulp := (2 ^ (Z.log2 n - 52))%Z in
    let q := (n / ulp)%Z in
    let r := (n mod ulp)%Z in
    let q' := if (2 * r <? ulp)%Z then q
              else if (ulp <? 2 * r)%Z then (q + 1)%Z
              else if Z.even q then q else (q + 1)%Z in
    (Z.sgn z * (q' * ulp))%Z.

(** [a + b] *)
Definition num_add (a b : Z) : Z := round_double (a + b).

(** [a - b] *)
Definition num_sub (a b : Z) : Z := round_double (a - b).

(** An integer in the range where every integer is a double. *)
Definition exact (z : Z) : Prop := (Z.abs z ≤ 2 ^ 53)%Z.

(** [Object.keys(o)], in the order of the map and not in the order in which
    the properties were added, which nothing below depends on. *)
Definition keys {A} (o : gmap string A) : list string := (map_to_list o).*1.

End Js.

(** ** The article "How to create your own Redux" *)

Module Redux.
Import Js.

(** A reducer is a JavaScript function of the state and the action.  It runs
    on the heap: it may allocate, and the reducer that [combineReducers]
    returns writes to an object of its own. *)
Abbreviation Reducer := (Val → Val → Heap → Res (Val * Heap)).

(** A function that only computes a value from its arguments. *)
Definition pure_reducer (f : Val → Val → Val) : Reducer :=
  λ state action h, Ok (f state action, h).

(** A property of the object given to [combineReducers]: a function, or a
    value of any other type ([typeof reducers[reducerKey] === "function"]). *)
Inductive Entry :=
| EFun (r : Reducer)
| EVal (v : Val).

(** The variables the returned arrow function closes over. *)
Record Combined := {
  nextState : loc;
  reducerFunctions : gmap string Reducer;
  reducerFunctionsKeys : list string;
}.

(** The first [forEach]: copy the entries that are functions.
    [reducerFunctions] is made by [{}], so the assignment
    [reducerFunctions["__proto__"] = f] calls the setter that it inherits:
    that changes its prototype and adds no key. *)
Definition pick_functions (reducers : gmap string Entry) (reducersKeys : list string)
  : gmap string Reducer :=
  foldl (λ reducerFunctions reducerKey,
           match reducers !! reducerKey with
           | Some (EFun r) =>
               if decide (reducerKey = "__proto__") then reducerFunctions
               else <[reducerKey := r]> reducerFunctions
           | _ => reducerFunctions
           end) ∅ reducersKeys.

(** [combineReducers(reducers)].  [nextState] is allocated here, once, outside
    the function that is returned. *)
Definition combineReducers (reducers : gmap string Entry) (h : Heap) : Combined * Heap :=
  let '(nextState, h) := alloc ∅ h in
  let reducerFunctions := pick_functions reducers (keys reducers) in
  ({| nextState := nextState;
      reducerFunctions := reducerFunctions;
      reducerFunctionsKeys := keys reducerFunctions |}, h).

(** The body of the second [forEach], for the keys still to visit:
    [nextState[reducerKey] = reducer(state[reducerKey], action)].  [state] is
    read in the heap as it is at that moment. *)
Fixpoint combine_loop (c : Combined) (state action : Val) (ks : list string) (h : Heap)
  : Res Heap :=
  match ks with
  | [] => Ok h
  | reducerKey :: ks =>
      match reducerFunctions c !! reducerKey with
      | Some reducer =>
          slice ← get_prop h state reducerKey;
          '(v, h) ← reducer slice action h;
          combine_loop c state action ks (set_prop (nextState c) reducerKey v h)
      | None => TypeError
      end
  end.

(** The function that [combineReducers] returns:
    [(state = {}, action) => { ...; return nextState }]. *)
Definition combined (c : Combined) : Reducer := λ state action h,
  let '(state, h) :=
    match state with
    | VUndef => let '(l, h) := alloc ∅ h in (VObj l, h)
    | _ => (state, h)
    end in
  h ← combine_loop c state action (reducerFunctionsKeys c) h;
  Ok (VObj (nextState c), h).

(** *** createStore

    A listener is a JavaScript function of the state.  What it can do that
    concerns the store is written as a program: produce output outside the
    store (a component's [setState], say), create an object, and call the
    store back through [getState], [dispatch] and [subscribe].  It ends by
    returning ([Ret]) or by throwing an exception ([Throw]), or it never ends
    ([Loop]).  The store catches nothing, and no program here does: an
    exception ends the run, with the outcome [TypeError] whatever was
    thrown; a program that never ends has no outcome, [OutOfFuel]. *)
Inductive Prog :=
| Ret
| Emit (tag : string) (v : Val) (k : Prog)
| New (o : gmap string Val) (k : Val → Prog)
| GetState (k : Val → Prog)
| Dispatch (action : Val) (k : Prog)
| Subscribe (listener : Val → Prog) (k : Prog)
| Throw
| Loop.

(** The store's two variables [state] and [listeners], the heap, and what an
    observer sees: [calls] records every call [listener(state)] that
    [dispatch] makes, as the listener's index in [listeners] and the
    argument; [output] collects what listeners emit. *)
Record Store := {
  state : Val;
  listeners : list (Val → Prog);
  heap : Heap;
  calls : list (nat * Val);
  output : list (string * Val);
}.

Definition set_state (s : Val) (w : Store) : Store :=
  {| state := s; listeners := listeners w; heap := heap w;
     calls := calls w; output := output w |}.

Definition set_heap (h : Heap) (w : Store) : Store :=
  {| state := state w; listeners := listeners w; heap := h;
     calls := calls w; output := output w |}.

Definition log_call (i : nat) (v : Val) (w : Store) : Store :=
  {| state := state w; listeners := listeners w; heap := heap w;
     calls := calls w ++ [(i, v)]; output := output w |}.

Definition emit (tag : string) (v : Val) (w : Store) : Store :=
  {| state := state w; listeners := listeners w; heap := heap w;
     calls := calls w; output := output w ++ [(tag, v)] |}.

(** [const getState = () => state] *)
Definition getState (w : Store) : Val := state w.

(** [const subscribe = listener => { listeners.push(listener) }] *)
Definition subscribe (listener : Val → Prog) (w : Store) : Store :=
  {| state := state w; listeners := listeners w ++ [listener]; heap := heap w;
     calls := calls w; output := output w |}.

(** Running a program against the store, given what [dispatch] does. *)
Fixpoint run (dispatch : Val → Store → Res Store) (p : Prog) (w : Store) : Res Store :=
  match p with
  | Ret => Ok w
  | Emit tag v k => run dispatch k (emit tag v w)
  | New o k => let '(l, h) := alloc o (heap w) in run dispatch (k (VObj l)) (set_heap h w)
  | GetState k => run dispatch (k (getState w)) w
  | Dispatch action k => w ← dispatch action w; run dispatch k w
  | Subscribe listener k => run dispatch k (subscribe listener w)
  | Throw => TypeError
  | Loop => OutOfFuel
  end.

(** [listeners.forEach(listener => listener(state))] from index [i] on, with
    [n] indices to go.  [forEach] fixes the number of indices when it starts,
    and reads both the array element and the variable [state] when it gets to
    each index. *)
Fixpoint forEach_listeners (dispatch : Val → Store → Res Store) (i n : nat) (w : Store)
  : Res Store :=
  match n with
  | 0 => Ok w
  | S n =>
      match listeners w !! i with
      | Some listener =>
          w ← run dispatch (listener (state w)) (log_call i (state w) w);
          forEach_listeners dispatch (S i) n w
      | None => forEach_listeners dispatch (S i) n w
      end
  end.

Section createStore.
Variable rootReducer : Reducer.

(** [const dispatch = action => { state = rootReducer(state, action);
    listeners.forEach(listener => listener(state)) }].  One unit of fuel per
    call of [dispatch] in progress. *)
Fixpoint dispatch (fuel : nat) (action : Val) (w : Store) : Res Store :=
  match fuel with
  | 0 => OutOfFuel
  | S fuel =>
      '(s, h) ← rootReducer (state w) action (heap w);
      let w := set_state s (set_heap h w) in
      forEach_listeners (dispatch fuel) 0 (length (listeners w)) w
  end.

(** [createStore(rootReducer)]: [let state; let listeners = []; ...;
    dispatch({})]. *)
Definition createStore (fuel : nat) (h : Heap) : Res Store :=
  let '(l, h) := alloc ∅ h in
  dispatch fuel (VObj l)
    {| state := VUndef; listeners := []; heap := h; calls := []; output := [] |}.

End createStore.

(** *** Vocabulary of the properties *)

(** [state[k]] for a state that is an object and a name that the state has
    or that is not [inherited]; [{}] stands in for [undefined]. *)
Definition state_slice (h : Heap) (state : Val) (k : string) : Val :=
  match state with
  | VObj l => default VUndef (obj_at h l !! k)
  | _ => VUndef
  end.

(** The object in [nextState] exists and has only keys of reducer functions:
    true when [combineReducers] returns, and kept by every call of the
    returned function. *)
Definition owned (c : Combined) (h : Heap) : Prop :=
  ∃ o, h !! nextState c = Some o ∧
       ∀ k, is_Some (o !! k) → is_Some (reducerFunctions c !! k).

(** [h'] has every object of [h] other than the one at [l], unchanged; it may
    have more objects. *)
Definition agree_off (l : loc) (h h' : Heap) : Prop :=
  ∀ l', is_Some (h !! l') → l' ≠ l → h' !! l' = h !! l'.

(** Called with the action [a] and any state, in a heap that agrees with [h]
    off [l], the reducer [r] returns a value and leaves the heap as it is: it
    reads only, and does not throw.  (A reducer may read the heap, to look at
    [action.type] for one.) *)
Definition reads_only (r : Reducer) (a : Val) (l : loc) (h : Heap) : Prop :=
  ∀ s h', agree_off l h h' → ∃ v, r s a h' = Ok (v, h').

(** [h'] has every object of [h], unchanged; it may have more objects. *)
Definition extends (h h' : Heap) : Prop :=
  ∀ l, is_Some (h !! l) → h' !! l = h !! l.

(** Called with the action [a] and any state, in a heap that agrees with [h]
    off [l], the reducer [r] returns a value; it may create objects, and it
    changes no object that exists: it does not throw, and it mutates
    nothing. *)
Definition creates_only (r : Reducer) (a : Val) (l : loc) (h : Heap) : Prop :=
  ∀ s h', agree_off l h h' → ∃ v h'', r s a h' = Ok (v, h'') ∧ extends h' h''.




(** *** Sample reducers *)

(** [(state = 0, action) => { switch (action.type) { case "INCREMENT": return
    state + 1; case "DECREMENT": return state - 1; default: return state } }],
    a counter like that of the article's demo application, for a state that
    is a number or [undefined]. *)
Definition counter : Reducer := λ state action h,
  type ← get_prop h action "type";
  let n := match state with VNum n => n | _ => 0%Z end in
  Ok (match type with
      | VStr "INCREMENT" => VNum (n + 1)
      | VStr "DECREMENT" => VNum (n - 1)
      | _ => VNum n
      end, h).

(** [(state = 0, action) => action === "INCREMENT" ? state + 1 : state], for
    a state that is a number or [undefined] *)
Definition tally (state action : Val) : Val :=
  let n := match state with VNum n => n | _ => 0%Z end in
  if decide (action = VStr "INCREMENT") then VNum (n + 1) else VNum n.

(** [{ counter, version: 3 }] *)
Definition counter_reducers : gmap string Entry :=
  <["counter" := EFun counter]> (<["version" := EVal (VNum 3)]> ∅).

(** Two calls in a row of the function that [combineReducers(reducers)]
    returns, as a store makes them: the first with [undefined] and the action
    [{}], the second with the first result and the action [a].  The result
    holds both returned values and the contents of the first returned object
    right after the first call and after the second. *)
Definition two_calls (reducers : gmap string Entry) (a : gmap string Val)
  : Res (Val * Val * gmap string Val * gmap string Val) :=
  let '(c, h) := combineReducers reducers ∅ in
  let '(a0, h) := alloc ∅ h in
  '(r1, h1) ← combined c VUndef (VObj a0) h;
  let '(a1, h) := alloc a h1 in
  '(r2, h2) ← combined c r1 (VObj a1) h;
  let contents h := match r1 with VObj l => obj_at h l | _ => ∅ end in
  Ok (r1, r2, contents h1, contents h2).

(** *** Sample listeners and stores *)

(** [state => { this.setState(state) }], the listener of [connect] *)
Definition setState_listener : Val → Prog := λ state, Emit "setState" state Ret.

(** [state => { store.subscribe(state => this.setState(state)) }] *)
Definition subscribing_listener : Val → Prog :=
  λ _, Subscribe setState_listener Ret.

(** [state => { if (state === 1) store.dispatch("INCREMENT") }] *)
Definition redispatching_listener : Val → Prog := λ state,
  if decide (state = VNum 1) then Dispatch (VStr "INCREMENT") Ret else Ret.

(** [state => { throw new Error() }] *)
Definition throwing_listener : Val → Prog := λ _, Throw.



(** [const store = createStore(tally)], then [store.subscribe(l)] for each
    of the listeners. *)
Definition tally_store (ls : list (Val → Prog)) : Res Store :=
  w ← createStore (pure_reducer tally) 1 ∅;
  Ok (foldl (λ w l, subscribe l w) w ls).

(** The store that [tally_store] returns: the state is [0], and the heap
    holds the action [{}] of the first dispatch. *)
Definition store_with (ls : list (Val → Prog)) : Store :=
  {| state := VNum 0; listeners := ls; heap := (alloc ∅ ∅).2;
     calls := []; output := [] |}.

(** A store over [combineReducers({ counter })]: keep what [getState()]
    returns, dispatch [{ type: "INCREMENT" }], and look at the object kept.
    The result is that value and its contents before and after the
    dispatch. *)
Definition kept_state_after_dispatch : Res (Val * gmap string Val * gmap string Val) :=
  let '(c, h) := combineReducers {["counter" := EFun counter]} ∅ in
  w ← createStore (combined c) 1 h;
  let previous := getState w in
  let contents h := match previous with VObj l => obj_at h l | _ => ∅ end in
  w' ← run (dispatch (combined c) 1)
         (New {["type" := VStr "INCREMENT"]} (λ action, Dispatch action Ret)) w;
  Ok (previous, contents (heap w), contents (heap w')).

(** *** More vocabulary: scripts of dispatches *)

(** A program that returns and never calls [dispatch], and subscribes only
    listeners that do likewise. *)
Fixpoint calm (p : Prog) : Prop :=
  match p with
  | Ret => True
  | Emit _ _ k => calm k
  | New _ k => ∀ v, calm (k v)
  | GetState k => ∀ v, calm (k v)
  | Dispatch _ _ => False
  | Subscribe listener k => (∀ v, calm (listener v)) ∧ calm k
  | Throw => False
  | Loop => False
  end.

Definition calm_listener (listener : Val → Prog) : Prop := ∀ v, calm (listener v).

(** [store.dispatch(a1); ...; store.dispatch(an)] *)
Definition dispatch_all (actions : list Val) : Prog := foldr Dispatch Ret actions.

(** The states that a pure reducer goes through from [s] on the actions. *)
Fixpoint states_after (f : Val → Val → Val) (s : Val) (actions : list Val) : list Val :=
  match actions with
  | [] => []
  | a :: actions => f s a :: states_after f (f s a) actions
  end.

(** The arguments with which the listener at index [i] was called. *)
Definition received (i : nat) (cs : list (nat * Val)) : list Val :=
  omap (λ c, if decide (c.1 = i) then Some c.2 else None) cs.

End Redux.

(** ** The article "Vue 3 reactivity in depth", final version *)

Module Reactivity.
Import Js.

(** The functions given to [effect], by identity. *)
Definition fid := nat.

(** What the proxy's handlers ask of the runtime:
    [Reflect.get(target, key, receiver)] and
    [Reflect.set(target, key, value, receiver)], on the heap.  The targets
    are ordinary objects with data properties: neither call runs code of the
    program, and [Reflect.set] succeeds.  What [Reflect.get] finds along the
    prototype chain is the runtime's business; the properties below hold for
    every runtime. *)
Class Runtime := {
  Reflect_get : Heap → loc → string → Val;
  Reflect_set : loc → string → Val → Heap → Heap;
}.

(** The runtime on targets made by object literals, for the names that are
    not [inherited]: the sample programs use no other. *)
Definition own_properties : Runtime := {|
  Reflect_get h target key := default VUndef (obj_at h target !! key);
  Reflect_set := set_prop;
|}.

(** What a script or the body of an effect does that concerns the reactive
    system: read [proxy[key]], assign [proxy[key] = value], call
    [effect(fn)], throw an exception, and catch one:
    [Try p handler k] is [try { p } catch (e) { handler }], then [k].  A proxy
    made by [reactive(obj)] is named by its target object.  A function that
    never returns is cut off when the fuel runs out, and so is a recursion
    that exhausts the stack: the run ends there. *)
Inductive Prog :=
| Ret
| Get (target : loc) (key : string) (k : Val → Prog)
| Set_ (target : loc) (key : string) (value : Val) (k : Prog)
| Effect (fn : fid) (k : Prog)
| Throw
| Try (p handler k : Prog).

(** Why a function runs: [effect] called it, or [callEffects] did, for an
    assignment to [key] of [target]. *)
Inductive Cause :=
| ByEffect
| BySet (target : loc) (key : string).

#[global] Instance Cause_eq_dec : EqDecision Cause.
Proof. solve_decision. Defined.

(** What an observer records: each call of an effect function and its cause;
    each read through a proxy, with the function that was running (if any),
    the number of calls of [effect] that were in progress, and the value of
    [currentEffect] at that moment; each exception, where it is thrown. *)
Inductive Event :=
| ECall (fn : fid) (cause : Cause)
| ERead (target : loc) (key : string) (running : option (fid * Cause))
        (in_progress : nat) (current : option fid)
| EThrow.

#[global] Instance Event_eq_dec : EqDecision Event.
Proof. solve_decision. Defined.

(** The target objects, the two variables [deps] (a [WeakMap] from target to
    a map from key to an array of effects) and [currentEffect], and the
    observer's bookkeeping, which the code never reads. *)
Record State := {
  heap : Heap;
  deps : gmap loc (gmap string (list fid));
  currentEffect : option fid;
  stack : list (fid * Cause);
  in_progress : nat;
  trace : list Event;
}.

Definition init (h : Heap) : State :=
  {| heap := h; deps := ∅; currentEffect := None;
     stack := []; in_progress := 0; trace := [] |}.

Definition set_heap (h : Heap) (st : State) : State :=
  {| heap := h; deps := deps st; currentEffect := currentEffect st;
     stack := stack st; in_progress := in_progress st; trace := trace st |}.

Definition set_deps (d : gmap loc (gmap string (list fid))) (st : State) : State :=
  {| heap := heap st; deps := d; currentEffect := currentEffect st;
     stack := stack st; in_progress := in_progress st; trace := trace st |}.

Definition set_currentEffect (c : option fid) (st : State) : State :=
  {| heap := heap st; deps := deps st; currentEffect := c;
     stack := stack st; in_progress := in_progress st; trace := trace st |}.

Definition set_stack (s : list (fid * Cause)) (st : State) : State :=
  {| heap := heap st; deps := deps st; currentEffect := currentEffect st;
     stack := s; in_progress := in_progress st; trace := trace st |}.

Definition set_in_progress (n : nat) (st : State) : State :=
  {| heap := heap st; deps := deps st; currentEffect := currentEffect st;
     stack := stack st; in_progress := n; trace := trace st |}.

Definition log (e : Event) (st : State) : State :=
  {| heap := heap st; deps := deps st; currentEffect := currentEffect st;
     stack := stack st; in_progress := in_progress st; trace := trace st ++ [e] |}.

(** The array [deps.get(target)[key]] that [track] has put there, empty when
    there is none. *)
Definition dep_at (st : State) (target : loc) (key : string) : list fid :=
  match deps st !! target with
  | Some objMap => default [] (objMap !! key)
  | None => []
  end.

(** [objMap[key]], for a map [objMap] made by [{}]: the array that was put
    there; or nothing; or, for an [inherited] name, a member of
    [Object.prototype], which is truthy and is no array (it has neither
    [push] nor [forEach]). *)
Inductive Slot :=
| Array (dep : list fid)
| Missing
| Builtin.

Definition slot (objMap : gmap string (list fid)) (key : string) : Slot :=
  match objMap !! key with
  | Some dep => Array dep
  | None => if inherited key then Builtin else Missing
  end.

(** A run ends by itself, or with an exception that nothing caught, or is cut
    off for lack of fuel; in each case the state it got to is kept. *)
Inductive Status := Done | Threw | Cut.

Definition and_then (r : Status * State) (k : State → Status * State) : Status * State :=
  match r with
  | (Done, st) => k st
  | (Threw, st) => (Threw, st)
  | (Cut, st) => (Cut, st)
  end.

(** [track(target, key)].  The map of the target is created before the key
    is looked at; [dep.push] on a member of [Object.prototype] throws a
    [TypeError]. *)
Definition track (target : loc) (key : string) (st : State) : Status * State :=
  match currentEffect st with
  | None => (Done, st)
  | Some fn =>
      let objMap := default ∅ (deps st !! target) in
      match slot objMap key with
      | Array dep =>
          (Done, set_deps (<[target := <[key := dep ++ [fn]]> objMap]> (deps st)) st)
      | Missing =>
          (Done, set_deps (<[target := <[key := [fn]]> objMap]> (deps st)) st)
      | Builtin =>
          (Threw, log EThrow (set_deps (<[target := objMap]> (deps st)) st))
      end
  end.

Section interpreter.
Context {R : Runtime}.
(** Calling a function, for a cause. *)
Variable callf : fid → Cause → State → Status * State.

(** [dep.forEach(effect => effect())] from index [i] on, [n] indices to go *)
Fixpoint forEach_dep (target : loc) (key : string) (i n : nat) (st : State)
  : Status * State :=
  match n with
  | 0 => (Done, st)
  | S n =>
      match dep_at st target key !! i with
      | Some effect =>
          and_then (callf effect (BySet target key) st)
                   (forEach_dep target key (S i) n)
      | None => forEach_dep target key (S i) n st
      end
  end.

(** [callEffects(target, key)].  [dep.forEach] on a member of
    [Object.prototype] throws a [TypeError]. *)
Definition callEffects (target : loc) (key : string) (st : State) : Status * State :=
  match deps st !! target with
  | None => (Done, st)
  | Some objMap =>
      match slot objMap key with
      | Array dep => forEach_dep target key 0 (length dep) st
      | Missing => (Done, st)
      | Builtin => (Threw, log EThrow st)
      end
  end.

(** Running a program.  The proxy's handlers are those of the article's
    earlier versions, with the arguments that the final [track] and
    [callEffects] take (the final version elides them with [// ...]): [get]
    does [Reflect.get], then [track(target, key)]; [set] does [Reflect.set],
    then [callEffects(target, key)].  [effect(fn)] is [currentEffect = fn;
    currentEffect(); currentEffect = null], with no [try]: when the function
    throws, the call of [effect] is over and [currentEffect] stays as it
    is. *)
Fixpoint exec (p : Prog) (st : State) : Status * State :=
  match p with
  | Ret => (Done, st)
  | Get target key k =>
      let res := Reflect_get (heap st) target key in
      let st := log (ERead target key (head (stack st)) (in_progress st)
                       (currentEffect st)) st in
      and_then (track target key st) (exec (k res))
  | Set_ target key value k =>
      let st := set_heap (Reflect_set target key value (heap st)) st in
      and_then (callEffects target key st) (exec k)
  | Effect fn k =>
      let st := set_in_progress (S (in_progress st)) st in
      let st := set_currentEffect (Some fn) st in
      match callf fn ByEffect st with
      | (Done, st) =>
          let st := set_currentEffect None st in
          exec k (set_in_progress (pred (in_progress st)) st)
      | (Threw, st) => (Threw, set_in_progress (pred (in_progress st)) st)
      | (Cut, st) => (Cut, st)
      end
  | Throw => (Threw, log EThrow st)
  | Try p handler k =>
      match exec p st with
      | (Done, st) => exec k st
      | (Threw, st) => and_then (exec handler st) (exec k)
      | (Cut, st) => (Cut, st)
      end
  end.

End interpreter.

Section program.
Context {R : Runtime}.
(** The bodies of the program's effect functions. *)
Variable body : fid → Prog.

(** Calling [fn]: one unit of fuel per call in progress. *)
Fixpoint call (fuel : nat) (fn : fid) (cause : Cause) (st : State) : Status * State :=
  match fuel with
  | 0 => (Cut, st)
  | S fuel =>
      let saved := stack st in
      let st := set_stack ((fn, cause) :: saved) (log (ECall fn cause) st) in
      match exec (call fuel) (body fn) st with
      | (Done, st) => (Done, set_stack saved st)
      | (Threw, st) => (Threw, set_stack saved st)
      | (Cut, st) => (Cut, st)
      end
  end.

(** A script, run at top level. *)
Definition run (fuel : nat) (p : Prog) (st : State) : Status * State :=
  exec (call fuel) p st.

End program.

(** *** Vocabulary of the properties *)

(** The functions that a read of [key] of [target] found in [currentEffect],
    in the order of the reads; none for an [inherited] name, for which
    [track] throws. *)
Definition tracked (target : loc) (key : string) (tr : list Event) : list fid :=
  if inherited key then []
  else omap (λ e, match e with
                  | ERead t k _ _ (Some fn) =>
                      if decide (t = target ∧ k = key) then Some fn else None
                  | _ => None
                  end) tr.

(** The functions that read [key] of [target] while running because
    [effect] called them, in the order of the reads. *)
Definition readers_in_effect (target : loc) (key : string) (tr : list Event) : list fid :=
  omap (λ e, match e with
             | ERead t k (Some (fn, ByEffect)) _ _ =>
                 if decide (t = target ∧ k = key) then Some fn else None
             | _ => None
             end) tr.

(** The functions called, in order. *)
Definition called (tr : list Event) : list fid :=
  omap (λ e, match e with ECall fn _ => Some fn | _ => None end) tr.

(** The functions called between the trace [tr] and its extension [tr']. *)
Definition called_since (tr tr' : list Event) : list fid :=
  called (drop (length tr) tr').




(** The state a run ends in has the property [P], and when the run ends
    with an exception, the exception is on record. *)
Definition kept (P : State → Prop) (r : Status * State) : Prop :=
  P r.2 ∧ (r.1 = Threw → EThrow ∈ trace r.2).

(** No map in [deps] has a key of its own that is an [inherited] name. *)
Definition no_inherited_key (st : State) : Prop :=
  ∀ target objMap key,
    deps st !! target = Some objMap → inherited key = true → objMap !! key = None.

(** Every array in [deps] holds the functions that tracked reads found in
    [currentEffect]. *)
Definition deps_tracked (st : State) : Prop :=
  no_inherited_key st ∧
  ∀ target key, dep_at st target key = tracked target key (trace st).

(** [currentEffect] is the running function exactly when [effect] called
    it. *)
Definition coherent (st : State) : Prop :=
  match head (stack st) with
  | Some (fn, ByEffect) => currentEffect st = Some fn
  | _ => currentEffect st = None
  end.

(** Every array in [deps] holds the functions that read the property while
    running because [effect] called them. *)
Definition readers_recorded (st : State) : Prop :=
  ∀ target key, dep_at st target key = readers_in_effect target key (trace st).

(** The state between two statements of a script: nothing is running. *)
Definition top_level (st : State) : Prop :=
  currentEffect st = None ∧ stack st = [] ∧ readers_recorded st.

(** A body that only reads reactive properties, none of them under an
    [inherited] name. *)
Fixpoint read_only (p : Prog) : Prop :=
  match p with
  | Ret => True
  | Get _ key k => inherited key = false ∧ ∀ v, read_only (k v)
  | _ => False
  end.

(** A script that reads, assigns properties under names that are not
    [inherited], and calls [effect]; it throws nothing, and may have its
    statements in a [try]. *)
Fixpoint tame (p : Prog) : Prop :=
  match p with
  | Ret => True
  | Get _ _ k => ∀ v, tame (k v)
  | Set_ _ key _ k => inherited key = false ∧ tame k
  | Effect _ k => tame k
  | Throw => False
  | Try p _ k => tame p ∧ tame k
  end.

(** *** Sample programs *)

(** [person], the target of [reactive({ firstName: "John", lastName: "Doe" })] *)
Definition person : loc := 1%positive.

Definition person_heap : Heap :=
  {[ person := <["firstName" := VStr "John"]> {["lastName" := VStr "Doe"]} ]}.

(** Function 0 is [() => { fullName = `${person.firstName} ${person.lastName}` }],
    function 1 is [() => { welcome = `Mr. ${person.lastName}` }]. *)
Definition article_effects (fn : fid) : Prog :=
  match fn with
  | 0 => Get person "firstName" (λ _, Get person "lastName" (λ _, Ret))
  | _ => Get person "lastName" (λ _, Ret)
  end.

(** Function 0 is [() => { effect(() => {}); person.firstName }], function 1
    is the inner [() => {}]. *)
Definition nested_effects (fn : fid) : Prog :=
  match fn with
  | 0 => Effect 1 (Get person "firstName" (λ _, Ret))
  | _ => Ret
  end.

(** Function 0 is [() => { person.fullName = person.firstName }], function 1
    is [() => { label = person.fullName }]. *)
Definition assigning_effects (fn : fid) : Prog :=
  match fn with
  | 0 => Get person "firstName" (λ v, Set_ person "fullName" v Ret)
  | _ => Get person "fullName" (λ _, Ret)
  end.

(** Function 0 is [() => { throw new Error() }], function 1 is
    [() => { label = person.constructor }], function 2 is
    [() => { label = person.firstName }]. *)
Definition throwing_effects (fn : fid) : Prog :=
  match fn with
  | 0 => Throw
  | 1 => Get person "constructor" (λ _, Ret)
  | _ => Get person "firstName" (λ _, Ret)
  end.

(** [try { effect(fn) } catch (e) {}; person.firstName] *)
Definition read_after_effect_threw (fn : fid) : Prog :=
  Try (Effect fn Ret) Ret (Get person "firstName" (λ _, Ret)).

End Reactivity.

(** ** The article "Vue 3 reactivity in depth", earlier versions *)

Module Tracking.
Import Js.
Import Reactivity(fid, Cause, ByEffect, BySet, person).

(** What a script or the body of an effect does that concerns the reactive
    system: read [proxy[key]], assign [proxy[key] = value], and call
    [effect(fn)].  Functions return normally; one that never returns is cut
    off when the fuel runs out. *)
Inductive Prog :=
| Ret
| Get (target : loc) (key : string) (k : Val → Prog)
| Set_ (target : loc) (key : string) (value : Val) (k : Prog)
| Effect (fn : fid) (k : Prog).

(** A run ends by itself or is cut off for lack of fuel; either way the state
    it got to is kept. *)
Inductive Status := Done | Cut.

(** What an observer records: each call of an effect function and its cause,
    and each read through a proxy, with the function that was running (if
    any). *)
Inductive Event :=
| ECall (fn : fid) (cause : Cause)
| ERead (target : loc) (key : string) (running : option (fid * Cause)).

(** What the versions of the article differ in: the collection of effects,
    what [track] adds to, and the array that [callEffects] goes through. *)
Class Version := {
  Deps : Type;
  (** the collection at the start *)
  no_deps : Deps;
  (** what [track] does when [currentEffect] is set *)
  push : loc → string → fid → Deps → Deps;
  (** the array [callEffects] goes through, empty when there is none *)
  dep : Deps → loc → string → list fid;
}.

(** "Introduce current effect": [const effects = []], [track] does
    [effects.push(currentEffect)] and [callEffects] does
    [effects.forEach(effect => effect())]. *)
Definition one_array : Version := {|
  Deps := list fid;
  no_deps := [];
  push _ _ fn effects := effects ++ [fn];
  dep effects _ _ := effects;
|}.

(** "Property dependencies": [const deps = {}], [track(key)] creates
    [deps[key]] if need be and pushes [currentEffect] to it, and
    [callEffects(key)] goes through [deps[key]] if there is one.  This is the
    version for the names that are not [inherited]: for the others [deps[key]]
    is a member of [Object.prototype] and both functions throw. *)
Definition by_key : Version := {|
  Deps := gmap string (list fid);
  no_deps := ∅;
  push _ key fn deps := <[key := default [] (deps !! key) ++ [fn]]> deps;
  dep deps _ key := default [] (deps !! key);
|}.

Section version.
Context {V : Version}.

Record State := {
  heap : Heap;
  deps : Deps;
  currentEffect : option fid;
  stack : list (fid * Cause);
  trace : list Event;
}.

Definition init (h : Heap) : State :=
  {| heap := h; deps := no_deps; currentEffect := None; stack := []; trace := [] |}.

Definition set_heap (h : Heap) (st : State) : State :=
  {| heap := h; deps := deps st; currentEffect := currentEffect st;
     stack := stack st; trace := trace st |}.

Definition set_deps (d : Deps) (st : State) : State :=
  {| heap := heap st; deps := d; currentEffect := currentEffect st;
     stack := stack st; trace := trace st |}.

Definition set_currentEffect (c : option fid) (st : State) : State :=
  {| heap := heap st; deps := deps st; currentEffect := c;
     stack := stack st; trace := trace st |}.

Definition set_stack (s : list (fid * Cause)) (st : State) : State :=
  {| heap := heap st; deps := deps st; currentEffect := currentEffect st;
     stack := s; trace := trace st |}.

Definition log (e : Event) (st : State) : State :=
  {| heap := heap st; deps := deps st; currentEffect := currentEffect st;
     stack := stack st; trace := trace st ++ [e] |}.

(** [track]: [if (!currentEffect) return], then the push. *)
Definition track (target : loc) (key : string) (st : State) : State :=
  match currentEffect st with
  | None => st
  | Some fn => set_deps (push target key fn (deps st)) st
  end.

Definition and_then (r : Status * State) (k : State → Status * State) : Status * State :=
  match r with
  | (Done, st) => k st
  | (Cut, st) => (Cut, st)
  end.

Section interpreter.
Variable callf : fid → Cause → State → Status * State.

(** [forEach(effect => effect())] over the array, from index [i] on, [n]
    indices to go *)
Fixpoint forEach_dep (target : loc) (key : string) (i n : nat) (st : State)
  : Status * State :=
  match n with
  | 0 => (Done, st)
  | S n =>
      match dep (deps st) target key !! i with
      | Some effect =>
          and_then (callf effect (BySet target key) st)
                   (forEach_dep target key (S i) n)
      | None => forEach_dep target key (S i) n st
      end
  end.

Definition callEffects (target : loc) (key : string) (st : State) : Status * State :=
  forEach_dep target key 0 (length (dep (deps st) target key)) st.

(** The proxy's handlers and [effect], as in the final version. *)
Fixpoint exec (p : Prog) (st : State) : Status * State :=
  match p with
  | Ret => (Done, st)
  | Get target key k =>
      let res := default VUndef (obj_at (heap st) target !! key) in
      let st := log (ERead target key (head (stack st))) st in
      exec (k res) (track target key st)
  | Set_ target key value k =>
      let st := set_heap (set_prop target key value (heap st)) st in
      and_then (callEffects target key st) (exec k)
  | Effect fn k =>
      let st := set_currentEffect (Some fn) st in
      and_then (callf fn ByEffect st) (λ st, exec k (set_currentEffect None st))
  end.

End interpreter.

Section program.
Variable body : fid → Prog.

Fixpoint call (fuel : nat) (fn : fid) (cause : Cause) (st : State) : Status * State :=
  match fuel with
  | 0 => (Cut, st)
  | S fuel =>
      let saved := stack st in
      let st := set_stack ((fn, cause) :: saved) (log (ECall fn cause) st) in
      and_then (exec (call fuel) (body fn) st) (λ st, (Done, set_stack saved st))
  end.

Definition run (fuel : nat) (p : Prog) (st : State) : Status * State :=
  exec (call fuel) p st.

End program.
End version.

(** A body that only reads reactive properties. *)
Fixpoint read_only (p : Prog) : Prop :=
  match p with
  | Ret => True
  | Get _ _ k => ∀ v, read_only (k v)
  | Set_ _ _ _ _ => False
  | Effect _ _ => False
  end.

(** A program that reads and assigns no property under an [inherited]
    name. *)
Fixpoint plain_names (p : Prog) : Prop :=
  match p with
  | Ret => True
  | Get _ key k => inherited key = false ∧ ∀ v, plain_names (k v)
  | Set_ _ key _ k => inherited key = false ∧ plain_names k
  | Effect _ k => plain_names k
  end.

(** The functions that read a property selected by [sel] while running
    because [effect] called them, in the order of the reads. *)
Definition readers_where (sel : loc → string → Prop)
    {sel_dec : ∀ t k, Decision (sel t k)} (tr : list Event) : list fid :=
  omap (λ e, match e with
             | ERead t k (Some (fn, ByEffect)) =>
                 if decide (sel t k) then Some fn else None
             | _ => None
             end) tr.

(** The functions called, in order. *)
Definition called (tr : list Event) : list fid :=
  omap (λ e, match e with ECall fn _ => Some fn | _ => None end) tr.

(** The functions called between the trace [tr] and its extension [tr']. *)
Definition called_since (tr tr' : list Event) : list fid :=
  called (drop (length tr) tr').

(** [currentEffect] is the running function exactly when [effect] called
    it. *)
Definition coherent `{Version} (st : State) : Prop :=
  match head (stack st) with
  | Some (fn, ByEffect) => currentEffect st = Some fn
  | _ => currentEffect st = None
  end.

(** Every array holds the functions that read, while running because
    [effect] called them, a property that [same] puts together with the
    array's. *)
Definition recorded `{Version} (same : loc → string → loc → string → Prop)
    `{!∀ t k t' k', Decision (same t k t' k')} (st : State) : Prop :=
  ∀ target key,
    dep (deps st) target key = readers_where (λ t k, same t k target key) (trace st).

(** [person2], the target of
    [reactive({ firstName: "David", lastName: "Doe" })] *)
Definition person2 : loc := 2%positive.

Definition two_persons_heap : Heap :=
  {[ person := <["firstName" := VStr "John"]> {["lastName" := VStr "Doe"]};
     person2 := <["firstName" := VStr "David"]> {["lastName" := VStr "Doe"]} ]}.

(** Function 0 is [() => { fullName1 = `${person1.firstName}
    ${person1.lastName}` }], function 1 the same for [person2]. *)
Definition two_persons_effects (fn : fid) : Prog :=
  match fn with
  | 0 => Get person "firstName" (λ _, Get person "lastName" (λ _, Ret))
  | _ => Get person2 "firstName" (λ _, Get person2 "lastName" (λ _, Ret))
  end.

End Tracking.

(** ** The site's view components *)

Module View.

(** The data that reaches the components (props, the results of GraphQL
    queries, [location]) is immutable JSON-like data. *)
Inductive Json :=
| JUndef
| JNull
| JBool (b : bool)
| JNum (n : Z)
| JStr (s : string)
| JObj (fields : list (string * Json)).

(** The first value under the key [k]. *)
Fixpoint assoc {A} (k : string) (l : list (string * A)) : option A :=
  match l with
  | [] => None
  | (k', v) :: l => if decide (k' = k) then Some v else assoc k l
  end.

Definition nullish (v : Json) : bool :=
  match v with
  | JUndef | JNull => true
  | _ => false
  end.

Definition truthy (v : Json) : bool :=
  match v with
  | JUndef | JNull => false
  | JBool b => b
  | JNum n => negb (n =? 0)%Z
  | JStr s => negb (bool_decide (s = ""))
  | JObj _ => true
  end.

(** [a || b] *)
Definition or_ (a b : Json) : Json := if truthy a then a else b.

(** The property [k] of a value that is not nullish: an own property of an
    object, the length of a string, [undefined] otherwise.  (Prototype chains
    and the index properties of strings are not modelled; the components read
    neither.) *)
Definition field (v : Json) (k : string) : Json :=
  match v with
  | JObj fields => default JUndef (assoc k fields)
  | JStr s => if decide (k = "length") then JNum (Z.of_nat (String.length s)) else JUndef
  | _ => JUndef
  end.

(** [v.k]; [None] is the [TypeError] of reading a property of [undefined] or
    [null]. *)
Definition get (v : Json) (k : string) : option Json :=
  if nullish v then None else Some (field v k).

(** [v === s] for a string [s] *)
Definition is_string (v : Json) (s : string) : bool :=
  match v with
  | JStr s' => bool_decide (s' = s)
  | _ => false
  end.

(** What an element is an instance of: a host element such as [<header>]; a
    styled component, named by the file and constant that define it, with
    the element or component it styles; or a component. *)
Inductive Tag :=
| Host (name : string)
| Styled (name base : string)
| Component (name : string).

#[global] Instance Tag_eq_dec : EqDecision Tag.
Proof. solve_decision. Defined.

(** React elements.  [Value v] is a child written as an expression,
    [{v}]. *)
Inductive Node :=
| Text (s : string)
| Value (v : Json)
| Element (tag : Tag) (props : list (string * Json)) (children : list Node).

(** What [console.log] has printed. *)
Abbreviation Console := (list Json).

(** [new Date()]: the local calendar fields of the moment of the call. *)
Record Date := {
  getFullYear : Z;
  getMonth : Z;
  getDate : Z;
  getHours : Z;
  getMinutes : Z;
}.

(** What a render reads besides its props: Gatsby's global
    [__PATH_PREFIX__], the clock, and the result of the static [BioQuery]. *)
Record Env := {
  PATH_PREFIX : string;
  now : Date;
  bioData : Json;
}.

(** A function component: from the props and the children to an element, or
    a [TypeError]; with what it printed. *)
Abbreviation FC := (Env → list (string * Json) → list Node → option (Node * list Json)).

(** [props.k] of a props object *)
Definition prop (props : list (string * Json)) (k : string) : Json :=
  default JUndef (assoc k props).

(** *** components/Layout/Heading.js *)

Definition Heading_MainHeading : Tag := Styled "Heading.MainHeading" "h1".
Definition Heading_SubHeading : Tag := Styled "Heading.SubHeading" "h3".

(** [const Heading = ({ location, ...props }) => ...] *)
Definition Heading : FC := λ env props children,
  let location := prop props "location" in
  let props := filter (λ kv, kv.1 ≠ "location") props in
  let rootPath := PATH_PREFIX env +:+ "/" in
  pathname ← get location "pathname";
  if is_string pathname rootPath
  then Some (Element Heading_MainHeading props children, [])
  else Some (Element Heading_SubHeading props children, []).

(** *** components/Layout/index.js *)

Definition Layout_HeadingLink : Tag := Styled "Layout.HeadingLink" "Link".
Definition Layout_Container : Tag := Styled "Layout.Container" "div".

(** [const Layout = ({ location, title, children }) => ...] *)
Definition Layout : FC := λ env props children,
  let location := prop props "location" in
  let title := prop props "title" in
  Some (Element Layout_Container [] [
    Element (Host "header") [] [
      Element (Component "Heading") [("location", location)] [
        Element Layout_HeadingLink [("to", JStr "/")] [Value title]]];
    Element (Host "main") [] children;
    Element (Host "footer") [] [
      Text "© "; Value (JNum (getFullYear (now env))); Text ", Built with";
      Value (JStr " ");
      Element (Host "a") [("href", JStr "https://www.gatsbyjs.org")] [Text "Gatsby"]]],
    []).

(** *** components/Bio *)

(** [bioData.file.childImageSharp.fixed] *)
Definition fixed_image (bioData : Json) (file : string) : option Json :=
  f ← get bioData file; c ← get f "childImageSharp"; get c "fixed".

(** [useBioData()], given the result of the static query *)
Definition useBioData (bioData : Json)
  : option (Json * Json * list (string * Json) * Json) :=
  site ← get bioData "site";
  siteMetadata ← get site "siteMetadata";
  author ← get siteMetadata "author";
  social ← get siteMetadata "social";
  avatar ← fixed_image bioData "avatar";
  devto ← fixed_image bioData "devto";
  github ← fixed_image bioData "github";
  linked ← fixed_image bioData "linked";
  medium ← fixed_image bioData "medium";
  twitter ← fixed_image bioData "twitter";
  let socialImages :=
    [("devto", devto); ("github", github); ("linked", linked);
     ("medium", medium); ("twitter", twitter)] in
  Some (author, social, socialImages, avatar).

Definition Bio_Container : Tag := Styled "Bio.Container" "div".
Definition Bio_Summary : Tag := Styled "Bio.Summary" "div".
Definition Bio_Avatar : Tag := Styled "Bio.Avatar" "Image".
Definition Bio_SocialIcon : Tag := Styled "Bio.SocialIcon" "Image".
Definition Bio_SocialLink : Tag := Styled "Bio.SocialLink" "a".

(** [const Bio = () => ...], with its [console.log(social)] *)
Definition Bio : FC := λ env _ _,
  '(author, social, socialImages, avatar) ← useBioData (bioData env);
  socialIcons ← mapM (λ '(key, image),
      account ← get social key;
      link ← get account "link";
      username ← get account "username";
      Some (Element Bio_SocialLink
              [("href", link); ("target", JStr "_blank"); ("alt", username)]
              [Element Bio_SocialIcon [("fixed", image)] []]))
    socialImages;
  name ← get author "name";
  summary ← get author "summary";
  Some (Element Bio_Container [] [
    Element Bio_Avatar
      [("fixed", avatar); ("alt", name);
       ("imgStyle", JObj [("borderRadius", JStr "50%")])] [];
    Element Bio_Summary [] [
      Element (Host "p") [] [
        Text "Written by "; Element (Host "strong") [] [Value name]];
      Element (Host "div") [] (Value summary :: socialIcons)]],
    [social]).

(** *** templates/blog-post.js *)

Definition Post_MainHeading : Tag := Styled "blog-post.MainHeading" "h1".
Definition Post_PostDate : Tag := Styled "blog-post.PostDate" "p".
Definition Post_BottomLine : Tag := Styled "blog-post.BottomLine" "hr".
Definition Post_NavList : Tag := Styled "blog-post.NavList" "ul".

(** [{previous && (<Link to={previous.fields.slug} rel="prev">←
    {previous.frontmatter.title}</Link>)}] and its mirror image for [next] *)
Definition nav_link (rel : string) (neighbour : Json) : option Node :=
  if truthy neighbour then
    fields ← get neighbour "fields";
    slug ← get fields "slug";
    frontmatter ← get neighbour "frontmatter";
    title ← get frontmatter "title";
    Some (Element (Component "Link") [("to", slug); ("rel", JStr rel)]
            (if decide (rel = "prev") then [Text "← "; Value title]
             else [Value title; Text " →"]))
  else Some (Value neighbour).

(** [const BlogPostTemplate = ({ data, pageContext, location }) => ...] *)
Definition BlogPostTemplate : FC := λ env props _,
  let data := prop props "data" in
  let pageContext := prop props "pageContext" in
  let location := prop props "location" in
  post ← get data "markdownRemark";
  site ← get data "site";
  siteMetadata ← get site "siteMetadata";
  siteTitle ← get siteMetadata "title";
  previous ← get pageContext "previous";
  next ← get pageContext "next";
  frontmatter ← get post "frontmatter";
  title ← get frontmatter "title";
  let description := field frontmatter "description" in
  let date := field frontmatter "date" in
  prev_link ← nav_link "prev" previous;
  next_link ← nav_link "next" next;
  Some (Element (Component "Layout") [("location", location); ("title", siteTitle)] [
    Element (Component "Seo")
      [("title", title); ("description", or_ description (field post "excerpt"))] [];
    Element (Host "article") [] [
      Element (Host "header") [] [
        Element Post_MainHeading [] [Value title];
        Element Post_PostDate [] [Value date]];
      Element (Host "section")
        [("dangerouslySetInnerHTML", JObj [("__html", field post "html")])] [];
      Element Post_BottomLine [] [];
      Element (Host "footer") [] [Element (Component "Bio") [] []]];
    Element (Host "nav") [] [
      Element Post_NavList [] [
        Element (Host "li") [] [prev_link];
        Element (Host "li") [] [next_link]]]],
    []).

(** *** Rendering

    React calls the components that appear in an element tree until only
    host elements and components defined elsewhere ([Seo], [Link], [Image],
    the styled wrappers) are left. *)
Definition component (name : string) : option FC :=
  if decide (name = "Heading") then Some Heading
  else if decide (name = "Layout") then Some Layout
  else if decide (name = "Bio") then Some Bio
  else if decide (name = "BlogPostTemplate") then Some BlogPostTemplate
  else None.

Fixpoint render_all (r : Node → Js.Res (Node * list Json)) (ns : list Node)
  : Js.Res (list Node * list Json) :=
  match ns with
  | [] => Js.Ok ([], [])
  | n :: ns =>
      '(m, c) ← r n;
      '(ms, cs) ← render_all r ns;
      Js.Ok (m :: ms, c ++ cs)
  end.

Fixpoint render (fuel : nat) (env : Env) (n : Node) : Js.Res (Node * list Json) :=
  match fuel with
  | 0 => Js.OutOfFuel
  | S fuel =>
      match n with
      | Text _ | Value _ => Js.Ok (n, [])
      | Element tag props children =>
          let host :=
            '(children, c) ← render_all (render fuel env) children;
            Js.Ok (Element tag props children, c) in
          match tag with
          | Component name =>
              match component name with
              | Some f =>
                  match f env props children with
                  | Some (out, c) =>
                      '(m, c') ← render fuel env out;
                      Js.Ok (m, c ++ c')
                  | None => Js.TypeError
                  end
              | None => host
              end
          | _ => host
          end
      end
  end.

(** All elements with the given tag, outermost first. *)
Fixpoint find (tag : Tag) (n : Node) : list Node :=
  match n with
  | Element t props children =>
      (if decide (t = tag) then [n] else []) ++
      (fix find_in (ns : list Node) : list Node :=
         match ns with
         | [] => []
         | n :: ns => find tag n ++ find_in ns
         end) children
  | _ => []
  end.

(** *** Vocabulary of the properties *)

(** [v.k1.k2...] *)
Definition get_path (v : Json) (ks : list string) : option Json :=
  foldl (λ acc k, acc ≫= λ v, get v k) (Some v) ks.

(** What the specification says of a component: two renders with the same
    props and the same queried data (and path prefix) give the same markup,
    and rendering prints nothing. *)
Definition renders_purely (name : string) : Prop :=
  ∀ fuel env1 env2 props children,
    PATH_PREFIX env1 = PATH_PREFIX env2 →
    bioData env1 = bioData env2 →
    render fuel env1 (Element (Component name) props children)
    = render fuel env2 (Element (Component name) props children) ∧
    ∀ m c, render fuel env1 (Element (Component name) props children) = Js.Ok (m, c) →
           c = [].

(** The link [Bio] shows for the account [key]. *)
Definition social_link (bioData : Json) (key : string) : Node :=
  let social := field (field (field bioData "site") "siteMetadata") "social" in
  Element Bio_SocialLink
    [("href", field (field social key) "link"); ("target", JStr "_blank");
     ("alt", field (field social key) "username")]
    [Element Bio_SocialIcon
       [("fixed", field (field (field bioData key) "childImageSharp") "fixed")] []].

(** The paths [Bio] follows in the result of the query. *)
Definition Bio_paths : list (list string) :=
  [["site"; "siteMetadata"; "author"; "name"]]
  ++ ((λ key, ["site"; "siteMetadata"; "social"; key; "link"])
        <$> ["devto"; "github"; "linked"; "medium"; "twitter"])
  ++ ((λ file, [file; "childImageSharp"; "fixed"])
        <$> ["avatar"; "devto"; "github"; "linked"; "medium"; "twitter"]).

(** [{neighbour && (<Link ...>)}] can be evaluated: a neighbour that is
    truthy has [fields] and [frontmatter]. *)
Definition neighbour_ok (neighbour : Json) : Prop :=
  truthy neighbour = true →
  nullish (field neighbour "fields") = false ∧
  nullish (field neighbour "frontmatter") = false.

(** What the page of a post needs: the template, [Heading] and [Bio] find
    what they read. *)
Definition page_ok (env : Env) (props : list (string * Json)) (children : list Node)
  : Prop :=
  is_Some (BlogPostTemplate env props children)
  ∧ nullish (prop props "location") = false
  ∧ is_Some (Bio env [] []).

(** *** Sample data: the site's configuration and a post *)

Definition image (file : string) : Json :=
  JObj [("childImageSharp", JObj [("fixed", JObj [("src", JStr file)])])].

Definition account (username link : string) : Json :=
  JObj [("username", JStr username); ("link", JStr link)].

Definition site_bioData : Json :=
  JObj [
    ("avatar", image "profile-pic.jpg");
    ("devto", image "devto.png");
    ("github", image "github.png");
    ("linked", image "linked.png");
    ("medium", image "medium.png");
    ("twitter", image "twitter.png");
    ("site", JObj [("siteMetadata", JObj [
      ("author", JObj [
        ("name", JStr "Patryk Andrzejewski");
        ("summary", JStr "I'm a software engineer who is fascinated with new technologies and creating a modern software. Mainly I do #javascript #react and #vue but... programming is a tool, so i try to force it to solve my problems by adjusting technology to myself, not myself to the technology.")]);
      ("social", JObj [
        ("twitter", account "andrzejewskyy" "https://twitter.com/andrzejewskyy");
        ("linked", account "patryk-andrzejewski" "https://www.linkedin.com/in/patryk-andrzejewski");
        ("github", account "andrzejewsky" "https://github.com/andrzejewsky");
        ("devto", account "andrzejewsky" "https://dev.to/andrzejewsky");
        ("medium", account "patrykandrzejewski" "https://medium.com/@patrykandrzejewski")])])])].

(** The site rendered at some moment of the given year and month. *)
Definition env_at (year month : Z) : Env :=
  {| PATH_PREFIX := "";
     now := {| getFullYear := year; getMonth := month; getDate := 1;
               getHours := 0; getMinutes := 0 |};
     bioData := site_bioData |}.

(** The props of the page of the post "Vue 3 reactivity in depth", whose
    front matter has no description. *)
Definition vue_post_props : list (string * Json) :=
  [("data", JObj [
      ("site", JObj [("siteMetadata", JObj [("title", JStr "Patryk Andrzejewski Blog")])]);
      ("markdownRemark", JObj [
        ("id", JStr "vue-3-reactivity-in-depth");
        ("excerpt", JStr "As Vue 3 is introducing composition API and its own reactivity system, I was curious how it works underneath.");
        ("html", JStr "<p>As Vue 3 is introducing composition API</p>");
        ("frontmatter", JObj [
          ("title", JStr "Vue 3 reactivity in depth");
          ("date", JStr "April 28, 2020");
          ("description", JNull)])])]);
   ("pageContext", JObj [
      ("previous", JObj [
        ("fields", JObj [("slug", JStr "/blockchain-is-a-scam/")]);
        ("frontmatter", JObj [("title", JStr "Blockchain is a scam. Blockchain is only hype.")])]);
      ("next", JNull)]);
   ("location", JObj [("pathname", JStr "/vue-3-reactivity-in-depth/")])].

(** [<Layout location={{ pathname: "/" }} title="Patryk Andrzejewski Blog" />] *)
Definition home_layout : Node :=
  Element (Component "Layout")
    [("location", JObj [("pathname", JStr "/")]);
     ("title", JStr "Patryk Andrzejewski Blog")] [].

End View.

(** ** The posts' front matter *)

Module Content.

(** A post: the source file and the line at which its front matter opens,
    and the fields of the front matter in the order they are written. *)
Record Post := {
  file : string;
  line : nat;
  frontmatter : list (string * string);
}.

Definition blockchain : Post :=
  {| file := "unnamed/part_000"; line := 1;
     frontmatter :=
       [("title", "Blockchain is a scam. Blockchain is only hype.");
        ("date", "2020-02-03T22:12:03.284Z");
        ("description", "What’s wrong with the blockchain? Is it a breakthrough or just a scam. Do we need this? or it’s useless?")] |}.

Definition unnecessary_props : Post :=
  {| file := "unnamed/part_001"; line := 1;
     frontmatter :=
       [("title", "How to get rid of unnecessary props in React.js");
        ("date", "2020-05-16T22:40:32.169Z");
        ("description", "Using useContext and useReducer to cope with managing state")] |}.

Definition optimistic_ui : Post :=
  {| file := "unnamed/part_002"; line := 1;
     frontmatter :=
       [("title", "The optimistic UI with React");
        ("date", "2018-11-09T23:46:37.121Z");
        ("description", "Going through the Optimistic UI approach in pure React apps and Apollo Graphql")] |}.

Definition command_pattern : Post :=
  {| file := "unnamed/part_002"; line := 243;
     frontmatter :=
       [("title", "Using command pattern with vue composition-API");
        ("date", "2020-08-05T23:46:37.121Z")] |}.

Definition vue_reactivity : Post :=
  {| file := "unnamed/part_002"; line := 337;
     frontmatter :=
       [("title", "Vue 3 reactivity in depth");
        ("date", "2020-04-28T23:46:37.121Z")] |}.

Definition own_redux : Post :=
  {| file := "content/blog/how-to-create-your-own-redux/index.md"; line := 1;
     frontmatter :=
       [("title", "How to create your own Redux");
        ("date", "2018-09-23T22:12:03.284Z");
        ("description", "Are you a beginner in the react world? Or you want to go deeper and see how it works? — this post is for you! Let’s try to wire our own redux implementation.")] |}.

Definition netflix_slider : Post :=
  {| file := "content/blog/how-to-implement-netflix-slider-with-react-and-hooks/index.md"; line := 1;
     frontmatter :=
       [("title", "How to implement Netflix slider with React and hooks");
        ("date", "2019-03-07T22:40:32.169Z");
        ("description", "Something about Netflix UI written in React and animated by CSS.")] |}.

(** Every post of the repository. *)
Definition posts : list Post :=
  [blockchain; unnecessary_props; optimistic_ui; command_pattern;
   vue_reactivity; own_redux; netflix_slider].

(** The post's front matter has the field. *)
Definition has_field (k : string) (p : Post) : bool :=
  bool_decide (k ∈ (frontmatter p).*1).

End Content.

(** ** The article "Using command pattern with vue composition-API" *)

Module Cart.

(** [{ id, name, price }], for ids and prices that are whole numbers; a
    price with a fraction, like [0.1], is not in the model. *)
Record Product := {
  id : Z;
  name : string;
  price : Z;
}.

(** [{ products, discount, totalPrice }] *)
Record Cart := {
  products : list Product;
  discount : Js.Val;
  totalPrice : Z;
}.

(** A command: an object with the two functions [invoke] and [undo], from a
    cart to a cart. *)
Record Command := {
  invoke : Cart → Cart;
  undo : Cart → Cart;
}.

(** [const AddToCart = product => ({ invoke: cart => ..., undo: cart => ... })] *)
Definition AddToCart (product : Product) : Command := {|
  invoke cart :=
    {| products := products cart ++ [product];
       discount := discount cart;
       totalPrice := Js.num_add (totalPrice cart) (price product) |};
  undo cart :=
    {| products := filter (λ p, id p ≠ id product) (products cart);
       discount := discount cart;
       totalPrice := Js.num_sub (totalPrice cart) (price product) |};
|}.

(** [history.pop()]: the last element, if any, and the array without it. *)
Definition pop {A} (l : list A) : option A * list A :=
  (last l, take (length l - 1) l).

(** What [useCart()] closes over: the array [history] and [cart.value]. *)
Module useCart.

Record State := {
  history : list Command;
  cart : Cart;
}.

(** The state when [useCart()] returns. *)
Definition init : State :=
  {| history := [];
     cart := {| products := []; discount := Js.VNull; totalPrice := 0%Z |} |}.

(** [const invoke = command => { ... }] *)
Definition invoke (command : Command) (s : State) : State :=
  {| history := history s ++ [command];
     cart := Cart.invoke command (cart s) |}.

(** [const undo = () => { cart.value = history.pop().undo(cart.value) }];
    with an empty history, [history.pop()] is [undefined] and reading its
    [undo] throws. *)
Definition undo (s : State) : Js.Res State :=
  match pop (history s) with
  | (Some command, history) =>
      Js.Ok {| history := history; cart := Cart.undo command (cart s) |}
  | (None, _) => Js.TypeError
  end.

(** The calls a client makes, one after the other. *)
Inductive Call :=
| Invoke (command : Command)
| Undo.

Fixpoint run (calls : list Call) (s : State) : Js.Res State :=
  match calls with
  | [] => Js.Ok s
  | Invoke command :: calls => run calls (invoke command s)
  | Undo :: calls => s ← undo s; run calls s
  end.

End useCart.

(** *** Vocabulary of the properties *)

(** [totalPrice] is the sum of the prices of the products in the cart. *)
Definition consistent (cart : Cart) : Prop :=
  totalPrice cart = foldr Z.add 0%Z (price <$> products cart).

(** The prices are integers whose absolute values add up to [2^53] at most:
    no sum of some of them is rounded. *)
Definition exact_prices (ps : list Product) : Prop :=
  Js.exact (foldr Z.add 0%Z (Z.abs ∘ price <$> ps)).

(** The state after [invoke(AddToCart(p))] for each of the products, from
    the start, when no sum is rounded. *)
Definition added (ps : list Product) : useCart.State :=
  {| useCart.history := AddToCart <$> ps;
     useCart.cart :=
       {| products := ps; discount := Js.VNull;
          totalPrice := foldr Z.add 0%Z (price <$> ps) |} |}.

(** *** Sample data: the article's example *)

Definition beer : Product := {| id := 1%Z; name := "Beer"; price := 4%Z |}.
Definition pizza : Product := {| id := 2%Z; name := "Pizza"; price := 10%Z |}.

End Cart.

(** ** The article "The optimistic UI with React" *)

Module Optimistic.

(** [{ id, name }] *)
Record Todo := {
  id : Z;
  name : string;
}.

(** The first [TodoListContainer], with the loading state. *)
Module Loading.

Record State := {
  loading : bool;
  todos : list Todo;
}.

(** [this.state] after the constructor *)
Definition init : State := {| loading := false; todos := [] |}.

(** [handleAddTodo], up to the request: [this.setState({ loading: true })] *)
Definition handleAddTodo (name : string) (state : State) : State :=
  {| loading := true; todos := todos state |}.

(** [.then(receivedTodo => { this.setState(state => ...) })] *)
Definition then_ (receivedTodo : Todo) (state : State) : State :=
  {| loading := false; todos := todos state ++ [receivedTodo] |}.

(** [.catch(() => { this.setState({ loading: false }) })] *)
Definition catch_ (state : State) : State :=
  {| loading := false; todos := todos state |}.

End Loading.

(** The second [TodoListContainer], the optimistic one; its state has the
    single field [todos]. *)

(** [handleAddTodo], up to the request: the todo is added with a fake,
    negative id. *)
Definition handleAddTodo (name : string) (todos : list Todo) : list Todo :=
  todos ++ [{| id := (- (Z.of_nat (length todos) + 1))%Z; name := name |}].

(** [.then(receivedTodo => { this.setState(state => ...) })] *)
Definition then_ (receivedTodo : Todo) (todos : list Todo) : list Todo :=
  (λ todo, if decide (name todo = name receivedTodo) then receivedTodo else todo)
    <$> todos.

(** [.catch(() => { this.setState(state => ...) })] of the request for
    [name] *)
Definition catch_ (name' : string) (todos : list Todo) : list Todo :=
  filter (λ todo, name todo ≠ name') todos.

(** [optimistic={todo.id < 0}] *)
Definition optimistic (todo : Todo) : bool := (id todo <? 0)%Z.

(** What happens to the container: the user adds a todo, a request
    succeeds with the todo received, or the request for a name fails. *)
Inductive Event :=
| Add (name : string)
| Saved (receivedTodo : Todo)
| Failed (name : string).

Definition step (todos : list Todo) (e : Event) : list Todo :=
  match e with
  | Add name => handleAddTodo name todos
  | Saved receivedTodo => then_ receivedTodo todos
  | Failed name => catch_ name todos
  end.

(** The name of the request an event answers. *)
Definition answers (e : Event) : option string :=
  match e with
  | Add _ => None
  | Saved receivedTodo => Some (name receivedTodo)
  | Failed name => Some name
  end.

(** The todo that [handleAddTodo] adds to a list of [n] todos. *)
Definition fake (n : nat) (name : string) : Todo :=
  {| id := (- (Z.of_nat n + 1))%Z; name := name |}.

(** The names added and the todos received, in the order of the events. *)
Definition adds (events : list Event) : list string :=
  omap (λ e, match e with Add name => Some name | _ => None end) events.

Definition saved (events : list Event) : list Todo :=
  omap (λ e, match e with Saved receivedTodo => Some receivedTodo | _ => None end)
    events.

(** No request fails, and every answer comes after the addition of its
    name; [sent] are the names added before the events. *)
Fixpoint answered_in_time (sent : list string) (events : list Event) : Prop :=
  match events with
  | [] => True
  | Add name :: events => answered_in_time (name :: sent) events
  | Saved receivedTodo :: events =>
      name receivedTodo ∈ sent ∧ answered_in_time sent events
  | Failed _ :: events => False
  end.

(** The first of the todos received that has the name. *)
Fixpoint received_as (name' : string) (receivedTodos : list Todo) : option Todo :=
  match receivedTodos with
  | [] => None
  | receivedTodo :: receivedTodos =>
      if decide (name receivedTodo = name') then Some receivedTodo
      else received_as name' receivedTodos
  end.

(** What the list shows for the name added at index [i]: the todo received
    under that name, or else the fake one. *)
Definition shown (receivedTodos : list Todo) (i : nat) (name' : string) : Todo :=
  default (fake i name') (received_as name' receivedTodos).

End Optimistic.

(** ** The article "How to get rid of unnecessary props in React.js" *)

Module Todos.

(** An action: [{ type, todo }]; the todos are the texts typed in. *)
Record Action := {
  type : string;
  todo : string;
}.

Definition initialState : list string := [].

(** [const todoReeucer = (state, action) => { switch (action.type) ... }] *)
Definition todoReeucer (state : list string) (action : Action) : list string :=
  if decide (type action = "ADD_TODO") then state ++ [todo action]
  else if decide (type action = "DELETE_TODO") then filter (λ t, t ≠ todo action) state
  else state.

(** *** Vocabulary of the properties *)

(** How often [ADD_TODO] was dispatched with the text [t] since the last
    [DELETE_TODO] with it. *)
Definition added_since_deleted (t : string) (actions : list Action) : nat :=
  foldl (λ n action,
           if decide (todo action = t) then
             if decide (type action = "ADD_TODO") then S n
             else if decide (type action = "DELETE_TODO") then 0
             else n
           else n) 0 actions.

End Todos.

(** ** The article "How to implement Netflix slider with React and hooks" *)

Module Slider.
Local Open Scope Z_scope.

Definition PADDINGS : Z := 110.

(** The four state variables of [useSliding]; widths are whole numbers of
    pixels. *)
Record State := {
  containerWidth : Z;
  distance : Z;
  totalInViewport : Z;
  viewed : Z;
}.

(** [useState(0)], four times *)
Definition init : State :=
  {| containerWidth := 0; distance := 0; totalInViewport := 0; viewed := 0 |}.

(** The effect, with [containerRef.current.clientWidth] and an [elementWidth]
    that is not 0 (with 0 the quotient is [Infinity] or [NaN], which are not
    modelled): [Math.floor] of the quotient is the floor division. *)
Definition effect (clientWidth elementWidth : Z) (s : State) : State :=
  let containerWidth := clientWidth - PADDINGS in
  {| containerWidth := containerWidth;
     distance := distance s;
     totalInViewport := containerWidth / elementWidth;
     viewed := viewed s |}.

Definition handlePrev (s : State) : State :=
  {| containerWidth := containerWidth s;
     distance := distance s + containerWidth s;
     totalInViewport := totalInViewport s;
     viewed := viewed s - totalInViewport s |}.

Definition handleNext (s : State) : State :=
  {| containerWidth := containerWidth s;
     distance := distance s - containerWidth s;
     totalInViewport := totalInViewport s;
     viewed := viewed s + totalInViewport s |}.

Definition hasPrev (s : State) : bool := distance s <? 0.

Definition hasNext (countElements : Z) (s : State) : bool :=
  viewed s + totalInViewport s <? countElements.

(** [Slider] renders a button only when [hasPrev], respectively [hasNext],
    holds: a click is on a button that is there, and runs the handler of the
    latest render. *)
Inductive Button := Prev | Next.

Definition click (countElements : Z) (s : State) (b : Button) : option State :=
  match b with
  | Prev => if hasPrev s then Some (handlePrev s) else None
  | Next => if hasNext countElements s then Some (handleNext s) else None
  end.

Fixpoint clicks (countElements : Z) (bs : list Button) (s : State) : option State :=
  match bs with
  | [] => Some s
  | b :: bs => s ← click countElements s b; clicks countElements bs s
  end.

(** The state once the effect has run for the widths measured. *)
Definition measured (clientWidth elementWidth : Z) : State :=
  effect clientWidth elementWidth init.

End Slider.

(** * Part II: properties *)

(** ** Objects and the heap *)

Module JsFacts.
Import Js.

Lemma obj_at_alloc o h : obj_at (alloc o h).2 (alloc o h).1 = o.
Proof. unfold alloc, obj_at; simpl. by rewrite lookup_insert_eq. Qed.

Lemma alloc_fresh o h : h !! (alloc o h).1 = None.
Proof. unfold alloc; simpl. apply not_elem_of_dom, is_fresh. Qed.

Lemma obj_at_set_eq l k v h : obj_at (set_prop l k v h) l = <[k := v]> (obj_at h l).
Proof. unfold set_prop, obj_at. by rewrite lookup_insert_eq. Qed.

Lemma obj_at_set_ne l l' k v h : l ≠ l' → obj_at (set_prop l k v h) l' = obj_at h l'.
Proof. intros ?. unfold set_prop, obj_at. by rewrite lookup_insert_ne. Qed.

Lemma elem_of_keys {A} (o : gmap string A) k : k ∈ keys o ↔ is_Some (o !! k).
Proof.
  unfold keys. rewrite list_elem_of_fmap. split.
  - intros [[k' x] [-> Hx]]. apply elem_of_map_to_list in Hx. eauto.
  - intros [x Hx]. exists (k, x). split; [done | by apply elem_of_map_to_list].
Qed.

Lemma NoDup_keys {A} (o : gmap string A) : NoDup (keys o).
Proof. apply NoDup_fst_map_to_list. Qed.

End JsFacts.

(** ** combineReducers and createStore *)

Module ReduxFacts.
Import Js Redux JsFacts.

Lemma pick_functions_fold (reducers : gmap string Entry) (ks : list string)
    (acc : gmap string Reducer) (k : string) :
  foldl (λ fs key, match reducers !! key with
                   | Some (EFun r) =>
                       if decide (key = "__proto__") then fs else <[key := r]> fs
                   | _ => fs
                   end) acc ks !! k
  = match reducers !! k with
    | Some (EFun r) =>
        if decide (k ∈ ks ∧ k ≠ "__proto__") then Some r else acc !! k
    | _ => acc !! k
    end.
Proof.
  set (proto := "__proto__").
  revert acc. induction ks as [|k0 ks IH]; intros acc; simpl.
  - by destruct (reducers !! k) as [[r|v]|].
  - rewrite IH. destruct (reducers !! k) as [[r|v]|] eqn:Hk.
    + destruct (decide (k ∈ ks ∧ k ≠ proto)) as [[Hin Hp]|Hn].
      * rewrite decide_True; [done|]. split; [by right | done].
      * destruct (decide (k = k0)) as [->|Hne].
        -- rewrite Hk. destruct (decide (k0 = proto)) as [Hp|Hp].
           ++ rewrite decide_False; [done|]. by intros [_ ?].
           ++ rewrite lookup_insert_eq. rewrite decide_True; [done|]. split; [left|done].
        -- rewrite decide_False.
           2:{ intros [[?|?]%elem_of_cons ?]; [done|]. by apply Hn. }
           destruct (reducers !! k0) as [[r0|v0]|]; [|done..].
           destruct (decide (k0 = proto)); [done|]. by rewrite lookup_insert_ne.
    + destruct (reducers !! k0) as [[r0|v0]|] eqn:Hk0; [|done..].
      destruct (decide (k0 = proto)); [done|].
      rewrite lookup_insert_ne; [done|]. intros ->. congruence.
    + destruct (reducers !! k0) as [[r0|v0]|] eqn:Hk0; [|done..].
      destruct (decide (k0 = proto)); [done|].
      rewrite lookup_insert_ne; [done|]. intros ->. congruence.
Qed.

(** [reducerFunctions] holds the entries that are functions, but for the one
    under ["__proto__"]. *)
Lemma pick_functions_lookup (reducers : gmap string Entry) (k : string) :
  pick_functions reducers (keys reducers) !! k
  = match reducers !! k with
    | Some (EFun r) => if decide (k = "__proto__") then None else Some r
    | _ => None
    end.
Proof.
  unfold pick_functions. rewrite pick_functions_fold.
  destruct (reducers !! k) as [[r|v]|] eqn:Hk; try apply lookup_empty.
  destruct (decide (k = "__proto__")) as [Hp|Hp].
  - rewrite decide_False; [apply lookup_empty|]. by intros [_ ?].
  - rewrite decide_True; [done|]. split; [|done]. apply elem_of_keys. eauto.
Qed.

Lemma combineReducers_functions reducers h c h1 k :
  combineReducers reducers h = (c, h1) →
  reducerFunctions c !! k
  = match reducers !! k with
    | Some (EFun r) => if decide (k = "__proto__") then None else Some r
    | _ => None
    end.
Proof.
  unfold combineReducers. intros [= <- <-]. simpl. apply pick_functions_lookup.
Qed.

Lemma combineReducers_keys reducers h c h1 :
  combineReducers reducers h = (c, h1) →
  reducerFunctionsKeys c = keys (reducerFunctions c).
Proof. unfold combineReducers. by intros [= <- <-]. Qed.

(** [combineReducers] hands out an empty [nextState]. *)
Lemma combineReducers_owned reducers h c h1 :
  combineReducers reducers h = (c, h1) → owned c h1.
Proof.
  unfold combineReducers. intros [= <- <-]. exists ∅. simpl. split.
  - apply lookup_insert_eq.
  - intros k [v Hv]. by rewrite lookup_empty in Hv.
Qed.

Lemma agree_off_refl ns h : agree_off ns h h.
Proof. by intros l' _ _. Qed.

Lemma agree_off_trans ns h1 h2 h3 :
  agree_off ns h1 h2 → agree_off ns h2 h3 → agree_off ns h1 h3.
Proof.
  intros H12 H23 l' Hl' Hne. rewrite H23; [by apply H12 | | done].
  by rewrite H12.
Qed.

Lemma agree_off_set ns k v h : agree_off ns h (set_prop ns k v h).
Proof. intros l' _ Hne. unfold set_prop. by rewrite lookup_insert_ne. Qed.

Lemma extends_agree_off ns h h' : extends h h' → agree_off ns h h'.
Proof. intros Hext l' Hl' _. by apply Hext. Qed.

(** The default [{}] is a new object: the heap agrees with the old one. *)
Lemma agree_off_alloc ns o h : agree_off ns h (alloc o h).2.
Proof.
  intros l' [o' Hl'] _. unfold alloc; simpl.
  rewrite lookup_insert_ne; [done|]. intros Heq.
  pose proof (alloc_fresh o h) as Hf. simpl in Hf. congruence.
Qed.

Lemma creates_only_mono r a ns h h1 :
  agree_off ns h h1 → creates_only r a ns h → creates_only r a ns h1.
Proof. intros Hh Hr s h' Hh'. apply Hr. by eapply agree_off_trans. Qed.

(** A reducer that only reads creates nothing and changes nothing. *)
Lemma reads_only_creates_only r a ns h : reads_only r a ns h → creates_only r a ns h.
Proof.
  intros Hr s h' Hh'. destruct (Hr s h' Hh') as [v Hv]. exists v, h'.
  split; [done|]. by intros l' _.
Qed.

(** The second [forEach], for reducers that change no object that exists:
    every key visited gets the value that its reducer returns for the slice
    of the state; when a key is read, [nextState] still holds for it what it
    held before the loop, also when [state] is the very object [nextState];
    the loop changes nothing but the object [nextState]. *)
Lemma combine_loop_creates c l action ks h :
  NoDup ks →
  is_Some (h !! nextState c) →
  (∀ k, k ∈ ks → ∃ r, reducerFunctions c !! k = Some r ∧
                      creates_only r action (nextState c) h) →
  ∃ h', combine_loop c (VObj l) action ks h = Ok h' ∧
        agree_off (nextState c) h h' ∧
        is_Some (h' !! nextState c) ∧
        (∀ k, if decide (k ∈ ks)
              then ∃ r hk hk' v, reducerFunctions c !! k = Some r ∧
                     agree_off (nextState c) h hk ∧
                     obj_at hk (nextState c) !! k = obj_at h (nextState c) !! k ∧
                     r (state_slice hk (VObj l) k) action hk = Ok (v, hk') ∧
                     obj_at h' (nextState c) !! k = Some v
              else obj_at h' (nextState c) !! k = obj_at h (nextState c) !! k).
Proof.
  intros Hnd; revert h. induction Hnd as [|k0 ks Hk0 Hnd IH]; intros h Hns Hfs.
  - exists h. simpl. split; [done|]. split; [apply agree_off_refl|]. by split.
  - destruct (Hfs k0) as (r0 & Hr0 & Hret0); [by left|].
    destruct (Hret0 (state_slice h (VObj l) k0) h) as (v & h1 & Hv & Hext);
      [apply agree_off_refl|].
    cbn [combine_loop]. rewrite Hr0. cbn.
    change (default VUndef (obj_at h l !! k0)) with (state_slice h (VObj l) k0).
    rewrite Hv. cbn.
    assert (Hobj1 : obj_at h1 (nextState c) = obj_at h (nextState c)).
    { unfold obj_at. by rewrite Hext. }
    assert (Hagree : agree_off (nextState c) h (set_prop (nextState c) k0 v h1)).
    { eapply agree_off_trans; [by apply extends_agree_off | apply agree_off_set]. }
    destruct (IH (set_prop (nextState c) k0 v h1)) as (h' & Hrun & Hframe & Hsome & Hval).
    { unfold set_prop. rewrite lookup_insert_eq. eauto. }
    { intros k Hk. destruct (Hfs k) as (r & Hr & Hret); [by right|].
      exists r. split; [done|]. by eapply creates_only_mono. }
    exists h'. split; [exact Hrun|]. split; [by eapply agree_off_trans|].
    split; [done|].
    intros k. specialize (Hval k). destruct (decide (k ∈ ks)) as [Hin|Hin].
    + rewrite decide_True by (by right).
      destruct Hval as (r & hk & hk' & w & Hr & Hhk & Hsame & Hcall & Hk).
      exists r, hk, hk', w. split; [done|]. split; [by eapply agree_off_trans|].
      split; [|done]. rewrite Hsame, obj_at_set_eq, lookup_insert_ne, Hobj1; [done|].
      intros ->. done.
    + rewrite obj_at_set_eq in Hval. destruct (decide (k = k0)) as [->|Hne].
      * rewrite decide_True by left. rewrite lookup_insert_eq in Hval.
        exists r0, h, h1, v. repeat split; try done; apply agree_off_refl.
      * rewrite decide_False by (by intros [?|?]%elem_of_cons).
        rewrite lookup_insert_ne in Hval by done. by rewrite Hval, Hobj1.
Qed.

(** The returned function on an object [state]. *)
Lemma combined_on_object reducers h0 c h1 l action h :
  combineReducers reducers h0 = (c, h1) →
  owned c h →
  (∀ k r, reducers !! k = Some (EFun r) → creates_only r action (nextState c) h) →
  ∃ h', combined c (VObj l) action h = Ok (VObj (nextState c), h') ∧
        owned c h' ∧
        agree_off (nextState c) h h' ∧
        ∀ k, match reducers !! k with
             | Some (EFun r) =>
                 if decide (k = "__proto__") then obj_at h' (nextState c) !! k = None
                 else ∃ hk hk' v,
                        agree_off (nextState c) h hk ∧
                        obj_at hk (nextState c) !! k = obj_at h (nextState c) !! k ∧
                        r (state_slice hk (VObj l) k) action hk = Ok (v, hk') ∧
                        obj_at h' (nextState c) !! k = Some v
             | _ => obj_at h' (nextState c) !! k = None
             end.
Proof.
  set (proto := "__proto__").
  intros Hc (o & Ho & Hkeys) Hreads.
  pose proof (λ k, combineReducers_functions _ _ _ _ k Hc) as Hfun.
  fold proto in Hfun.
  destruct (combine_loop_creates c l action (reducerFunctionsKeys c) h)
    as (h' & Hrun & Hframe & Hsome & Hval).
  { rewrite (combineReducers_keys _ _ _ _ Hc). apply NoDup_keys. }
  { eauto. }
  { intros k. rewrite (combineReducers_keys _ _ _ _ Hc), elem_of_keys, Hfun.
    destruct (reducers !! k) as [[r|v]|] eqn:Hk; intros [r' Hr']; try done.
    destruct (decide (k = proto)); [done|].
    exists r. split; [done|]. by apply (Hreads k). }
  assert (Hlookup : ∀ k,
            match reducers !! k with
            | Some (EFun r) =>
                if decide (k = proto) then obj_at h' (nextState c) !! k = None
                else ∃ hk hk' v,
                       agree_off (nextState c) h hk ∧
                       obj_at hk (nextState c) !! k = obj_at h (nextState c) !! k ∧
                       r (state_slice hk (VObj l) k) action hk = Ok (v, hk') ∧
                       obj_at h' (nextState c) !! k = Some v
            | _ => obj_at h' (nextState c) !! k = None
            end).
  { intros k. specialize (Hval k). rewrite (combineReducers_keys _ _ _ _ Hc) in Hval.
    assert (Hnone : ¬ is_Some (reducerFunctions c !! k) → obj_at h (nextState c) !! k = None).
    { intros Hno. unfold obj_at. rewrite Ho. simpl.
      destruct (o !! k) eqn:Hok; [|done]. destruct Hno. apply Hkeys. eauto. }
    destruct (decide (k ∈ keys (reducerFunctions c))) as [Hin|Hin];
      rewrite elem_of_keys in Hin; rewrite Hfun in Hin, Hnone.
    - destruct Hval as (r & hk & hk' & v & Hr & Hhk & Hsame & Hcall & Hk).
      rewrite Hfun in Hr.
      destruct (reducers !! k) as [[r'|v']|]; try done.
      destruct (decide (k = proto)); [done|].
      injection Hr as ->. by exists hk, hk', v.
    - rewrite Hval.
      destruct (reducers !! k) as [[r'|v']|]; try (by apply Hnone).
      destruct (decide (k = proto)); [by apply Hnone|].
      destruct Hin. eauto. }
  exists h'. unfold combined. rewrite Hrun. cbn. repeat split; try done.
  destruct Hsome as [o' Ho']. exists o'. split; [done|].
  intros k [x Hx]. specialize (Hlookup k). unfold obj_at in Hlookup.
  rewrite Ho' in Hlookup. simpl in Hlookup. rewrite Hfun.
  destruct (reducers !! k) as [[r|v]|]; [|congruence..].
  destruct (decide (k = proto)); [congruence | by eauto].
Qed.

Lemma owned_alloc c o h : owned c h → owned c (alloc o h).2.
Proof.
  intros (o' & Ho' & Hkeys). exists o'. split; [|done]. unfold alloc; simpl.
  rewrite lookup_insert_ne; [done|]. intros Heq.
  pose proof (alloc_fresh o h) as Hf. simpl in Hf. congruence.
Qed.

(** The returned function on [undefined] or an object: the default [{}] is
    an object like another. *)
Lemma combined_on_state reducers h0 c h1 state action h :
  combineReducers reducers h0 = (c, h1) →
  owned c h →
  (∀ k r, reducers !! k = Some (EFun r) → creates_only r action (nextState c) h) →
  state = VUndef ∨ (∃ l, state = VObj l) →
  ∃ h', combined c state action h = Ok (VObj (nextState c), h') ∧
        owned c h' ∧ agree_off (nextState c) h h'.
Proof.
  intros Hc Hown Hreads [->|[l ->]].
  - destruct (combined_on_object reducers h0 c h1 (alloc ∅ h).1 action (alloc ∅ h).2)
      as (h' & Hrun & Hown' & Hoff & _); [done | by apply owned_alloc | |].
    { intros k r Hk. eapply creates_only_mono; [apply agree_off_alloc | by eapply Hreads]. }
    exists h'. split; [exact Hrun|]. split; [done|].
    eapply agree_off_trans; [apply agree_off_alloc | exact Hoff].
  - destruct (combined_on_object reducers h0 c h1 l action h)
      as (h' & Hrun & Hown' & Hoff & _); [done..|]. by exists h'.
Qed.


(** A pure reducer only reads, and so does [counter] when the action is an
    object. *)
Lemma pure_reducer_reads_only f a l h : reads_only (pure_reducer f) a l h.
Proof. intros s h' _. by eexists. Qed.

Lemma counter_reads_only la l h : reads_only counter (VObj la) l h.
Proof. intros s h' _. by eexists. Qed.

(** Whatever the reducers are, a call that returns gives back the one object
    [nextState]. *)
Lemma combined_returns_nextState c state action h r h' :
  combined c state action h = Ok (r, h') → r = VObj (nextState c).
Proof.
  unfold combined. destruct state; simpl;
    destruct (combine_loop c _ action (reducerFunctionsKeys c) _); simpl; congruence.
Qed.

(** The example of C2, run: [combineReducers({ counter, version: 3 })], then a
    call with [undefined] and [{ type: "INCREMENT" }]. *)
Lemma counter_reducers_read_only la l h k r :
  counter_reducers !! k = Some (EFun r) → reads_only r (VObj la) l h.
Proof.
  unfold counter_reducers. rewrite lookup_insert_Some. intros [[_ Heq]|[_ Hk]].
  - injection Heq as <-. apply counter_reads_only.
  - rewrite lookup_insert_Some, lookup_empty in Hk. by destruct Hk as [[_ ?]|[_ ?]].
Qed.



(** C3. The reducer that [combineReducers] returns should share no mutable
    state between calls.  It does: for [{ counter }], the first call (with
    [undefined] and [{}]) and the second (with the first result and
    [{ type: "INCREMENT" }]) return the same object, and the second call
    changes the [counter] of the first call's result from [0] to [1]. *)
Theorem combined_shares_nextState :
  ∃ l, two_calls {["counter" := EFun counter]} {["type" := VStr "INCREMENT"]}
       = Ok (VObj l, VObj l, {["counter" := VNum 0]}, {["counter" := VNum 1]}).
Proof. eexists. vm_compute. reflexivity. Qed.

(** The same through a store: the object that [getState()] returned before a
    dispatch is changed by the dispatch. *)
Lemma kept_state_is_mutated :
  ∃ l, kept_state_after_dispatch
       = Ok (VObj l, {["counter" := VNum 0]}, {["counter" := VNum 1]}).
Proof. eexists. vm_compute. reflexivity. Qed.

(** *** The store *)

Section store_facts.
Variable rootReducer : Reducer.





End store_facts.

Lemma foldl_subscribe ls w :
  foldl (λ w l, subscribe l w) w ls
  = {| state := state w; listeners := listeners w ++ ls; heap := heap w;
       calls := calls w; output := output w |}.
Proof.
  revert w. induction ls as [|l ls IH]; intros w; simpl.
  - rewrite app_nil_r. by destruct w.
  - rewrite IH. simpl. by rewrite <-app_assoc.
Qed.

(** The sample stores are reachable: [createStore], then [subscribe]. *)
Lemma store_with_reachable ls : tally_store ls = Ok (store_with ls).
Proof. unfold tally_store. cbn. by rewrite foldl_subscribe. Qed.



(** Nor does a listener that throws let [dispatch] through: [forEach] has
    no [try], so the exception ends the dispatch after the state was set; the
    listeners behind the one that throws are not called. *)
Lemma dispatch_throwing_listener_example fuel :
  dispatch (pure_reducer tally) (S fuel) (VStr "INCREMENT")
    (store_with [throwing_listener; setState_listener]) = TypeError.
Proof. reflexivity. Qed.


End ReduxFacts.

(** ** The reactivity walkthrough *)

Module ReactivityFacts.
Import Js Reactivity.

Lemma track_fields target key st :
  heap (track target key st).2 = heap st ∧
  currentEffect (track target key st).2 = currentEffect st ∧
  stack (track target key st).2 = stack st ∧
  in_progress (track target key st).2 = in_progress st.
Proof.
  unfold track. destruct (currentEffect st) eqn:E; [|done].
  by destruct (slot _ key).
Qed.

(** [track] records the exception it throws, and nothing else. *)
Lemma track_trace target key st :
  trace (track target key st).2
  = trace st ++ match (track target key st).1 with Threw => [EThrow] | _ => [] end.
Proof.
  unfold track. destruct (currentEffect st); [|by rewrite app_nil_r].
  destruct (slot _ key); simpl; by rewrite ?app_nil_r.
Qed.

Lemma track_not_cut target key st : (track target key st).1 ≠ Cut.
Proof.
  unfold track. destruct (currentEffect st); [|done]. by destruct (slot _ key).
Qed.

(** [track] with [currentEffect] null changes nothing. *)
Lemma track_null target key st :
  currentEffect st = None → track target key st = (Done, st).
Proof. unfold track. by intros ->. Qed.

Lemma slot_not_inherited objMap key : inherited key = false → slot objMap key ≠ Builtin.
Proof. unfold slot. intros ->. by destruct (objMap !! key). Qed.

(** [track] returns for a name that is not inherited. *)
Lemma track_returns target key st :
  inherited key = false → (track target key st).1 = Done.
Proof.
  intros Hkey. unfold track. destruct (currentEffect st); [|done].
  pose proof (slot_not_inherited (default ∅ (deps st !! target)) key Hkey).
  by destruct (slot _ key).
Qed.

(** [track] with [currentEffect] set appends it to the array of [target] and
    [key], unless it throws, and touches no other array. *)
Lemma track_dep_at target key st t k :
  dep_at (track target key st).2 t k
  = dep_at st t k ++
    match currentEffect st with
    | Some fn =>
        if decide (target = t ∧ key = k)
        then match (track target key st).1 with Threw => [] | _ => [fn] end
        else []
    | None => []
    end.
Proof.
  unfold track. destruct (currentEffect st) as [fn|]; [|by rewrite app_nil_r].
  unfold dep_at, slot.
  destruct (deps st !! target) as [objMap|] eqn:Htarget; simpl.
  - destruct (objMap !! key) as [dep|] eqn:Hkey; [|destruct (inherited key)]; simpl.
    all: destruct (decide (target = t)) as [<-|Ht];
      [rewrite lookup_insert_eq, Htarget
      |by rewrite lookup_insert_ne, decide_False, app_nil_r by (by try intros [? _])].
    all: try (destruct (decide (key = k)) as [<-|Hk];
      [rewrite lookup_insert_eq, decide_True, Hkey by done; done
      |by rewrite lookup_insert_ne, decide_False, app_nil_r by (by try intros [_ ?])]).
    by destruct (decide _); rewrite app_nil_r.
  - rewrite lookup_empty. destruct (inherited key); simpl.
    all: destruct (decide (target = t)) as [<-|Ht];
      [rewrite lookup_insert_eq, Htarget
      |by rewrite lookup_insert_ne, decide_False, app_nil_r by (by try intros [? _])].
    + by destruct (decide _); rewrite lookup_empty.
    + destruct (decide (key = k)) as [<-|Hk].
      * by rewrite lookup_insert_eq, decide_True.
      * by rewrite lookup_insert_ne, decide_False, lookup_empty by (by try intros [_ ?]).
Qed.


(** *** Properties kept by every step are kept by every run *)

Section step_invariant.
Context {R : Runtime}.
Variable body : fid → Prog.
Variable P : State → Prop.
Hypothesis P_read : ∀ t k st, P st →
  P (track t k (log (ERead t k (head (stack st)) (in_progress st) (currentEffect st)) st)).2.
Hypothesis P_write : ∀ h st, P st → P (set_heap h st).
Hypothesis P_throw : ∀ st, P st → P (log EThrow st).
Hypothesis P_begin : ∀ fn st, P st →
  P (set_currentEffect (Some fn) (set_in_progress (S (in_progress st)) st)).
Hypothesis P_end : ∀ st, P st →
  P (set_in_progress (pred (in_progress st)) (set_currentEffect None st)).
Hypothesis P_unwind : ∀ st, P st → EThrow ∈ trace st →
  P (set_in_progress (pred (in_progress st)) st).
Hypothesis P_enter : ∀ fn c st, P st →
  P (set_stack ((fn, c) :: stack st) (log (ECall fn c) st)).
Hypothesis P_leave : ∀ s st, P st → P (set_stack s st).

Lemma and_then_kept r k : kept P r → (∀ st, P st → kept P (k st)) → kept P (and_then r k).
Proof. destruct r as [[] st]; simpl; intros [HP Ht] Hk; [by apply Hk | by split..]. Qed.

Lemma forEach_dep_kept callf target key n i st :
  (∀ fn c st, P st → kept P (callf fn c st)) →
  P st → kept P (forEach_dep callf target key i n st).
Proof using Type.
  intros Hcall. revert i st. induction n as [|n IH]; intros i st Hst; simpl; [by split|].
  destruct (dep_at st target key !! i) as [fn|]; [|by apply IH].
  apply and_then_kept; [by apply Hcall | intros; by apply IH].
Qed.

Lemma callEffects_kept callf target key st :
  (∀ fn c st, P st → kept P (callf fn c st)) →
  P st → kept P (callEffects callf target key st).
Proof using P_throw.
  intros Hcall Hst. unfold callEffects.
  destruct (deps st !! target) as [objMap|]; [|by split].
  destruct (slot objMap key); [by apply forEach_dep_kept | by split |].
  split; [by apply P_throw|]. intros _. simpl. apply elem_of_app. right. by left.
Qed.

Lemma exec_kept callf p st :
  (∀ fn c st, P st → kept P (callf fn c st)) →
  P st → kept P (exec callf p st).
Proof using P_read P_write P_throw P_begin P_end P_unwind.
  intros Hcall. revert st.
  induction p as [|t k c IH|t k v c IH|fn c IH| |p IHp handler IHh c IHc];
    intros st Hst; simpl.
  - by split.
  - apply and_then_kept; [|intros; by apply IH].
    split; [by apply P_read|]. intros Hthrew. rewrite track_trace, Hthrew.
    apply elem_of_app. right. by left.
  - apply and_then_kept; [|exact IH]. apply callEffects_kept; [done|]. by apply P_write.
  - destruct (Hcall fn ByEffect _ (P_begin fn st Hst)) as [HP Ht].
    destruct (callf fn ByEffect _) as [[] st1]; simpl in *.
    + by apply IH, P_end.
    + split; [apply P_unwind; auto | auto].
    + by split.
  - split; [by apply P_throw|]. intros _. simpl. apply elem_of_app. right. by left.
  - destruct (IHp st Hst) as [HP Ht].
    destruct (exec callf p st) as [[] st1]; simpl in *.
    + by apply IHc.
    + apply and_then_kept; [by apply IHh | exact IHc].
    + by split.
Qed.

Lemma call_kept fuel fn c st : P st → kept P (call body fuel fn c st).
Proof using All.
  revert fn c st. induction fuel as [|fuel IH]; intros fn c st Hst; simpl; [by split|].
  destruct (exec_kept (call body fuel) (body fn)
              (set_stack ((fn, c) :: stack st) (log (ECall fn c) st)) IH)
    as [HP Ht]; [by apply P_enter|].
  destruct (exec _ (body fn) _) as [[] st1]; simpl in *.
  - split; [by apply P_leave | done].
  - split; [by apply P_leave | auto].
  - by split.
Qed.

Lemma run_preserves fuel p st : P st → P (run body fuel p st).2.
Proof using All.
  intros Hst. unfold run. apply exec_kept; [|done].
  intros fn c st'. apply call_kept.
Qed.

End step_invariant.

Lemma tracked_app target key tr tr' :
  tracked target key (tr ++ tr') = tracked target key tr ++ tracked target key tr'.
Proof. unfold tracked. destruct (inherited key); [done|]. by rewrite omap_app. Qed.

Lemma readers_in_effect_app target key tr e :
  readers_in_effect target key (tr ++ [e])
  = readers_in_effect target key tr ++ readers_in_effect target key [e].
Proof. unfold readers_in_effect. by rewrite omap_app. Qed.

Section every_run.
Context {R : Runtime}.


Lemma slot_inherited st target objMap key :
  no_inherited_key st → deps st !! target = Some objMap →
  slot objMap key = Builtin ↔ inherited key = true.
Proof.
  intros Hno Htarget. unfold slot. split.
  - destruct (objMap !! key); [done|]. by destruct (inherited key).
  - intros Hkey. by rewrite (Hno target objMap key Htarget Hkey), Hkey.
Qed.

(** [track] throws on the inherited names, and on them only. *)
Lemma track_threw st target key fn :
  no_inherited_key st → currentEffect st = Some fn →
  (track target key st).1 = Threw ↔ inherited key = true.
Proof.
  intros Hno Hcur. unfold track. rewrite Hcur.
  destruct (deps st !! target) as [objMap|] eqn:Htarget; simpl.
  - rewrite <-(slot_inherited st target objMap key Hno Htarget).
    by destruct (slot objMap key).
  - unfold slot. rewrite lookup_empty. by destruct (inherited key).
Qed.

Lemma track_no_inherited_key st target key :
  no_inherited_key st → no_inherited_key (track target key st).2.
Proof.
  intros Hno. unfold track. destruct (currentEffect st) as [fn|]; [|done].
  assert (Hmap : ∀ key', inherited key' = true →
                         default ∅ (deps st !! target) !! key' = None).
  { intros key' Hkey'. destruct (deps st !! target) as [objMap|] eqn:Htarget; simpl.
    - by eapply Hno. - apply lookup_empty. }
  unfold slot.
  destruct (default ∅ (deps st !! target) !! key) as [dep|] eqn:Hkey;
    [|destruct (inherited key) eqn:Hinh]; simpl.
  all: intros t objMap k; simpl.
  all: destruct (decide (target = t)) as [<-|Ht];
    [rewrite lookup_insert_eq; intros [= <-] Hk
    |rewrite lookup_insert_ne by done; apply Hno].
  - rewrite lookup_insert_ne; [by apply Hmap|]. intros <-.
    rewrite Hmap in Hkey; done.
  - by apply Hmap.
  - rewrite lookup_insert_ne; [by apply Hmap|]. intros <-. congruence.
Qed.

(** In every run, cut off or not, the arrays in [deps] hold the functions
    found in [currentEffect] by the reads of that property. *)
Lemma deps_tracked_run body fuel p st :
  deps_tracked st → deps_tracked (run body fuel p st).2.
Proof.
  apply run_preserves; clear st; unfold deps_tracked.
  - intros t k st [Hno Hst].
    set (st1 := log (ERead t k (head (stack st)) (in_progress st) (currentEffect st)) st).
    assert (Hno1 : no_inherited_key st1) by done.
    split; [by apply track_no_inherited_key|].
    intros target key. rewrite track_dep_at, (track_trace t k st1). simpl.
    rewrite !tracked_app, <-app_assoc. f_equal; [apply Hst|].
    replace (tracked target key
               match (track t k st1).1 with Threw => [EThrow] | _ => [] end)
      with (@nil fid).
    2:{ unfold tracked. destruct (inherited key); [done|]. by destruct (track t k st1).1. }
    rewrite app_nil_r. unfold tracked.
    destruct (currentEffect st) as [fn|] eqn:Hcur; [|by destruct (inherited key)].
    simpl. destruct (decide (t = target ∧ k = key)) as [[-> ->]|Hne];
      [|by destruct (inherited key)].
    pose proof (track_threw st1 target key fn Hno1 Hcur) as Hthrew.
    destruct (inherited key).
    + by rewrite (proj2 Hthrew).
    + destruct (track target key st1).1 eqn:Hstatus; [done| |done].
      by pose proof (proj1 Hthrew eq_refl).
  - done.
  - intros st [Hno Hst]. split; [done|]. intros target key.
    transitivity (dep_at st target key); [done|]. rewrite Hst. simpl.
    rewrite tracked_app.
    replace (tracked target key [EThrow]) with (@nil fid)
      by (unfold tracked; by destruct (inherited key)).
    by rewrite app_nil_r.
  - done.
  - done.
  - done.
  - intros fn c st [Hno Hst]. split; [done|]. intros target key.
    transitivity (dep_at st target key); [done|]. rewrite Hst. simpl.
    rewrite tracked_app.
    replace (tracked target key [ECall fn c]) with (@nil fid)
      by (unfold tracked; by destruct (inherited key)).
    by rewrite app_nil_r.
  - done.
Qed.






End every_run.



(** The same with a function that does no more than read
    [person.constructor]: [track] throws, as [objMap["constructor"]] is a
    function and has no [push].  So it is in every runtime. *)
Lemma inherited_read_throws {R : Runtime} h :
  let r := run throwing_effects 1 (read_after_effect_threw 1) (init h) in
  r.1 = Done ∧ in_progress r.2 = 0 ∧ currentEffect r.2 = Some 1 ∧
  trace r.2 = [ECall 1 ByEffect; ERead person "constructor" (Some (1, ByEffect)) 1 (Some 1);
               EThrow; ERead person "firstName" None 0 (Some 1)] ∧
  dep_at r.2 person "constructor" = [] ∧
  dep_at r.2 person "firstName" = [1].
Proof. by vm_compute. Qed.

(** And an assignment to [person.toString], once an effect has read a
    property of [person], throws in [callEffects]:
    [objMap["toString"]] has no [forEach]. *)
Lemma inherited_assignment_throws {R : Runtime} h value :
  (run throwing_effects 1 (Effect 2 (Set_ person "toString" value Ret)) (init h)).1
  = Threw.
Proof. by vm_compute. Qed.

(** *** Effects that only read *)

Lemma called_app tr tr' : called (tr ++ tr') = called tr ++ called tr'.
Proof. unfold called. by rewrite omap_app. Qed.

Lemma called_since_app tr evs : called_since tr (tr ++ evs) = called evs.
Proof. unfold called_since. by rewrite drop_app_length. Qed.

(** One read keeps [readers_recorded]: when [effect] called the running
    function, [track] appends it and the reader is recorded; otherwise neither
    happens. *)
Lemma read_keeps_readers_recorded t k st :
  inherited k = false ∨ currentEffect st = None →
  coherent st → readers_recorded st →
  readers_recorded
    (track t k (log (ERead t k (head (stack st)) (in_progress st) (currentEffect st)) st)).2.
Proof.
  unfold coherent, readers_recorded. intros Hk Hco Hst target key.
  set (st1 := log _ st).
  assert (Hdone : (track t k st1).1 = Done).
  { destruct Hk as [Hk|Hk]; [by apply track_returns | by rewrite track_null]. }
  rewrite track_dep_at, (track_trace t k st1), Hdone, app_nil_r. simpl.
  rewrite readers_in_effect_app. f_equal; [apply Hst|]. simpl.
  destruct (head (stack st)) as [[fn [|t' k']]|]; rewrite Hco; try done.
  by destruct (decide _).
Qed.

Section read_only_bodies.
Context {R : Runtime}.
Variable body : fid → Prog.
Hypothesis body_read_only : ∀ fn, read_only (body fn).

(** A body that only reads returns and changes nothing but [deps] and the
    trace, to which it adds reads only. *)
Lemma exec_read_only callf q st :
  read_only q → coherent st → readers_recorded st →
  ∃ st' evs, exec callf q st = (Done, st') ∧
    readers_recorded st' ∧
    currentEffect st' = currentEffect st ∧ stack st' = stack st ∧
    trace st' = trace st ++ evs ∧ called evs = [] ∧
    (currentEffect st = None → deps st' = deps st).
Proof using Type.
  revert st.
  induction q as [|t k c IH|t k v c IH|fn c IH| |p IHp handler IHh c IHc];
    intros st Hq Hco Hst; simpl in *; [| |done..].
  - exists st, []. by rewrite app_nil_r.
  - destruct Hq as [Hk Hq].
    set (st0 := log (ERead t k (head (stack st)) (in_progress st) (currentEffect st)) st).
    pose proof (track_returns t k st0 Hk) as Hdone.
    pose proof (track_trace t k st0) as Htrace. rewrite Hdone, app_nil_r in Htrace.
    destruct (track_fields t k st0) as (_ & Hcur & Hstack & _).
    pose proof (read_keeps_readers_recorded t k st (or_introl Hk) Hco Hst) as Hrec1.
    fold st0 in Hrec1.
    pose proof (track_null t k st0) as Hnull.
    destruct (track t k st0) as [status st1]. simpl in *. subst status.
    destruct (IH (Reflect_get (heap st) t k) st1)
      as (st' & evs & Hrun & Hrec & Hcur' & Hstack' & Htrace' & Hcalled & Hdeps).
    { apply Hq. }
    { unfold coherent. by rewrite Hcur, Hstack. }
    { done. }
    exists st', (ERead t k (head (stack st)) (in_progress st) (currentEffect st) :: evs).
    split; [exact Hrun|]. split; [done|]. split; [congruence|]. split; [congruence|].
    split; [by rewrite Htrace', Htrace, <-app_assoc|]. split; [done|].
    intros Hnone. rewrite Hdeps by congruence.
    specialize (Hnull Hnone). by injection Hnull as ->.
Qed.

(** Calling a function whose body only reads. *)
Lemma call_read_only fuel fn c st :
  match c with ByEffect => currentEffect st = Some fn | _ => currentEffect st = None end →
  readers_recorded st →
  ∃ st' evs, call body (S fuel) fn c st = (Done, st') ∧
    readers_recorded st' ∧
    currentEffect st' = currentEffect st ∧ stack st' = stack st ∧
    trace st' = trace st ++ evs ∧ called evs = [fn] ∧
    (currentEffect st = None → deps st' = deps st).
Proof using body_read_only.
  intros Hc Hst. cbn [call].
  destruct (exec_read_only (call body fuel) (body fn)
              (set_stack ((fn, c) :: stack st) (log (ECall fn c) st)))
    as (st' & evs & Hrun & Hrec & Hcur & Hstack & Htrace & Hcalled & Hdeps).
  { apply body_read_only. }
  { unfold coherent. simpl. by destruct c. }
  { intros t k. simpl. rewrite readers_in_effect_app. simpl.
    rewrite app_nil_r. apply Hst. }
  rewrite Hrun. simpl in *.
  exists (set_stack (stack st) st'), (ECall fn c :: evs). simpl.
  split; [done|]. split; [exact Hrec|]. split; [done|]. split; [done|].
  split; [by rewrite Htrace, <-app_assoc|]. split; [by rewrite Hcalled|]. done.
Qed.

(** [callEffects] at top level calls the functions of the array in order. *)
Lemma forEach_dep_read_only fuel t k n i st :
  currentEffect st = None → readers_recorded st →
  i + n ≤ length (dep_at st t k) →
  ∃ st' evs, forEach_dep (call body (S fuel)) t k i n st = (Done, st') ∧
    readers_recorded st' ∧
    currentEffect st' = None ∧ stack st' = stack st ∧
    trace st' = trace st ++ evs ∧ called evs = take n (drop i (dep_at st t k)) ∧
    deps st' = deps st.
Proof using body_read_only.
  revert i st. induction n as [|n IH]; intros i st Hcur Hst Hlen; cbn [forEach_dep].
  - exists st, []. by rewrite app_nil_r.
  - destruct (lookup_lt_is_Some_2 (dep_at st t k) i) as [fn Hfn]; [lia|].
    rewrite Hfn.
    destruct (call_read_only fuel fn (BySet t k) st)
      as (st1 & evs1 & Hrun1 & Hrec1 & Hcur1 & Hstack1 & Htrace1 & Hcalled1 & Hdeps1);
      [done..|].
    rewrite Hrun1. simpl. specialize (Hdeps1 Hcur).
    assert (Hdep : dep_at st1 t k = dep_at st t k) by (unfold dep_at; by rewrite Hdeps1).
    destruct (IH (S i) st1)
      as (st' & evs & Hrun & Hrec & Hcur' & Hstack' & Htrace' & Hcalled & Hdeps');
      [congruence | done | rewrite Hdep; lia |].
    exists st', (evs1 ++ evs). split; [exact Hrun|]. split; [done|].
    split; [done|]. split; [congruence|].
    split; [by rewrite Htrace', Htrace1, <-app_assoc|].
    split; [|congruence].
    rewrite called_app, Hcalled1, Hcalled, Hdep.
    by rewrite (drop_S _ _ _ Hfn).
Qed.

Lemma callEffects_read_only fuel t k st :
  inherited k = false →
  currentEffect st = None → readers_recorded st →
  ∃ st' evs, callEffects (call body (S fuel)) t k st = (Done, st') ∧
    readers_recorded st' ∧
    currentEffect st' = None ∧ stack st' = stack st ∧
    trace st' = trace st ++ evs ∧ called evs = dep_at st t k.
Proof using body_read_only.
  intros Hkey Hcur Hst. unfold callEffects.
  destruct (deps st !! t) as [objMap|] eqn:Ht.
  2:{ exists st, []. unfold dep_at. by rewrite Ht, app_nil_r. }
  unfold slot. rewrite Hkey.
  destruct (objMap !! k) as [dep|] eqn:Hk.
  2:{ exists st, []. unfold dep_at. by rewrite Ht, Hk, app_nil_r. }
  assert (Hdep : dep_at st t k = dep) by (unfold dep_at; by rewrite Ht, Hk).
  destruct (forEach_dep_read_only fuel t k (length dep) 0 st)
    as (st' & evs & Hrun & Hrec & Hcur' & Hstack & Htrace & Hcalled & _);
    [done | done | by rewrite Hdep |].
  exists st', evs. repeat split; try done.
  by rewrite Hcalled, Hdep, drop_0, firstn_all.
Qed.

(** An assignment at top level calls the functions in the property's array. *)
Lemma set_read_only fuel t k v st :
  inherited k = false →
  top_level st →
  ∃ st' evs, run body (S fuel) (Set_ t k v Ret) st = (Done, st') ∧
    top_level st' ∧ trace st' = trace st ++ evs ∧ called evs = dep_at st t k.
Proof using body_read_only.
  intros Hkey (Hcur & Hstack & Hrec). unfold run. cbn [exec].
  destruct (callEffects_read_only fuel t k (set_heap (Reflect_set t k v (heap st)) st))
    as (st' & evs & Hrun & Hrec' & Hcur' & Hstack' & Htrace & Hcalled); [done..|].
  rewrite Hrun. simpl in *. exists st', evs. repeat split; try done. congruence.
Qed.

(** Every tame script returns, in a state where nothing is running. *)
Lemma run_read_only fuel p st :
  tame p → top_level st → ∃ st', run body (S fuel) p st = (Done, st') ∧ top_level st'.
Proof using body_read_only.
  revert st.
  induction p as [|t k c IH|t k v c IH|fn c IH| |p IHp handler IHh c IHc];
    intros st Hp Htop; simpl in Hp.
  - by exists st.
  - destruct Htop as (Hcur & Hstack & Hrec). unfold run. cbn [exec].
    set (st0 := log (ERead t k (head (stack st)) (in_progress st) (currentEffect st)) st).
    pose proof (read_keeps_readers_recorded t k st (or_intror Hcur)) as Hrec1.
    fold st0 in Hrec1. rewrite (track_null t k st0 Hcur) in Hrec1 |- *. simpl.
    apply IH; [done|]. split; [done|]. split; [done|].
    apply Hrec1; [|done]. unfold coherent. by rewrite Hstack.
  - destruct Hp as [Hk Hp].
    destruct (set_read_only fuel t k v st Hk Htop) as (st1 & evs & Hrun & Htop1 & _).
    unfold run in *. cbn [exec] in *.
    destruct (callEffects _ t k _) as [[] st2]; simpl in *; [|done..].
    injection Hrun as ->. by apply IH.
  - destruct Htop as (Hcur & Hstack & Hrec). unfold run. cbn [exec].
    destruct (call_read_only fuel fn ByEffect
                (set_currentEffect (Some fn) (set_in_progress (S (in_progress st)) st)))
      as (st1 & evs & Hrun & Hrec1 & Hcur1 & Hstack1 & _); [done..|].
    rewrite Hrun. simpl in *. apply IH; [done|].
    split; [done|]. split; [simpl; congruence|]. exact Hrec1.
  - done.
  - destruct Hp as [Hp Hc].
    destruct (IHp st Hp Htop) as (st1 & Hrun & Htop1).
    unfold run in *. cbn [exec]. rewrite Hrun. by apply IHc.
Qed.

(** C7, amended. When the effects' bodies only read reactive properties (they
    neither assign them nor call [effect] nor throw), none under a name that
    [Object.prototype] has, then after any script that throws nothing (it
    reads, calls [effect], and assigns properties under other names than
    those), assigning property [key] of the reactive object [target], [key]
    not being such a name either, calls exactly the functions that read [key]
    of [target] while running because [effect] called them, once for each such
    read and in the order of the reads.  A function that read only other keys
    or other objects is not called. *)
Theorem set_triggers_readers fuel p h target key value :
  tame p → inherited key = false →
  ∃ st st',
    run body (S fuel) p (init h) = (Done, st) ∧
    run body (S fuel) (Set_ target key value Ret) st = (Done, st') ∧
    called_since (trace st) (trace st') = readers_in_effect target key (trace st).
Proof using body_read_only.
  intros Hp Hkey.
  destruct (run_read_only fuel p (init h)) as (st & Hrun & Htop); [done..|].
  destruct (set_read_only fuel target key value st Hkey Htop)
    as (st' & evs & Hset & _ & Htrace & Hcalled).
  exists st, st'. split; [done|]. split; [done|].
  rewrite Htrace, called_since_app, Hcalled. apply Htop.
Qed.

End read_only_bodies.

Lemma article_effects_read_only fn : read_only (article_effects fn).
Proof. by destruct fn. Qed.

Lemma set_triggers_readers_witness :
  ∃ st st',
    run (R := own_properties) article_effects 1 (Effect 0 (Effect 1 Ret))
      (init person_heap) = (Done, st) ∧
    run (R := own_properties) article_effects 1
      (Set_ person "firstName" (VStr "David") Ret) st = (Done, st') ∧
    called_since (trace st) (trace st') = readers_in_effect person "firstName" (trace st).
Proof.
  apply (set_triggers_readers (R := own_properties) article_effects
           article_effects_read_only 0
           (Effect 0 (Effect 1 Ret)) person_heap person "firstName" (VStr "David")).
  - simpl. done.
  - reflexivity.
Defined.

(** C7 as stated fails when an effect calls [effect]: function 0 calls
    [effect] on an empty function and then reads [person.firstName].  It read
    the property while running inside [effect()], but [currentEffect] had been
    reset to null by then, so assigning [person.firstName] calls nothing. *)
Lemma nested_effect_counterexample :
  ∃ st st',
    run (R := own_properties) nested_effects 3 (Effect 0 Ret) (init person_heap)
    = (Done, st) ∧
    run (R := own_properties) nested_effects 3
      (Set_ person "firstName" (VStr "David") Ret) st = (Done, st') ∧
    readers_in_effect person "firstName" (trace st) = [0] ∧
    called_since (trace st) (trace st') = [].
Proof. eexists _, _. split; [vm_compute; reflexivity|]. by vm_compute. Qed.

(** An effect that assigns also takes C7 beyond its words: function 0 copies
    [firstName] to [fullName], function 1 reads [fullName] only.  Assigning
    [firstName] runs both, the second through the assignment the first makes. *)
Lemma assigning_effect_example :
  ∃ st st',
    run (R := own_properties) assigning_effects 3 (Effect 0 (Effect 1 Ret))
      (init person_heap) = (Done, st) ∧
    run (R := own_properties) assigning_effects 3
      (Set_ person "firstName" (VStr "David") Ret) st = (Done, st') ∧
    readers_in_effect person "firstName" (trace st) = [0] ∧
    called_since (trace st) (trace st') = [0; 1].
Proof. eexists _, _. split; [vm_compute; reflexivity|]. by vm_compute. Qed.

End ReactivityFacts.

(** ** The view components *)

Module ViewFacts.
Import View.

Lemma assoc_filter_ne {A} (k0 k : string) (l : list (string * A)) :
  assoc k (filter (λ kv, kv.1 ≠ k0) l)
  = if decide (k = k0) then None else assoc k l.
Proof.
  induction l as [|[k' v] l IH]; simpl.
  - by destruct (decide (k = k0)).
  - rewrite filter_cons. simpl. destruct (decide (k' ≠ k0)) as [Hne|Heq]; simpl.
    + destruct (decide (k' = k)) as [->|Hk]; [by rewrite decide_False | done].
    + apply dec_stable in Heq. subst k'. rewrite IH.
      destruct (decide (k = k0)) as [->|Hk]; [done | by rewrite decide_False].
Qed.

(** C8. For every location (a value with properties) and every other props,
    [Heading] returns the main [h1] heading exactly when [location.pathname]
    is the string [`${__PATH_PREFIX__}/`], and the [h3] subheading otherwise;
    either way the element gets the children and every prop but [location],
    unchanged, and nothing is printed. *)
Theorem Heading_chooses_by_pathname env props children pathname :
  get (prop props "location") "pathname" = Some pathname →
  ∃ rest,
    Heading env props children
    = Some (Element (if is_string pathname (PATH_PREFIX env +:+ "/")
                     then Heading_MainHeading else Heading_SubHeading)
                    rest children, []) ∧
    ∀ k, assoc k rest = if decide (k = "location") then None else assoc k props.
Proof.
  intros Hpath. exists (filter (λ kv, kv.1 ≠ "location") props). split.
  - unfold Heading. rewrite Hpath. simpl. by destruct (is_string _ _).
  - intros k. apply assoc_filter_ne.
Qed.

Lemma Heading_chooses_by_pathname_witness :
  ∃ rest,
    Heading (env_at 2020 3)
      [("location", JObj [("pathname", JStr "/")]); ("id", JStr "top")]
      [Text "Blog"]
    = Some (Element (if is_string (JStr "/") (PATH_PREFIX (env_at 2020 3) +:+ "/")
                     then Heading_MainHeading else Heading_SubHeading)
                    rest [Text "Blog"], []) ∧
    ∀ k, assoc k rest
         = if decide (k = "location") then None
           else assoc k [("location", JObj [("pathname", JStr "/")]); ("id", JStr "top")].
Proof.
  apply (Heading_chooses_by_pathname (env_at 2020 3)
           [("location", JObj [("pathname", JStr "/")]); ("id", JStr "top")]
           [Text "Blog"] (JStr "/")).
  reflexivity.
Defined.

(** What [nav_link] returns holds no element other than a [Link]. *)
Lemma find_nav_link tag rel neighbour n :
  nav_link rel neighbour = Some n → tag ≠ Component "Link" → find tag n = [].
Proof.
  unfold nav_link. intros Hn Htag. destruct (truthy neighbour).
  - destruct (get neighbour "fields") as [fields|]; [|done]. simpl in Hn.
    destruct (get fields "slug") as [slug|]; [|done]. simpl in Hn.
    destruct (get neighbour "frontmatter") as [fm|]; [|done]. simpl in Hn.
    destruct (get fm "title") as [title|]; [|done]. simpl in Hn.
    injection Hn as <-. simpl. rewrite decide_False by done.
    by destruct (decide (rel = "prev")).
  - by injection Hn as <-.
Qed.

(** C6. For every post, that is, whenever the data holds a post with front
    matter and a site title and the links to the neighbouring posts can be
    built: the template returns an element; it passes the front matter's title
    to [Seo] and shows it as the heading of the article, with the front
    matter's date below it; the description it passes to [Seo] is the front
    matter's when that is truthy (a string that is not empty), and the post's
    excerpt otherwise.  Nothing is asked of the description: it may be
    missing. *)
Theorem template_passes_front_matter env props children post frontmatter title
    siteTitle previous next prev_link next_link :
  get (prop props "data") "markdownRemark" = Some post →
  get post "frontmatter" = Some frontmatter →
  get frontmatter "title" = Some title →
  get_path (prop props "data") ["site"; "siteMetadata"; "title"] = Some siteTitle →
  get (prop props "pageContext") "previous" = Some previous →
  get (prop props "pageContext") "next" = Some next →
  nav_link "prev" previous = Some prev_link →
  nav_link "next" next = Some next_link →
  ∃ markup,
    BlogPostTemplate env props children = Some (markup, []) ∧
    find (Component "Seo") markup
    = [Element (Component "Seo")
         [("title", title);
          ("description",
           if truthy (field frontmatter "description")
           then field frontmatter "description" else field post "excerpt")] []] ∧
    find (Host "header") markup
    = [Element (Host "header") [] [
         Element Post_MainHeading [] [Value title];
         Element Post_PostDate [] [Value (field frontmatter "date")]]].
Proof.
  intros Hpost Hfm Htitle Hsite Hprev Hnext Hpl Hnl.
  unfold get_path in Hsite. simpl in Hsite.
  destruct (get (prop props "data") "site") as [site|] eqn:Hs; [|done].
  simpl in Hsite.
  destruct (get site "siteMetadata") as [sm|] eqn:Hsm; [|done]. simpl in Hsite.
  unfold BlogPostTemplate.
  rewrite Hpost. simpl. rewrite Hs. simpl. rewrite Hsm. simpl. rewrite Hsite. simpl.
  rewrite Hprev. simpl. rewrite Hnext. simpl. rewrite Hfm. simpl. rewrite Htitle. simpl.
  rewrite Hpl. simpl. rewrite Hnl. simpl.
  eexists. split; [reflexivity|]. unfold or_. cbn [find].
  rewrite !(find_nav_link _ _ _ _ Hpl), !(find_nav_link _ _ _ _ Hnl) by done.
  split; reflexivity.
Qed.

Lemma template_passes_front_matter_witness :
  ∃ markup,
    BlogPostTemplate (env_at 2020 3) vue_post_props [] = Some (markup, []) ∧
    find (Component "Seo") markup
    = [Element (Component "Seo")
         [("title", JStr "Vue 3 reactivity in depth");
          ("description",
           JStr "As Vue 3 is introducing composition API and its own reactivity system, I was curious how it works underneath.")] []] ∧
    find (Host "header") markup
    = [Element (Host "header") [] [
         Element Post_MainHeading [] [Value (JStr "Vue 3 reactivity in depth")];
         Element Post_PostDate [] [Value (JStr "April 28, 2020")]]].
Proof.
  apply (template_passes_front_matter (env_at 2020 3) vue_post_props []
           (field (prop vue_post_props "data") "markdownRemark")
           (field (field (prop vue_post_props "data") "markdownRemark") "frontmatter")
           (JStr "Vue 3 reactivity in depth")
           (JStr "Patryk Andrzejewski Blog")
           (field (prop vue_post_props "pageContext") "previous")
           JNull
           (Element (Component "Link")
              [("to", JStr "/blockchain-is-a-scam/"); ("rel", JStr "prev")]
              [Text "← "; Value (JStr "Blockchain is a scam. Blockchain is only hype.")])
           (Value JNull)); reflexivity.
Defined.

(** *** Rendering and the clock *)

Section two_renders.
Variables env1 env2 : Env.
Hypothesis same_prefix : PATH_PREFIX env1 = PATH_PREFIX env2.
Hypothesis same_data : bioData env1 = bioData env2.
Hypothesis same_year : getFullYear (now env1) = getFullYear (now env2).

(** Of what surrounds a render, each component reads at most the path
    prefix, the queried data and the year. *)
Lemma component_reads name f props children :
  component name = Some f → f env1 props children = f env2 props children.
Proof using All.
  unfold component. repeat case_decide; intros [= <-].
  - unfold Heading. by rewrite same_prefix.
  - unfold Layout. by rewrite same_year.
  - unfold Bio. by rewrite same_data.
  - done.
Qed.

Lemma render_all_ext (r1 r2 : Node → Js.Res (Node * list Json)) ns :
  (∀ n, r1 n = r2 n) → render_all r1 ns = render_all r2 ns.
Proof using Type.
  intros Hr. induction ns as [|n ns IH]; simpl; [done|]. by rewrite Hr, IH.
Qed.

Lemma render_same fuel n : render fuel env1 n = render fuel env2 n.
Proof using All.
  revert n. induction fuel as [|fuel IH]; intros n; simpl; [done|].
  destruct n as [s|v|tag props children]; try done.
  rewrite (render_all_ext _ _ children IH).
  destruct tag as [name|name base|name]; try done.
  destruct (component name) as [f|] eqn:Hf; [|done].
  rewrite (component_reads name f props children Hf).
  destruct (f env2 props children) as [[out c]|]; [|done]. by rewrite IH.
Qed.

End two_renders.

(** [Heading], [Layout] and the template print nothing. *)
Lemma quiet_components name f env props children m c :
  name ∈ ["Heading"; "Layout"; "BlogPostTemplate"] →
  component name = Some f →
  f env props children = Some (m, c) → c = [].
Proof.
  intros Hname. unfold component.
  repeat case_decide; subst; intros [= <-].
  - unfold Heading. destruct (get _ _); simpl; [|done].
    by destruct (is_string _ _); intros [= <- <-].
  - unfold Layout. by intros [= <- <-].
  - rewrite !elem_of_cons, elem_of_nil in Hname.
    by destruct Hname as [?|[?|[?|[]]]].
  - unfold BlogPostTemplate. intros Hr.
    repeat match type of Hr with
           | mbind _ ?x = Some _ => destruct x; simpl in Hr; [|done]
           end.
    by injection Hr as <- <-.
Qed.

(** C4, amended. [Heading], [Layout], [Bio] and the blog-post template are
    deterministic functions of their props, the queried data, the path prefix
    and the current year: two renders with the same props, in surroundings
    that agree on those, give the same result, whatever else differs (the
    month, the time of day).  [Heading], [Layout] and the template themselves
    print nothing. *)
Theorem render_depends_on_year_only fuel env1 env2 name props children :
  name ∈ ["Heading"; "Layout"; "Bio"; "BlogPostTemplate"] →
  PATH_PREFIX env1 = PATH_PREFIX env2 →
  bioData env1 = bioData env2 →
  getFullYear (now env1) = getFullYear (now env2) →
  render fuel env1 (Element (Component name) props children)
  = render fuel env2 (Element (Component name) props children) ∧
  (name ≠ "Bio" →
   ∀ f m c, component name = Some f → f env1 props children = Some (m, c) → c = []).
Proof.
  intros Hname Hprefix Hdata Hyear. split.
  - by apply render_same.
  - intros Hbio f m c. apply quiet_components.
    rewrite !elem_of_cons, elem_of_nil in *.
    destruct Hname as [?|[?|[?|[?|[]]]]]; auto.
Qed.

Lemma render_depends_on_year_only_witness :
  render 20 (env_at 2020 1) (Element (Component "BlogPostTemplate") vue_post_props [])
  = render 20 (env_at 2020 12) (Element (Component "BlogPostTemplate") vue_post_props []) ∧
  ("BlogPostTemplate" ≠ "Bio" →
   ∀ f m c, component "BlogPostTemplate" = Some f →
            f (env_at 2020 1) vue_post_props [] = Some (m, c) → c = []).
Proof.
  apply (render_depends_on_year_only 20 (env_at 2020 1) (env_at 2020 12)
           "BlogPostTemplate" vue_post_props []).
  - repeat constructor.
  - reflexivity.
  - reflexivity.
  - reflexivity.
Defined.

(** C4 as stated fails for [Layout]: its footer shows the year of the clock,
    so the same element rendered in 2019 and in 2020 gives different markup. *)
Lemma Layout_year_counterexample :
  (∃ m1 m2, render 10 (env_at 2019 1) home_layout = Js.Ok (m1, []) ∧
            render 10 (env_at 2020 1) home_layout = Js.Ok (m2, []) ∧
            m1 ≠ m2) ∧
  ¬ renders_purely "Layout".
Proof.
  split.
  - eexists _, _. split; [vm_compute; reflexivity|]. split; [vm_compute; reflexivity|].
    intros Heq. by injection Heq.
  - intros Hpure.
    destruct (Hpure 10 (env_at 2019 1) (env_at 2020 1)
                [("location", JObj [("pathname", JStr "/")]);
                 ("title", JStr "Patryk Andrzejewski Blog")] [])
      as [Heq _]; [done..|].
    vm_compute in Heq. by injection Heq.
Qed.

End ViewFacts.

(** ** The posts' front matter *)

Module ContentFacts.
Import Content.

(** C5, amended. Every post's front matter has a title and a date.  A
    description is optional: five of the seven posts have one, the two posts
    on Vue have none. *)
Theorem front_matter_fields :
  Forall (λ p, has_field "title" p = true ∧ has_field "date" p = true) posts ∧
  filter (λ p, has_field "description" p = false) posts
  = [command_pattern; vue_reactivity].
Proof. split; [by repeat constructor | reflexivity]. Qed.

(** C5 as stated fails: the front matter of the post "Using command pattern
    with vue composition-API" has only a title and a date. *)
Lemma description_counterexample :
  command_pattern ∈ posts ∧
  (frontmatter command_pattern).*1 = ["title"; "date"] ∧
  ¬ Forall (λ p, has_field "title" p = true ∧ has_field "date" p = true ∧
                 has_field "description" p = true) posts.
Proof.
  assert (Hin : command_pattern ∈ posts) by repeat constructor.
  split; [done|]. split; [done|].
  rewrite Forall_forall. intros Hall.
  by destruct (Hall command_pattern Hin) as (_ & _ & Hd).
Qed.

End ContentFacts.

(** * Part III: further properties of the code

    ** Lists *)

Module ListMore.

Lemma filter_id_iff {A} (P : A → Prop) `{!∀ x, Decision (P x)} (l : list A) :
  filter P l = l ↔ Forall P l.
Proof.
  split.
  - intros Heq. apply Forall_forall. intros x Hx. rewrite <-Heq in Hx.
    by apply list_elem_of_filter in Hx as [? _].
  - induction 1 as [|x l Hx _ IH]; [done|].
    rewrite filter_cons_True by done. by rewrite IH.
Qed.

Lemma fmap_id_iff {A} (f : A → A) (l : list A) :
  f <$> l = l ↔ Forall (λ x, f x = x) l.
Proof.
  induction l as [|x l IH]; cbn.
  - split; [constructor|done].
  - rewrite Forall_cons, <-IH. split.
    + by intros [= ? ?].
    + by intros [-> ->].
Qed.

Lemma sum_app (l1 l2 : list Z) :
  foldr Z.add 0%Z (l1 ++ l2) = (foldr Z.add 0 l1 + foldr Z.add 0 l2)%Z.
Proof. induction l1 as [|x l1 IH]; cbn; [done|]. rewrite IH. lia. Qed.

End ListMore.

(** ** combineReducers and createStore *)

Module ReduxMore.
Import Js Redux JsFacts ReduxFacts.

Lemma keys_nil {A} (o : gmap string A) : keys o = [] ↔ o = ∅.
Proof.
  unfold keys. split.
  - intros Hk. apply map_to_list_empty_iff. by apply fmap_nil_inv in Hk.
  - intros ->. by rewrite map_to_list_empty.
Qed.

(** X1. A reducer made from an object with no function in it, but perhaps
    under the key ["__proto__"], never looks at the state: called with [null]
    it returns its (empty) object.  As soon as an entry under another key is
    a function, the call with [null] throws a [TypeError], since
    [state[reducerKey]] is read; only [undefined] is replaced by [{}]. *)
Theorem combined_null_state reducers h0 action h :
  let c := (combineReducers reducers h0).1 in
  (reducerFunctionsKeys c = []
   ↔ ∀ k r, reducers !! k = Some (EFun r) → k = "__proto__") ∧
  combined c VNull action h
  = if decide (reducerFunctionsKeys c = []) then Ok (VObj (nextState c), h)
    else TypeError.
Proof.
  intros c.
  assert (Hc : combineReducers reducers h0 = (c, (combineReducers reducers h0).2))
    by done.
  pose proof (λ k, combineReducers_functions _ _ _ _ k Hc) as Hfun.
  pose proof (combineReducers_keys _ _ _ _ Hc) as Hkeys. split.
  - rewrite Hkeys, keys_nil. split.
    + intros Hempty k r Hk. specialize (Hfun k).
      rewrite Hempty, lookup_empty, Hk in Hfun.
      by destruct (decide (k = "__proto__")).
    + intros Hno. apply map_eq. intros k. rewrite Hfun, lookup_empty.
      destruct (reducers !! k) as [[r|v]|] eqn:Hk; try done.
      destruct (decide (k = "__proto__")) as [|Hne]; [done|].
      destruct Hne. by eapply Hno.
  - unfold combined. clearbody c.
    destruct (reducerFunctionsKeys c) as [|k0 ks] eqn:Hks; [done|].
    rewrite decide_False by done.
    assert (Hin : is_Some (reducerFunctions c !! k0)).
    { apply elem_of_keys. rewrite <-Hkeys. by left. }
    destruct Hin as [r Hr]. cbn [combine_loop]. by rewrite Hr.
Qed.

(** X2. A call of the combined reducer with reducers that only read writes
    to its own object [nextState] and to nothing else: every other object of
    the heap, the state it is given and the action among them, is as before;
    and [nextState] still holds keys of reducer functions only. *)
Theorem combined_changes_only_nextState reducers h0 c h1 state action h :
  combineReducers reducers h0 = (c, h1) →
  owned c h →
  (∀ k r, reducers !! k = Some (EFun r) → reads_only r action (nextState c) h) →
  state = VUndef ∨ (∃ l, state = VObj l) →
  ∃ h', combined c state action h = Ok (VObj (nextState c), h') ∧
        agree_off (nextState c) h h' ∧ owned c h'.
Proof.
  intros Hc Hown Hreads Hstate.
  destruct (combined_on_state reducers h0 c h1 state action h)
    as (h' & Hrun & Hown' & Hoff); [done.. | | done |].
  { intros k r Hk. by eapply reads_only_creates_only, Hreads. }
  by exists h'.
Qed.

Lemma combined_changes_only_nextState_witness :
  let c := (combineReducers counter_reducers ∅).1 in
  let a := alloc {["type" := VStr "INCREMENT"]} (combineReducers counter_reducers ∅).2 in
  ∃ h', combined c VUndef (VObj a.1) a.2 = Ok (VObj (nextState c), h') ∧
        agree_off (nextState c) a.2 h' ∧ owned c h'.
Proof.
  intros c a.
  apply (combined_changes_only_nextState counter_reducers ∅ c
           (combineReducers counter_reducers ∅).2 VUndef (VObj a.1) a.2).
  - reflexivity.
  - apply owned_alloc. apply (combineReducers_owned counter_reducers ∅). reflexivity.
  - intros k r. apply counter_reducers_read_only.
  - left. reflexivity.
Defined.

Lemma bind_Ok {A B} (m : Res A) (f : A → Res B) b :
  m ≫= f = Ok b → ∃ a, m = Ok a ∧ f a = Ok b.
Proof. destruct m as [a| |]; [by exists a | done..]. Qed.

Section listeners_grow.
Variable d : Val → Store → Res Store.
Hypothesis d_grows : ∀ a w w', d a w = Ok w' → listeners w `prefix_of` listeners w'.

Lemma run_listeners_grow p w w' :
  run d p w = Ok w' → listeners w `prefix_of` listeners w'.
Proof using d_grows.
  revert w. induction p as [|tag v k IH|o k IH|k IH|a k IH|l _ k IH| |];
    intros w; simpl; [| | | | | |done..].
  - by intros [= ->].
  - intros Hrun%IH. done.
  - intros Hrun%IH. done.
  - intros Hrun%IH. done.
  - intros (w1 & Hd%d_grows & Hrun%IH)%bind_Ok. by etrans.
  - intros Hrun%IH. simpl in Hrun. etrans; [|exact Hrun]. by apply prefix_app_r.
Qed.

Lemma forEach_listeners_grow n i w w' :
  forEach_listeners d i n w = Ok w' → listeners w `prefix_of` listeners w'.
Proof using d_grows.
  revert i w. induction n as [|n IH]; intros i w; simpl.
  - by intros [= ->].
  - destruct (listeners w !! i) as [l|]; [|apply IH].
    intros (w1 & Hrun%run_listeners_grow & Hrest%IH)%bind_Ok. by etrans.
Qed.

End listeners_grow.

Lemma dispatch_listeners_grow rootReducer fuel a w w' :
  dispatch rootReducer fuel a w = Ok w' → listeners w `prefix_of` listeners w'.
Proof.
  revert a w w'. induction fuel as [|fuel IH]; intros a w w'; simpl; [done|].
  intros ([s h] & _ & Hrun)%bind_Ok.
  by apply forEach_listeners_grow in Hrun.
Qed.

(** X3. The store has no way to unsubscribe: whatever a run does, with
    listeners that dispatch and subscribe as they like, every listener
    registered before it is still registered after it, at the same place. *)
Theorem listeners_never_removed rootReducer fuel p w w' :
  run (dispatch rootReducer fuel) p w = Ok w' →
  listeners w `prefix_of` listeners w'.
Proof.
  apply run_listeners_grow. intros a w1 w2. apply dispatch_listeners_grow.
Qed.

Lemma listeners_never_removed_witness :
  [redispatching_listener; subscribing_listener]
  `prefix_of` [redispatching_listener; subscribing_listener;
               setState_listener; setState_listener].
Proof.
  apply (listeners_never_removed (pure_reducer tally) 2
           (Dispatch (VStr "INCREMENT") Ret)
           (store_with [redispatching_listener; subscribing_listener])
           {| state := VNum 2;
              listeners := [redispatching_listener; subscribing_listener;
                            setState_listener; setState_listener];
              heap := (alloc ∅ ∅).2;
              calls := [(0, VNum 1); (0, VNum 2); (1, VNum 2); (1, VNum 2)];
              output := [] |}).
  vm_compute. reflexivity.
Defined.

(** *** A script of dispatches *)

Lemma run_calm d p w :
  calm p → Forall calm_listener (listeners w) →
  ∃ w', run d p w = Ok w' ∧ state w' = state w ∧ calls w' = calls w ∧
        listeners w `prefix_of` listeners w' ∧
        Forall calm_listener (listeners w').
Proof.
  revert w. induction p as [|tag v k IH|o k IH|k IH|a k IH|l _ k IH| |];
    intros w Hp Hls; simpl in *; [| | | | | |done..].
  - by exists w.
  - destruct (IH (emit tag v w) Hp Hls) as (w' & ? & ? & ? & ? & ?). by exists w'.
  - destruct (IH (VObj (fresh (dom (heap w))))
                 (set_heap (<[fresh (dom (heap w)) := o]> (heap w)) w) (Hp _) Hls)
      as (w' & ? & ? & ? & ? & ?). by exists w'.
  - destruct (IH (getState w) w (Hp _) Hls) as (w' & ? & ? & ? & ? & ?). by exists w'.
  - done.
  - destruct Hp as [Hl Hk].
    destruct (IH (subscribe l w) Hk) as (w' & ? & ? & ? & Hpre & ?).
    { simpl. apply Forall_app. split; [done|]. by apply Forall_singleton. }
    exists w'. repeat split; try done. etrans; [|exact Hpre]. by apply prefix_app_r.
Qed.

Lemma forEach_calm d n i w :
  Forall calm_listener (listeners w) →
  i + n ≤ length (listeners w) →
  ∃ w', forEach_listeners d i n w = Ok w' ∧ state w' = state w ∧
        calls w' = calls w ++ ((λ j, (j, state w)) <$> seq i n) ∧
        listeners w `prefix_of` listeners w' ∧
        Forall calm_listener (listeners w').
Proof.
  revert i w. induction n as [|n IH]; intros i w Hls Hlen; simpl.
  - exists w. by rewrite app_nil_r.
  - destruct (lookup_lt_is_Some_2 (listeners w) i) as [l Hl]; [lia|].
    rewrite Hl.
    destruct (run_calm d (l (state w)) (log_call i (state w) w))
      as (w1 & Hrun & Hst & Hcalls & Hpre1 & Hls1); [|done|].
    { eapply Forall_lookup_1 in Hls; [|exact Hl]. apply Hls. }
    rewrite Hrun. cbn.
    destruct (IH (S i) w1) as (w' & Hrun' & Hst' & Hcalls' & Hpre' & Hls'); [done| |].
    { apply prefix_length in Hpre1. simpl in Hpre1. lia. }
    exists w'. split; [exact Hrun'|]. split; [by rewrite Hst'|].
    split; [|split; [by etrans|done]].
    rewrite Hcalls', Hcalls, Hst. simpl. by rewrite <-app_assoc.
Qed.

Lemma received_app i cs cs' : received i (cs ++ cs') = received i cs ++ received i cs'.
Proof. unfold received. by rewrite omap_app. Qed.

Lemma received_round i s a n :
  received i ((λ j, (j, s)) <$> seq a n)
  = if decide (a ≤ i < a + n) then [s] else [].
Proof.
  revert a. induction n as [|n IH]; intros a; simpl.
  - rewrite decide_False by lia. done.
  - unfold received in *. simpl. rewrite IH.
    destruct (decide (a = i)) as [->|Hne].
    + rewrite decide_False, decide_True by lia. done.
    + destruct (decide (S a ≤ i < S a + n)).
      * rewrite decide_True by lia. done.
      * rewrite decide_False by lia. done.
Qed.

(** X4. With a pure reducer and listeners that return and do not dispatch
    (nor subscribe a listener that would throw, run for ever or dispatch), a
    script of dispatches folds the reducer over the actions: the final state
    is the reducer applied action after action, and every listener registered
    before the script has been called with each of the states gone through,
    once and in order. *)
Theorem dispatch_all_folds f actions w :
  Forall calm_listener (listeners w) →
  ∃ w', run (dispatch (pure_reducer f) 1) (dispatch_all actions) w = Ok w' ∧
        getState w' = foldl f (state w) actions ∧
        ∃ new, calls w' = calls w ++ new ∧
               ∀ i, i < length (listeners w) →
                    received i new = states_after f (state w) actions.
Proof.
  revert w. induction actions as [|a actions IH]; intros w Hls.
  - exists w. split; [done|]. split; [done|]. exists []. by rewrite app_nil_r.
  - cbn [dispatch_all foldr run dispatch]. cbn.
    destruct (forEach_calm (dispatch (pure_reducer f) 0) (length (listeners w)) 0
                (set_state (f (state w) a) (set_heap (heap w) w)))
      as (w1 & Hrun & Hst & Hcalls & Hpre & Hls1); [done | simpl; lia |].
    simpl in Hrun, Hst, Hcalls, Hpre. rewrite Hrun. cbn.
    destruct (IH w1 Hls1) as (w' & Hrun' & Hst' & new & Hcalls' & Hrec).
    exists w'. split; [exact Hrun'|]. split; [by rewrite Hst', Hst|].
    exists (((λ j, (j, f (state w) a)) <$> seq 0 (length (listeners w))) ++ new).
    split; [by rewrite Hcalls', Hcalls, <-app_assoc|].
    intros i Hi. rewrite received_app, received_round, decide_True by lia.
    rewrite Hrec, Hst; [done|]. apply prefix_length in Hpre. lia.
Qed.

Lemma dispatch_all_folds_witness :
  ∃ w', run (dispatch (pure_reducer tally) 1)
          (dispatch_all [VStr "INCREMENT"; VStr "NOTHING"; VStr "INCREMENT"])
          (store_with [setState_listener; subscribing_listener]) = Ok w' ∧
        getState w'
        = foldl tally (VNum 0) [VStr "INCREMENT"; VStr "NOTHING"; VStr "INCREMENT"] ∧
        ∃ new, calls w' = [] ++ new ∧
               ∀ i, i < 2 →
                    received i new
                    = states_after tally (VNum 0)
                        [VStr "INCREMENT"; VStr "NOTHING"; VStr "INCREMENT"].
Proof.
  apply (dispatch_all_folds tally [VStr "INCREMENT"; VStr "NOTHING"; VStr "INCREMENT"]
           (store_with [setState_listener; subscribing_listener])).
  repeat constructor.
Defined.

End ReduxMore.

(** ** The reactivity walkthrough, final version *)

Module ReactivityMore.
Import Js Reactivity ReactivityFacts.

Section every_run.
Context {R : Runtime}.

Lemma deps_tracked_init h : deps_tracked (init h).
Proof.
  split.
  - intros t objMap k. simpl. by rewrite lookup_empty.
  - intros t k. unfold dep_at, tracked. simpl. rewrite lookup_empty.
    by destruct (inherited k).
Qed.

(** X5. Whatever the effects do (read, assign, call [effect], throw, catch)
    and however far the run gets: the array that [deps] holds for a property
    whose name [Object.prototype] does not have consists of the values that
    the reads of that property found in [currentEffect], one entry for each
    such read and in the order of the reads.  So [track] keeps duplicates: a
    function that reads a property twice while it is the current effect is in
    the array twice.  Under a name that [Object.prototype] has, [deps] holds
    no array: [track] throws there. *)
Theorem deps_hold_current_effects body fuel p h target key :
  dep_at (run body fuel p (init h)).2 target key
  = tracked target key (trace (run body fuel p (init h)).2).
Proof. apply (deps_tracked_run body fuel p (init h) (deps_tracked_init h)). Qed.

Lemma tracked_prefix target key tr tr' :
  tr `prefix_of` tr' → tracked target key tr `prefix_of` tracked target key tr'.
Proof. intros [evs ->]. rewrite tracked_app. by apply prefix_app_r. Qed.

(** The trace only grows. *)
Lemma trace_grows body fuel q st : trace st `prefix_of` trace (run body fuel q st).2.
Proof.
  apply (run_preserves body (λ s, trace st `prefix_of` trace s)); try done.
  - intros t k s Hs. rewrite track_trace. simpl. rewrite <-app_assoc.
    by apply prefix_app_r.
  - intros s Hs. simpl. by apply prefix_app_r.
  - intros fn c s Hs. simpl. by apply prefix_app_r.
Qed.

(** X6. Nothing is ever taken out of [deps]: after any script, whatever a
    further script does, exceptions and all, each array still begins with what
    it held.  A function registered for a property stays registered, also
    when it no longer reads the property. *)
Theorem deps_only_grow body fuel fuel' p q h target key :
  dep_at (run body fuel p (init h)).2 target key
  `prefix_of`
  dep_at (run body fuel' q (run body fuel p (init h)).2).2 target key.
Proof.
  pose proof (deps_tracked_run body fuel p (init h) (deps_tracked_init h)) as Hp.
  pose proof (deps_tracked_run body fuel' q _ Hp) as Hq.
  rewrite (proj2 Hp), (proj2 Hq). apply tracked_prefix, trace_grows.
Qed.

End every_run.

End ReactivityMore.

(** ** The earlier versions of the reactivity *)

Module TrackingMore.
Import Js Tracking.
Import Reactivity(fid, Cause, ByEffect, BySet, person).

Lemma calls_app tr tr' : called (tr ++ tr') = called tr ++ called tr'.
Proof. unfold called. by rewrite omap_app. Qed.

Lemma calls_since_app tr evs : called_since tr (tr ++ evs) = called evs.
Proof. unfold called_since. by rewrite drop_app_length. Qed.

Lemma readers_where_app sel {sel_dec : ∀ t k, Decision (sel t k)} tr e :
  readers_where sel (tr ++ [e]) = readers_where sel tr ++ readers_where sel [e].
Proof. unfold readers_where. by rewrite omap_app. Qed.

Section version.
Context {V : Version}.
Variable same : loc → string → loc → string → Prop.
Context {same_dec : ∀ t k t' k', Decision (same t k t' k')}.
Hypothesis dep_no_deps : ∀ t k, dep no_deps t k = [].
Hypothesis dep_push : ∀ t k fn d t' k',
  dep (push t k fn d) t' k' = dep d t' k' ++ if decide (same t k t' k') then [fn] else [].

Lemma track_keeps target key st :
  heap (track target key st) = heap st ∧
  currentEffect (track target key st) = currentEffect st ∧
  stack (track target key st) = stack st ∧
  trace (track target key st) = trace st.
Proof. unfold track. by destruct (currentEffect st) eqn:E. Qed.

Lemma track_nothing target key st :
  currentEffect st = None → track target key st = st.
Proof. unfold track. by intros ->. Qed.

Lemma track_dep target key st t k :
  dep (deps (track target key st)) t k
  = dep (deps st) t k ++
    match currentEffect st with
    | Some fn => if decide (same target key t k) then [fn] else []
    | None => []
    end.
Proof using dep_push.
  unfold track. destruct (currentEffect st) as [fn|]; [|by rewrite app_nil_r].
  apply dep_push.
Qed.

Lemma read_keeps_recorded t k st :
  coherent st → recorded same st →
  recorded same (track t k (log (ERead t k (head (stack st))) st)).
Proof using dep_push.
  unfold coherent, recorded. intros Hco Hst target key.
  rewrite track_dep.
  destruct (track_keeps t k (log (ERead t k (head (stack st))) st))
    as (_ & _ & _ & ->). simpl.
  rewrite readers_where_app. f_equal; [apply Hst|]. simpl.
  destruct (head (stack st)) as [[fn [|t' k']]|]; rewrite Hco; try done.
  by destruct (decide _).
Qed.

Section read_only_bodies.
Variable body : fid → Prog.
Hypothesis body_read_only : ∀ fn, read_only (body fn).

Lemma exec_reads callf q st :
  read_only q → coherent st → recorded same st →
  ∃ st' evs, exec callf q st = (Done, st') ∧
    recorded same st' ∧
    currentEffect st' = currentEffect st ∧ stack st' = stack st ∧
    trace st' = trace st ++ evs ∧ called evs = [] ∧
    (currentEffect st = None → deps st' = deps st).
Proof using dep_push.
  revert st. induction q as [|t k c IH|t k v c IH|fn c IH]; intros st Hq Hco Hst;
    simpl in *; [|  |done..].
  - exists st, []. by rewrite app_nil_r.
  - set (st1 := track t k _).
    destruct (track_keeps t k (log (ERead t k (head (stack st))) st))
      as (_ & Hcur & Hstack & Htrace). fold st1 in Hcur, Hstack, Htrace.
    simpl in Hcur, Hstack, Htrace.
    destruct (IH (default VUndef (obj_at (heap st) t !! k)) st1)
      as (st' & evs & Hrun & Hrec & Hcur' & Hstack' & Htrace' & Hcalled & Hdeps).
    { apply Hq. }
    { unfold coherent. by rewrite Hcur, Hstack. }
    { by apply read_keeps_recorded. }
    exists st', (ERead t k (head (stack st)) :: evs).
    split; [exact Hrun|]. split; [done|]. split; [congruence|]. split; [congruence|].
    split; [by rewrite Htrace', Htrace, <-app_assoc|]. split; [done|].
    intros Hnone. rewrite Hdeps by congruence. unfold st1.
    rewrite track_nothing; done.
Qed.

Lemma call_reads fuel fn c st :
  match c with ByEffect => currentEffect st = Some fn | _ => currentEffect st = None end →
  recorded same st →
  ∃ st' evs, call body (S fuel) fn c st = (Done, st') ∧
    recorded same st' ∧
    currentEffect st' = currentEffect st ∧ stack st' = stack st ∧
    trace st' = trace st ++ evs ∧ called evs = [fn] ∧
    (currentEffect st = None → deps st' = deps st).
Proof using body_read_only dep_push.
  intros Hc Hst. cbn [call].
  destruct (exec_reads (call body fuel) (body fn)
              (set_stack ((fn, c) :: stack st) (log (ECall fn c) st)))
    as (st' & evs & Hrun & Hrec & Hcur & Hstack & Htrace & Hcalled & Hdeps).
  { apply body_read_only. }
  { unfold coherent. simpl. by destruct c. }
  { intros t k. simpl. rewrite readers_where_app. simpl.
    rewrite app_nil_r. apply Hst. }
  rewrite Hrun. simpl in *.
  exists (set_stack (stack st) st'), (ECall fn c :: evs). simpl.
  split; [done|]. split; [exact Hrec|]. split; [done|]. split; [done|].
  split; [by rewrite Htrace, <-app_assoc|]. split; [by rewrite Hcalled|]. done.
Qed.

Lemma forEach_reads fuel t k n i st :
  currentEffect st = None → recorded same st →
  i + n ≤ length (dep (deps st) t k) →
  ∃ st' evs, forEach_dep (call body (S fuel)) t k i n st = (Done, st') ∧
    recorded same st' ∧
    currentEffect st' = None ∧ stack st' = stack st ∧
    trace st' = trace st ++ evs ∧ called evs = take n (drop i (dep (deps st) t k)) ∧
    deps st' = deps st.
Proof using body_read_only dep_push.
  revert i st. induction n as [|n IH]; intros i st Hcur Hst Hlen; cbn [forEach_dep].
  - exists st, []. by rewrite app_nil_r.
  - destruct (lookup_lt_is_Some_2 (dep (deps st) t k) i) as [fn Hfn]; [lia|].
    rewrite Hfn.
    destruct (call_reads fuel fn (BySet t k) st)
      as (st1 & evs1 & Hrun1 & Hrec1 & Hcur1 & Hstack1 & Htrace1 & Hcalled1 & Hdeps1);
      [done..|].
    rewrite Hrun1. simpl. specialize (Hdeps1 Hcur).
    destruct (IH (S i) st1)
      as (st' & evs & Hrun & Hrec & Hcur' & Hstack' & Htrace' & Hcalled & Hdeps');
      [congruence | done | rewrite Hdeps1; lia |].
    exists st', (evs1 ++ evs). split; [exact Hrun|]. split; [done|].
    split; [done|]. split; [congruence|].
    split; [by rewrite Htrace', Htrace1, <-app_assoc|].
    split; [|congruence].
    rewrite calls_app, Hcalled1, Hcalled, Hdeps1.
    by rewrite (drop_S _ _ _ Hfn).
Qed.

Lemma set_reads fuel t k v st :
  currentEffect st = None → stack st = [] → recorded same st →
  ∃ st' evs, run body (S fuel) (Set_ t k v Ret) st = (Done, st') ∧
    currentEffect st' = None ∧ stack st' = [] ∧ recorded same st' ∧
    trace st' = trace st ++ evs ∧ called evs = dep (deps st) t k.
Proof using body_read_only dep_push.
  intros Hcur Hstack Hrec. unfold run. cbn [exec]. unfold callEffects.
  destruct (forEach_reads fuel t k
              (length (dep (deps (set_heap (set_prop t k v (heap st)) st)) t k)) 0
              (set_heap (set_prop t k v (heap st)) st))
    as (st' & evs & Hrun & Hrec' & Hcur' & Hstack' & Htrace & Hcalled & _); [done..|].
  rewrite Hrun. simpl in *. exists st', evs. repeat split; try done; [congruence|].
  by rewrite Hcalled, drop_0, firstn_all.
Qed.

Lemma run_reads fuel p st :
  currentEffect st = None → stack st = [] → recorded same st →
  ∃ st', run body (S fuel) p st = (Done, st') ∧
    currentEffect st' = None ∧ stack st' = [] ∧ recorded same st'.
Proof using body_read_only dep_push.
  revert st. induction p as [|t k c IH|t k v c IH|fn c IH]; intros st Hcur Hstack Hrec.
  - by exists st.
  - unfold run. cbn [exec]. apply IH.
    + by destruct (track_keeps t k (log (ERead t k (head (stack st))) st))
        as (_ & -> & _ & _).
    + by destruct (track_keeps t k (log (ERead t k (head (stack st))) st))
        as (_ & _ & -> & _).
    + apply read_keeps_recorded; [|done]. unfold coherent. by rewrite Hstack.
  - destruct (set_reads fuel t k v st Hcur Hstack Hrec)
      as (st1 & evs & Hrun & Hcur1 & Hstack1 & Hrec1 & _).
    unfold run in *. cbn [exec] in *.
    destruct (callEffects _ t k _) as [[] st2]; simpl in *; [|done].
    injection Hrun as ->. by apply IH.
  - unfold run. cbn [exec].
    destruct (call_reads fuel fn ByEffect (set_currentEffect (Some fn) st))
      as (st1 & evs & Hrun & Hrec1 & Hcur1 & Hstack1 & _); [done..|].
    rewrite Hrun. cbn [and_then]. cbn in Hstack1.
    apply IH; [done|cbn; congruence|exact Hrec1].
Qed.

(** With effects that only read, an assignment after any script calls the
    functions that read a property that the version puts together with the
    one assigned. *)
Lemma set_triggers fuel p h target key value :
  ∃ st st',
    run body (S fuel) p (init h) = (Done, st) ∧
    run body (S fuel) (Set_ target key value Ret) st = (Done, st') ∧
    called_since (trace st) (trace st')
    = readers_where (λ t k, same t k target key) (trace st).
Proof using body_read_only dep_push dep_no_deps.
  destruct (run_reads fuel p (init h)) as (st & Hrun & Hcur & Hstack & Hrec);
    [done|done| |].
  { intros t k. cbn. apply dep_no_deps. }
  destruct (set_reads fuel target key value st Hcur Hstack Hrec)
    as (st' & evs & Hset & _ & _ & _ & Htrace & Hcalled).
  exists st, st'. split; [done|]. split; [done|].
  rewrite Htrace, calls_since_app, Hcalled. apply Hrec.
Qed.

End read_only_bodies.
End version.

Lemma two_persons_read_only fn : read_only (two_persons_effects fn).
Proof. by destruct fn. Qed.

(** X24. The version with [currentEffect] and the one array [effects]: with
    effects that only read, an assignment to any property of any reactive
    object calls the functions once for each read that any of them made of
    any property while running inside [effect()], in the order of the reads.
    A function that reads two properties is in the array twice and is
    called twice. *)
Theorem one_array_triggers_every_reader body fuel p h target key value :
  (∀ fn, read_only (body fn)) →
  ∃ st st',
    run (V := one_array) body (S fuel) p (init h) = (Done, st) ∧
    run body (S fuel) (Set_ target key value Ret) st = (Done, st') ∧
    called_since (trace st) (trace st') = readers_where (λ _ _, True) (trace st).
Proof.
  intros Hbody.
  refine (set_triggers (V := one_array) (λ _ _ _ _, True)
            (same_dec := λ _ _ _ _, True_dec) _ _ body Hbody fuel p h target key value).
  - done.
  - done.
Qed.

Lemma one_array_triggers_every_reader_witness :
  ∃ st st',
    run (V := one_array) two_persons_effects 1 (Effect 0 Ret) (init two_persons_heap)
    = (Done, st) ∧
    run two_persons_effects 1 (Set_ person2 "lastName" (VStr "Roe") Ret) st = (Done, st') ∧
    called_since (trace st) (trace st') = readers_where (λ _ _, True) (trace st).
Proof.
  apply (one_array_triggers_every_reader two_persons_effects 0
           (Effect 0 Ret) two_persons_heap person2 "lastName" (VStr "Roe")).
  apply two_persons_read_only.
Defined.

(** X25. The version with [deps] keyed by property name, in programs that
    read and assign no property under a name that [Object.prototype] has:
    with effects that only read, an assignment to [key] of a reactive object
    calls the functions that read [key] of any reactive object while running
    inside [effect()], once for each such read and in the order of the reads;
    readers of the same key of another object are called too, readers of
    other keys are not. *)
Theorem by_key_triggers_across_objects body fuel p h target key value :
  (∀ fn, read_only (body fn)) →
  (∀ fn, plain_names (body fn)) → plain_names p → inherited key = false →
  ∃ st st',
    run (V := by_key) body (S fuel) p (init h) = (Done, st) ∧
    run body (S fuel) (Set_ target key value Ret) st = (Done, st') ∧
    called_since (trace st) (trace st')
    = readers_where (λ _ k, k = key) (sel_dec := λ _ k, decide (k = key)) (trace st).
Proof.
  intros Hbody _ _ _.
  refine (set_triggers (V := by_key) (λ _ k _ k', k = k')
            (same_dec := λ _ k _ k', decide (k = k')) _ _
            body Hbody fuel p h target key value).
  { done. }
  intros t k fn d t' k'. cbn. destruct (decide (k = k')) as [->|Hk].
  - by rewrite lookup_insert_eq.
  - by rewrite lookup_insert_ne, app_nil_r.
Qed.

Lemma by_key_triggers_across_objects_witness :
  ∃ st st',
    run (V := by_key) two_persons_effects 1 (Effect 0 (Effect 1 Ret)) (init two_persons_heap)
    = (Done, st) ∧
    run two_persons_effects 1 (Set_ person "firstName" (VStr "David") Ret) st = (Done, st') ∧
    called_since (trace st) (trace st')
    = readers_where (λ _ k, k = "firstName") (sel_dec := λ _ k, decide (k = "firstName"))
        (trace st).
Proof.
  apply (by_key_triggers_across_objects two_persons_effects 0
           (Effect 0 (Effect 1 Ret)) two_persons_heap person "firstName" (VStr "David")).
  - apply two_persons_read_only.
  - intros [|fn]; by vm_compute.
  - by vm_compute.
  - reflexivity.
Defined.

End TrackingMore.

(** ** The view components *)

Module ViewMore.
Import View ViewFacts.

Lemma get_Some v k x : get v k = Some x ↔ nullish v = false ∧ x = field v k.
Proof.
  unfold get. destruct (nullish v); split; try done.
  - by intros [? ?].
  - by intros [= <-].
  - by intros [_ ->].
Qed.

Lemma get_None v k : get v k = None ↔ nullish v = true.
Proof. unfold get. by destruct (nullish v). Qed.

Lemma get_not_nullish v k : nullish v = false → get v k = Some (field v k).
Proof. intros H. by apply get_Some. Qed.

(** One step of [render] on a host element or a styled wrapper, and on a
    known component. *)
Lemma render_host fuel env tag props children :
  (∀ name, tag ≠ Component name) →
  render (S fuel) env (Element tag props children)
  = '(children, c) ← render_all (render fuel env) children;
    Js.Ok (Element tag props children, c).
Proof. intros H. destruct tag; try done. by destruct (H name). Qed.

Lemma render_component fuel env name f props children :
  component name = Some f →
  render (S fuel) env (Element (Component name) props children)
  = match f env props children with
    | Some (out, c) => '(m, c') ← render fuel env out; Js.Ok (m, c ++ c')
    | None => Js.TypeError
    end.
Proof. intros H. cbn [render]. by rewrite H. Qed.

(** The header of [Layout]. *)
Lemma render_header m env location title :
  render (5 + m) env
    (Element (Host "header") [] [
       Element (Component "Heading") [("location", location)] [
         Element Layout_HeadingLink [("to", JStr "/")] [Value title]]])
  = if nullish location then Js.TypeError
    else Js.Ok (Element (Host "header") [] [
           Element (if is_string (field location "pathname") (PATH_PREFIX env +:+ "/")
                    then Heading_MainHeading else Heading_SubHeading) [] [
             Element Layout_HeadingLink [("to", JStr "/")] [Value title]]], []).
Proof.
  change (5 + m) with (S (S (3 + m))).
  rewrite render_host by done. cbn [render_all].
  rewrite (render_component _ _ _ Heading) by done.
  unfold Heading, get. change (prop [("location", location)] "location") with location.
  destruct (nullish location); [done|]. cbn [mbind option_bind].
  by destruct (is_string _ _).
Qed.

(** The footer of [Layout] in the year of the clock. *)
Lemma render_footer m env :
  render (5 + m) env
    (Element (Host "footer") [] [
       Text "© "; Value (JNum (getFullYear (now env))); Text ", Built with";
       Value (JStr " ");
       Element (Host "a") [("href", JStr "https://www.gatsbyjs.org")] [Text "Gatsby"]])
  = Js.Ok (Element (Host "footer") [] [
       Text "© "; Value (JNum (getFullYear (now env))); Text ", Built with";
       Value (JStr " ");
       Element (Host "a") [("href", JStr "https://www.gatsbyjs.org")] [Text "Gatsby"]],
     []).
Proof. reflexivity. Qed.

(** [Layout]'s element, rendered: the three parts one after the other. *)
Lemma render_Layout m env props children :
  render (7 + m) env (Element (Component "Layout") props children)
  = '(header, _) ← render (5 + m) env
        (Element (Host "header") [] [
           Element (Component "Heading") [("location", prop props "location")] [
             Element Layout_HeadingLink [("to", JStr "/")] [Value (prop props "title")]]]);
    '(cs, c) ← render_all (render (4 + m) env) children;
    Js.Ok (Element Layout_Container [] [
      header;
      Element (Host "main") [] cs;
      Element (Host "footer") [] [
        Text "© "; Value (JNum (getFullYear (now env))); Text ", Built with";
        Value (JStr " ");
        Element (Host "a") [("href", JStr "https://www.gatsbyjs.org")] [Text "Gatsby"]]], c).
Proof.
  change (7 + m) with (S (S (5 + m))).
  rewrite (render_component _ _ _ Layout) by done. unfold Layout.
  rewrite render_host by done. cbn [render_all].
  rewrite render_header, render_footer.
  destruct (nullish (prop props "location")); [done|].
  change (5 + m) with (S (4 + m)). rewrite render_host by done.
  change (Js.Ok ?x ≫= ?f) with (f x). cbv beta iota.
  destruct (render_all (render (4 + m) env) children) as [[cs c]| |]; try done.
  cbn. by rewrite !app_nil_r.
Qed.

(** X7. Rendering [<Layout location=... title=...>children</Layout>] when
    [location] is an object: the header holds the [h1] heading exactly when
    [location.pathname] is [`${__PATH_PREFIX__}/`] and the [h3] heading
    otherwise, with a link to ["/"] showing the title; [main] holds the
    rendered children; the footer shows the year of the clock; what is printed
    is what the children print. *)
Theorem Layout_renders m env props children cs c :
  nullish (prop props "location") = false →
  render_all (render (4 + m) env) children = Js.Ok (cs, c) →
  render (7 + m) env (Element (Component "Layout") props children)
  = Js.Ok (Element Layout_Container [] [
      Element (Host "header") [] [
        Element (if is_string (field (prop props "location") "pathname")
                      (PATH_PREFIX env +:+ "/")
                 then Heading_MainHeading else Heading_SubHeading) [] [
          Element Layout_HeadingLink [("to", JStr "/")] [Value (prop props "title")]]];
      Element (Host "main") [] cs;
      Element (Host "footer") [] [
        Text "© "; Value (JNum (getFullYear (now env))); Text ", Built with";
        Value (JStr " ");
        Element (Host "a") [("href", JStr "https://www.gatsbyjs.org")] [Text "Gatsby"]]],
    c).
Proof.
  intros Hloc Hch.
  rewrite render_Layout, render_header, Hloc, Hch. done.
Qed.

Lemma Layout_renders_witness :
  ∃ out, render 7 (env_at 2020 4) home_layout = Js.Ok (out, [])
         ∧ length (find Heading_MainHeading out) = 1.
Proof.
  eexists. split.
  - apply (Layout_renders 0 (env_at 2020 4) _ [] [] []); reflexivity.
  - reflexivity.
Defined.

(** X8. [Layout] throws exactly when [location] is [undefined] or [null]
    (then [Heading] reads [location.pathname]) or when rendering one of the
    children throws. *)
Theorem Layout_fails_iff m env props children :
  render (7 + m) env (Element (Component "Layout") props children) = Js.TypeError
  ↔ nullish (prop props "location") = true
    ∨ render_all (render (4 + m) env) children = Js.TypeError.
Proof.
  rewrite render_Layout, render_header.
  destruct (nullish (prop props "location")).
  { split; [by left|done]. }
  cbn [mbind Js.Res_bind].
  destruct (render_all (render (4 + m) env) children) as [[cs c]| |].
  - split; [done|by intros [?|?]].
  - split; [by right|done].
  - split; [done|by intros [?|?]].
Qed.

(** *** Reading the queried data *)

(** Follow the [get]s of a hypothesis: each one either throws, which the
    hypothesis excludes, or returns the field. *)
Ltac get_in H :=
  repeat match type of H with
  | context [get ?v ?k] =>
      let E := fresh "E" in
      destruct (nullish v) eqn:E;
      [ rewrite (proj2 (get_None v k) E) in H; discriminate H
      | rewrite (get_not_nullish v k E) in H; cbn [mbind option_bind] in H ]
  end.

(** The [get]s of the goal that are known to return. *)
Ltac get_goal :=
  repeat match goal with
  | E : nullish ?v = false |- context [get ?v ?k] =>
      rewrite (get_not_nullish v k E); cbn [mbind option_bind mapM mret option_ret]
  end.

(** The names of the fields play no part: name them. *)
Ltac hide_strings :=
  repeat match goal with
  | |- context [String ?a ?s] =>
      let k := fresh "k" in set (k := String a s) in *; clearbody k
  end.

Lemma get_path_bind (m : option Json) ks :
  foldl (λ acc k, acc ≫= λ v, get v k) m ks = m ≫= λ v, get_path v ks.
Proof.
  revert m. induction ks as [|k ks IH]; intros m; cbn [foldl].
  - by destruct m.
  - rewrite IH. destruct m as [v|]; [|done]. cbn [mbind option_bind].
    unfold get_path. cbn [foldl mbind option_bind]. by rewrite IH.
Qed.

Lemma get_path_cons v k ks :
  is_Some (get_path v (k :: ks))
  ↔ nullish v = false ∧ is_Some (get_path (field v k) ks).
Proof.
  unfold get_path at 1. cbn [foldl mbind option_bind]. rewrite get_path_bind.
  unfold get. destruct (nullish v); cbn [mbind option_bind].
  - split; [by intros [? ?]|by intros [? _]].
  - split; [done|by intros [_ ?]].
Qed.

(** *** Bio *)

(** X9. When [Bio] renders, it shows one link per key of [socialImages], in
    the order in which [useBioData] writes them (devto, github, linked,
    medium, twitter) and not in the order of the site's metadata; each link
    takes [href] and [alt] from [social[key]] and its icon from the image of
    the same name.  It prints [social]. *)
Theorem Bio_social_links env props children out c :
  Bio env props children = Some (out, c) →
  find Bio_SocialLink out
  = social_link (bioData env) <$> ["devto"; "github"; "linked"; "medium"; "twitter"]
  ∧ c = [field (field (field (bioData env) "site") "siteMetadata") "social"].
Proof.
  unfold Bio, useBioData, fixed_image, social_link. cbn [fmap list_fmap].
  hide_strings. intros H.
  get_in H. cbn [mapM mbind option_bind mret option_ret] in H. get_in H.
  injection H as <- <-. split; reflexivity.
Qed.

Lemma Bio_social_links_witness :
  ∃ out c,
    Bio (env_at 2020 4) [] [] = Some (out, c)
    ∧ find Bio_SocialLink out
      = social_link site_bioData <$> ["devto"; "github"; "linked"; "medium"; "twitter"]
    ∧ c = [field (field (field site_bioData "site") "siteMetadata") "social"].
Proof.
  eexists _, _. split; [reflexivity|].
  apply (Bio_social_links (env_at 2020 4) [] []). reflexivity.
Defined.

(** X10. [Bio] renders without a [TypeError] exactly when the result of the
    query has an author, an account for each of the five keys, and the six
    images: every path of [Bio_paths] can be followed (its last field may be
    missing). *)
Theorem Bio_needs env props children :
  is_Some (Bio env props children)
  ↔ Forall (λ path, is_Some (get_path (bioData env) path)) Bio_paths.
Proof.
  unfold Bio_paths, Bio, useBioData, fixed_image.
  cbn [fmap list_fmap app mapM mbind option_bind mret option_ret].
  hide_strings.
  rewrite !Forall_cons, !get_path_cons.
  split.
  - intros [[out c] H].
    get_in H. cbn [mapM mbind option_bind mret option_ret] in H. get_in H.
    repeat split; (done || by eexists).
  - intros H.
    destruct_and!. get_goal. by eexists.
Qed.

Lemma Bio_out_renders j env env' props children out c :
  Bio env props children = Some (out, c) →
  render (5 + j) env' out = Js.Ok (out, []).
Proof.
  unfold Bio, useBioData, fixed_image. hide_strings. intros H.
  get_in H. cbn [mapM mbind option_bind mret option_ret] in H. get_in H.
  by injection H as <- <-.
Qed.

Lemma Bio_prints env props children out c :
  Bio env props children = Some (out, c) →
  c = [field (field (field (bioData env) "site") "siteMetadata") "social"].
Proof.
  unfold Bio, useBioData, fixed_image. hide_strings. intros H.
  get_in H. cbn [mapM mbind option_bind mret option_ret] in H. get_in H.
  by injection H as <- <-.
Qed.

(** *** The template *)

Lemma truthy_not_nullish v : truthy v = true → nullish v = false.
Proof. by destruct v. Qed.

Lemma nav_link_is_Some rel neighbour :
  is_Some (nav_link rel neighbour) ↔ neighbour_ok neighbour.
Proof.
  unfold nav_link, neighbour_ok. destruct (truthy neighbour) eqn:Et.
  - apply truthy_not_nullish in Et. rewrite !(get_not_nullish neighbour) by done.
    cbn [mbind option_bind]. unfold get.
    destruct (nullish (field neighbour "fields")); cbn [mbind option_bind].
    { split; [by intros [? ?]|]. intros H. by destruct H. }
    destruct (nullish (field neighbour "frontmatter")); cbn [mbind option_bind].
    { split; [by intros [? ?]|]. intros H. by destruct H. }
    split; [done|by eexists].
  - split; [done|by eexists].
Qed.

Lemma nav_link_renders j env rel neighbour n :
  nav_link rel neighbour = Some n → render (S (S j)) env n = Js.Ok (n, []).
Proof.
  unfold nav_link. destruct (truthy neighbour).
  - intros H. get_in H. injection H as <-. by destruct (decide (rel = "prev")).
  - by intros [= <-].
Qed.

(** X11. The template returns its element, instead of throwing, exactly when
    [data.markdownRemark.frontmatter] and [data.site.siteMetadata] can be
    reached, [pageContext] is an object, and each of [previous] and [next] is
    either falsy or has [fields] and [frontmatter].  Neither [description]
    nor [date], [excerpt] or [html] is needed, and [location] is only passed
    on. *)
Theorem template_needs env props children :
  is_Some (BlogPostTemplate env props children)
  ↔ is_Some (get_path (prop props "data") ["markdownRemark"; "frontmatter"; "title"])
    ∧ is_Some (get_path (prop props "data") ["site"; "siteMetadata"; "title"])
    ∧ nullish (prop props "pageContext") = false
    ∧ neighbour_ok (field (prop props "pageContext") "previous")
    ∧ neighbour_ok (field (prop props "pageContext") "next").
Proof.
  rewrite <-(nav_link_is_Some "prev"), <-(nav_link_is_Some "next").
  unfold BlogPostTemplate. rewrite !get_path_cons.
  hide_strings.
  split.
  - intros [[out c] H]. get_in H.
    repeat match type of H with
    | context [nav_link ?rel ?n] => destruct (nav_link rel n); [|discriminate H]
    end.
    repeat split; (done || by eexists).
  - intros H. destruct_and!. get_goal.
    repeat match goal with Hs : is_Some ?x |- _ => destruct Hs as [? ->] end.
    by eexists.
Qed.

(** *** Rendering *)

Lemma render_unknown fuel env name props children :
  component name = None →
  render (S fuel) env (Element (Component name) props children)
  = '(children, c) ← render_all (render fuel env) children;
    Js.Ok (Element (Component name) props children, c).
Proof. intros H. cbn [render]. by rewrite H. Qed.

Lemma render_Value fuel env v : render (S fuel) env (Value v) = Js.Ok (Value v, []).
Proof. done. Qed.

Lemma render_Bio j env :
  render (S (S (S (S (S (S j)))))) env (Element (Component "Bio") [] [])
  = match Bio env [] [] with
    | Some (out, c) => Js.Ok (out, c)
    | None => Js.TypeError
    end.
Proof.
  rewrite (render_component _ _ _ Bio) by done.
  destruct (Bio env [] []) as [[out c]|] eqn:EB; [|done].
  rewrite (Bio_out_renders j _ _ _ _ _ _ EB). cbn. by rewrite app_nil_r.
Qed.

(** X13. The page of a post: rendering [<BlogPostTemplate {...props} />]
    returns markup, having printed [social] once, when the template finds
    what it reads (X11), [location] is an object and [Bio] finds what it reads
    (X10); in every other case it throws a [TypeError].  Twelve levels of
    calls are enough for it. *)
Theorem page_renders m env props children :
  let page := Element (Component "BlogPostTemplate") props children in
  (page_ok env props children →
   ∃ out, render (12 + m) env page
          = Js.Ok (out, [field (field (field (bioData env) "site") "siteMetadata") "social"]))
  ∧ (¬ page_ok env props children → render (12 + m) env page = Js.TypeError).
Proof.
  intros page. unfold page, page_ok.
  change (12 + m) with (S (7 + (4 + m))).
  rewrite (render_component _ _ _ BlogPostTemplate) by done.
  destruct (BlogPostTemplate env props children) as [[out c]|] eqn:ET.
  2:{ split; [by intros [[? ?] _]|done]. }
  unfold BlogPostTemplate in ET. get_in ET.
  destruct (nav_link "prev" _) as [prev_link|] eqn:Ep; [|done].
  destruct (nav_link "next" _) as [next_link|] eqn:En; [|done].
  cbn [mbind option_bind] in ET. injection ET as <- <-.
  rewrite render_Layout, render_header.
  change (prop [("location", ?l); _] "location") with l.
  destruct (nullish (prop props "location")).
  { split; [by intros (_ & ? & _)|done]. }
  cbn [Nat.add render_all mbind Js.Res_bind].
  repeat (first
    [ rewrite render_Value
    | rewrite render_host by done
    | rewrite render_unknown by done
    | rewrite render_Bio
    | rewrite (nav_link_renders _ _ _ _ _ Ep)
    | rewrite (nav_link_renders _ _ _ _ _ En) ];
    cbn [render_all mbind Js.Res_bind]).
  destruct (Bio env [] []) as [[bo bc]|] eqn:EB.
  - apply Bio_prints in EB as ->. split; [|by intros []].
    intros _. eexists. cbn [mbind Js.Res_bind app]. reflexivity.
  - split; [by intros (_ & _ & [? ?])|done].
Qed.

Lemma page_renders_witness :
  page_ok (env_at 2020 4) vue_post_props []
  ∧ ∃ out, render 12 (env_at 2020 4)
             (Element (Component "BlogPostTemplate") vue_post_props [])
           = Js.Ok (out, [field (field (field site_bioData "site") "siteMetadata") "social"]).
Proof.
  assert (page_ok (env_at 2020 4) vue_post_props []) as Hok.
  { repeat split; by eexists. }
  split; [exact Hok|].
  exact (proj1 (page_renders 0 (env_at 2020 4) vue_post_props []) Hok).
Defined.

End ViewMore.

(** ** The cart and its commands *)

Module CartMore.
Import Cart ListMore.

Lemma Cart_eq c1 c2 :
  products c1 = products c2 → discount c1 = discount c2 →
  totalPrice c1 = totalPrice c2 → c1 = c2.
Proof. destruct c1, c2. cbn. by intros -> -> ->. Qed.

Lemma round_double_exact z : Js.exact z → Js.round_double z = z.
Proof.
  unfold Js.exact, Js.round_double. intros Hz.
  by rewrite (proj2 (Z.leb_le _ _) Hz).
Qed.

Lemma num_add_exact a b : Js.exact (a + b) → Js.num_add a b = (a + b)%Z.
Proof. apply round_double_exact. Qed.

Lemma num_sub_exact a b : Js.exact (a - b) → Js.num_sub a b = (a - b)%Z.
Proof. apply round_double_exact. Qed.

(** X14. For a cart and a product with whole numbers for [totalPrice] and
    [price], of absolute value [2^53] at most like their sum, so that nothing
    is rounded: [undo] after [invoke] of [AddToCart(product)] gives the cart
    back exactly when no product already in the cart has the product's id:
    [undo] filters by id, so it would take those with it. *)
Theorem AddToCart_undo_invoke product cart :
  Js.exact (totalPrice cart) → Js.exact (totalPrice cart + price product) →
  undo (AddToCart product) (invoke (AddToCart product) cart) = cart
  ↔ Forall (λ p, id p ≠ id product) (products cart).
Proof.
  intros Htotal Hsum.
  rewrite <-filter_id_iff. cbn.
  rewrite filter_app, filter_cons_False, filter_nil, app_nil_r
    by (by intros H; apply H).
  rewrite (num_add_exact _ _ Hsum), num_sub_exact
    by (by replace (totalPrice cart + price product - price product)%Z
             with (totalPrice cart) by lia).
  split.
  - intros Heq. by apply (f_equal products) in Heq.
  - intros Heq. apply Cart_eq; cbn; [done|done|lia].
Qed.

Lemma AddToCart_undo_invoke_witness :
  undo (AddToCart pizza) (invoke (AddToCart pizza) (invoke (AddToCart beer) (useCart.cart useCart.init)))
  = invoke (AddToCart beer) (useCart.cart useCart.init)
  ↔ Forall (λ p, id p ≠ id pizza)
      (products (invoke (AddToCart beer) (useCart.cart useCart.init))).
Proof.
  apply (AddToCart_undo_invoke pizza
           (invoke (AddToCart beer) (useCart.cart useCart.init))).
  - vm_compute. discriminate.
  - vm_compute. discriminate.
Defined.

(** Beyond [2^53] the total is rounded and [undo] does not give it back:
    adding a product of price [1] to a cart whose total is [2^53] leaves the
    total as it is, and the undo takes [1] off. *)
Lemma AddToCart_rounds_example :
  let cart := {| products := []; discount := Js.VNull; totalPrice := 2 ^ 53 |} in
  let product := {| id := 1; name := "Beer"; price := 1 |} in
  totalPrice (invoke (AddToCart product) cart) = (2 ^ 53)%Z ∧
  totalPrice (undo (AddToCart product) (invoke (AddToCart product) cart))
  = (2 ^ 53 - 1)%Z.
Proof. by vm_compute. Qed.

Lemma sum_filter product (l : list Product) :
  foldr Z.add 0%Z (price <$> l)
  = (foldr Z.add 0 (price <$> filter (λ p, id p ≠ id product) l)
     + foldr Z.add 0 (price <$> filter (λ p, id p = id product) l))%Z.
Proof.
  induction l as [|x l IH]; [done|].
  destruct (decide (id x = id product)) as [E|E].
  - rewrite filter_cons_False, (filter_cons_True (λ p, id p = id product))
      by (done || by intros H; apply H).
    cbn. lia.
  - rewrite filter_cons_True, (filter_cons_False (λ p, id p = id product)) by done.
    cbn. lia.
Qed.

(** X15. With whole numbers for the prices and no result beyond [2^53] in
    absolute value, so that nothing is rounded: in a cart whose [totalPrice]
    is the sum of the prices of its products, [invoke] of
    [AddToCart(product)] keeps it so; [undo] keeps it so exactly when the
    prices of the products of the cart with the product's id add up to the
    product's price.  Undoing a product that is not in the cart, or one that
    is there twice, leaves a wrong total. *)
Theorem AddToCart_keeps_total product cart :
  consistent cart →
  Js.exact (totalPrice cart + price product) →
  Js.exact (totalPrice cart - price product) →
  consistent (invoke (AddToCart product) cart) ∧
  (consistent (undo (AddToCart product) cart)
   ↔ foldr Z.add 0%Z (price <$> filter (λ p, id p = id product) (products cart))
     = price product).
Proof.
  unfold consistent. cbn. intros H Hadd Hsub.
  rewrite (num_add_exact _ _ Hadd), (num_sub_exact _ _ Hsub). split.
  - rewrite fmap_app, sum_app. cbn. lia.
  - rewrite H, (sum_filter product). lia.
Qed.

Lemma AddToCart_keeps_total_witness :
  consistent (invoke (AddToCart pizza) (invoke (AddToCart beer) (useCart.cart useCart.init)))
  ∧ (consistent (undo (AddToCart pizza) (invoke (AddToCart beer) (useCart.cart useCart.init)))
     ↔ 0%Z = 10%Z).
Proof.
  apply (AddToCart_keeps_total pizza (invoke (AddToCart beer) (useCart.cart useCart.init))).
  - reflexivity.
  - vm_compute. discriminate.
  - vm_compute. discriminate.
Defined.

Import useCart.

Lemma run_app calls1 calls2 s :
  run (calls1 ++ calls2) s = s' ← run calls1 s; run calls2 s'.
Proof.
  revert s. induction calls1 as [|[c|] calls1 IH]; intros s; cbn [run app];
    [reflexivity|apply IH|].
  destruct (useCart.undo s); [apply IH|done|done].
Qed.

Lemma run_invokes commands s :
  run (Invoke <$> commands) s
  = Js.Ok {| history := history s ++ commands;
             cart := foldl (λ cart command, Cart.invoke command cart) (cart s) commands |}.
Proof.
  revert s. induction commands as [|c cs IH]; intros s; cbn.
  - rewrite app_nil_r. by destruct s.
  - rewrite IH. cbn. by rewrite <-app_assoc.
Qed.

Lemma pop_snoc {A} (l : list A) x : pop (l ++ [x]) = (Some x, l).
Proof.
  unfold pop. rewrite last_snoc, length_app. cbn.
  replace (length l + 1 - 1) with (length l) by lia.
  by rewrite take_app_length.
Qed.

Lemma undo_snoc h command c :
  useCart.undo {| history := h ++ [command]; cart := c |}
  = Js.Ok {| history := h; cart := Cart.undo command c |}.
Proof. unfold useCart.undo. cbn [history cart]. by rewrite pop_snoc. Qed.

Lemma undo_nil c : useCart.undo {| history := []; cart := c |} = Js.TypeError.
Proof. done. Qed.

Lemma run_undos k h c :
  run (replicate k Undo) {| history := h; cart := c |}
  = if decide (k ≤ length h)
    then Js.Ok {| history := take (length h - k) h;
                  cart := foldl (λ cart command, Cart.undo command cart) c
                            (reverse (drop (length h - k) h)) |}
    else Js.TypeError.
Proof.
  revert c k. induction h as [|command h IH] using rev_ind; intros c k.
  - destruct k as [|k]; [done|]. cbn [replicate run]. by rewrite undo_nil.
  - destruct k as [|k].
    + cbn [replicate run]. rewrite decide_True by lia.
      rewrite Nat.sub_0_r, firstn_all, drop_all. done.
    + cbn [replicate run]. rewrite undo_snoc. cbn [mbind Js.Res_bind].
      rewrite IH, length_app. cbn [length].
      destruct (decide (k ≤ length h)).
      * rewrite decide_True by lia.
        replace (length h + 1 - S k) with (length h - k) by lia.
        rewrite take_app_le, drop_app_le by lia.
        rewrite reverse_app. cbn. done.
      * by rewrite decide_False by lia.
Qed.

(** X16. The history is a stack, for any commands: after [invoke] of each of
    [commands], [k] calls of [undo] apply the [undo] of the last [k] commands,
    the last one first, and leave the others in the history; with more calls
    of [undo] than commands, [history.pop()] is [undefined] and the call
    throws a [TypeError]. *)
Theorem undo_is_lifo commands k :
  run ((Invoke <$> commands) ++ replicate k Undo) init
  = if decide (k ≤ length commands)
    then Js.Ok {|
      history := take (length commands - k) commands;
      cart := foldl (λ cart command, Cart.undo command cart)
                (foldl (λ cart command, Cart.invoke command cart) (cart init) commands)
                (reverse (drop (length commands - k) commands)) |}
    else Js.TypeError.
Proof.
  rewrite run_app, run_invokes. cbn [mbind Js.Res_bind]. rewrite run_undos. done.
Qed.

Lemma abs_sum_le (ps : list Product) :
  (Z.abs (foldr Z.add 0 (price <$> ps)) ≤ foldr Z.add 0 (Z.abs ∘ price <$> ps))%Z.
Proof. induction ps as [|p ps IH]; cbn; lia. Qed.

Lemma abs_sum_nonneg (ps : list Product) :
  (0 ≤ foldr Z.add 0 (Z.abs ∘ price <$> ps))%Z.
Proof. induction ps as [|p ps IH]; cbn; lia. Qed.

Lemma exact_prices_snoc ps p :
  exact_prices (ps ++ [p]) →
  exact_prices ps ∧
  Js.exact (foldr Z.add 0%Z (price <$> ps)) ∧
  Js.exact (foldr Z.add 0%Z (price <$> ps) + price p).
Proof.
  unfold exact_prices, Js.exact. rewrite fmap_app, sum_app. cbn.
  pose proof (abs_sum_le ps). pose proof (abs_sum_nonneg ps).
  generalize dependent (2 ^ 53)%Z. intros. lia.
Qed.

Lemma run_added ps :
  exact_prices ps → run (Invoke ∘ AddToCart <$> ps) init = Js.Ok (added ps).
Proof.
  rewrite list_fmap_compose, run_invokes. unfold added. cbn. intros Hps.
  f_equal. f_equal.
  induction ps as [|p ps IH] using rev_ind; [done|].
  apply exact_prices_snoc in Hps as (Hps & _ & Hsum).
  rewrite fmap_app, foldl_app, IH by done. cbn. rewrite fmap_app, sum_app. cbn.
  f_equal. rewrite num_add_exact by done. lia.
Qed.

Lemma undo_added ps p :
  exact_prices (ps ++ [p]) →
  id p ∉ id <$> ps → useCart.undo (added (ps ++ [p])) = Js.Ok (added ps).
Proof.
  intros (_ & Hsum & _)%exact_prices_snoc H.
  unfold added. rewrite fmap_app. cbn [fmap list_fmap]. rewrite undo_snoc.
  f_equal. f_equal. apply Cart_eq; cbn.
  - rewrite filter_app, filter_cons_False, filter_nil, app_nil_r
      by (by intros H'; apply H').
    apply filter_id_iff, Forall_forall. intros q Hq E. apply H. rewrite <-E.
    by apply list_elem_of_fmap_2.
  - done.
  - rewrite fmap_app, sum_app. cbn.
    assert (Hback : (foldr Z.add 0 (price <$> ps) + (price p + 0) - price p)%Z
                    = foldr Z.add 0%Z (price <$> ps)) by lia.
    rewrite num_sub_exact; [done|]. by rewrite Hback.
Qed.

(** X17. With products of pairwise different ids, whose prices are whole
    numbers with absolute values that add up to [2^53] at most (no sum is
    rounded), added to the cart of a fresh [useCart()] one after the other,
    [k] calls of [undo] bring back the state (cart and history) as it was
    before the last [k] products were added: the products, the discount and
    the total price. *)
Theorem undo_restores ps k :
  NoDup (id <$> ps) → exact_prices ps → k ≤ length ps →
  run ((Invoke ∘ AddToCart <$> ps) ++ replicate k Undo) init
  = run (Invoke ∘ AddToCart <$> take (length ps - k) ps) init.
Proof.
  intros Hnd Hps Hk. revert k Hk.
  induction ps as [|p ps IH] using rev_ind; intros k Hk.
  - cbn in Hk. by replace k with 0 by lia.
  - pose proof (exact_prices_snoc ps p Hps) as (Hps' & _).
    rewrite fmap_app in Hnd. apply NoDup_app in Hnd as (Hnd & Hp & _).
    rewrite length_app in Hk. cbn [length] in Hk.
    destruct k as [|k].
    + rewrite Nat.sub_0_r, firstn_all. cbn [replicate]. by rewrite app_nil_r.
    + rewrite run_app, run_added by done. cbn [mbind Js.Res_bind].
      cbn [replicate run]. rewrite undo_added; [|done|].
      2:{ intros Hin. apply (Hp _ Hin). cbn. left. }
      cbn [mbind Js.Res_bind].
      specialize (IH Hnd Hps' k ltac:(lia)).
      rewrite run_app, run_added in IH by done. cbn [mbind Js.Res_bind] in IH.
      rewrite IH, length_app. cbn [length].
      replace (length ps + 1 - S k) with (length ps - k) by lia.
      by rewrite take_app_le by lia.
Qed.

Lemma undo_restores_witness :
  run ((Invoke ∘ AddToCart <$> [beer; pizza]) ++ replicate 1 Undo) init
  = run (Invoke ∘ AddToCart <$> take (length [beer; pizza] - 1) [beer; pizza]) init.
Proof.
  apply (undo_restores [beer; pizza] 1).
  - apply (bool_decide_unpack _). vm_compute. exact I.
  - vm_compute. discriminate.
  - cbn. lia.
Defined.

End CartMore.

(** ** The optimistic todo list *)

Module OptimisticMore.
Import Optimistic ListMore.

Lemma handleAddTodo_fake n ts : handleAddTodo n ts = ts ++ [fake (length ts) n].
Proof. done. Qed.

Lemma then_snoc_fake r ts n :
  then_ r (ts ++ [fake n (name r)]) = then_ r ts ++ [r].
Proof. unfold then_. rewrite fmap_app. cbn. by rewrite decide_True. Qed.

(** X18. Adding a todo optimistically and then receiving it gives the list
    the version with the loading state ends with, the todos so far followed
    by the one received, exactly when every todo so far that has the name of
    the one received is equal to it: [then] replaces by name, so an older
    todo of that name is overwritten as well. *)
Theorem then_after_add receivedTodo todos :
  then_ receivedTodo (handleAddTodo (name receivedTodo) todos)
  = Loading.todos
      (Loading.then_ receivedTodo
         (Loading.handleAddTodo (name receivedTodo)
            {| Loading.loading := false; Loading.todos := todos |}))
  ↔ Forall (λ todo, name todo = name receivedTodo → todo = receivedTodo) todos.
Proof.
  rewrite handleAddTodo_fake, then_snoc_fake. cbn.
  split.
  - intros Heq. apply app_inv_tail in Heq. apply fmap_id_iff in Heq.
    eapply Forall_impl; [exact Heq|]. cbn. intros t Ht E. by rewrite decide_True in Ht.
  - intros H. f_equal. apply fmap_id_iff. eapply Forall_impl; [exact H|].
    cbn. intros t Ht. destruct (decide _); [|done]. symmetry; auto.
Qed.

(** X19. The rollback of a todo just added brings the list back exactly when
    no todo so far has its name: [catch] filters by name, so it would remove
    those too, saved or not. *)
Theorem catch_after_add name' todos :
  catch_ name' (handleAddTodo name' todos) = todos
  ↔ Forall (λ todo, name todo ≠ name') todos.
Proof.
  unfold catch_. rewrite handleAddTodo_fake.
  rewrite filter_app, filter_cons_False, filter_nil, app_nil_r
    by (by intros H'; apply H').
  apply filter_id_iff.
Qed.

Lemma then_then r1 r2 ts :
  name r1 ≠ name r2 → then_ r2 (then_ r1 ts) = then_ r1 (then_ r2 ts).
Proof.
  intros Hne. unfold then_. rewrite <-!list_fmap_compose.
  apply list_fmap_ext. intros _ t _. cbn.
  repeat case_decide; congruence.
Qed.

Lemma catch_then r n ts :
  name r ≠ n → catch_ n (then_ r ts) = then_ r (catch_ n ts).
Proof.
  intros Hne. unfold then_, catch_. induction ts as [|t ts IH]; [done|].
  cbn [fmap list_fmap]. destruct (decide (name t = name r)) as [E|E].
  - rewrite !filter_cons_True by congruence. cbn [fmap list_fmap].
    rewrite decide_True by done. f_equal. apply IH.
  - destruct (decide (name t = n)).
    + rewrite !filter_cons_False by (by intros H'; apply H'). apply IH.
    + rewrite !filter_cons_True by done. cbn [fmap list_fmap].
      rewrite decide_False by done. f_equal. apply IH.
Qed.

Lemma catch_catch n1 n2 ts : catch_ n2 (catch_ n1 ts) = catch_ n1 (catch_ n2 ts).
Proof.
  unfold catch_. rewrite !list_filter_filter. apply list_filter_iff. tauto.
Qed.

(** X20. The answers to two requests for different names commute: whichever
    of them arrives first, success or failure, the list is the same after
    both. *)
Theorem answers_commute e1 e2 n1 n2 todos :
  answers e1 = Some n1 → answers e2 = Some n2 → n1 ≠ n2 →
  step (step todos e1) e2 = step (step todos e2) e1.
Proof.
  destruct e1 as [?|r1|m1], e2 as [?|r2|m2]; try done; cbn; intros [= <-] [= <-] Hne.
  - by apply then_then.
  - by apply catch_then.
  - symmetry. apply catch_then. congruence.
  - apply catch_catch.
Qed.

Lemma answers_commute_witness :
  step (step (handleAddTodo "b" (handleAddTodo "a" [])) (Saved {| id := 7; name := "a" |}))
       (Failed "b")
  = step (step (handleAddTodo "b" (handleAddTodo "a" [])) (Failed "b"))
         (Saved {| id := 7; name := "a" |}).
Proof.
  apply (answers_commute (Saved {| id := 7; name := "a" |}) (Failed "b") "a" "b");
    [reflexivity|reflexivity|discriminate].
Defined.

Lemma adds_snoc events e :
  adds (events ++ [e]) = adds events ++ match e with Add n => [n] | _ => [] end.
Proof. unfold adds. rewrite omap_app. by destruct e. Qed.

Lemma saved_snoc events e :
  saved (events ++ [e]) = saved events ++ match e with Saved r => [r] | _ => [] end.
Proof. unfold saved. rewrite omap_app. by destruct e. Qed.

Lemma answered_in_time_snoc sent events e :
  answered_in_time sent (events ++ [e]) →
  answered_in_time sent events ∧
  match e with
  | Add _ => True
  | Saved r => name r ∈ sent ∨ name r ∈ adds events
  | Failed _ => False
  end.
Proof.
  revert sent. induction events as [|e' events IH]; intros sent; cbn.
  - destruct e as [n|r|n]; [done| |done]. intros [? _]. by auto.
  - destruct e' as [n'|r'|n'].
    + intros [H He]%IH. split; [done|]. destruct e as [n|r|n]; [done| |done].
      destruct He as [[->|?]%elem_of_cons|?]; [right; left | by left | right; by right].
    + intros [Hr' [H He]%IH]. split; [done|]. by destruct e.
    + done.
Qed.

(** A todo received answers a request that was sent. *)
Lemma saved_was_sent sent events r :
  answered_in_time sent events → r ∈ saved events →
  name r ∈ sent ∨ name r ∈ adds events.
Proof.
  revert sent. induction events as [|e events IH]; intros sent; cbn;
    [by intros _ ?%elem_of_nil|].
  destruct e as [n|r'|n]; cbn.
  - intros H Hr. destruct (IH _ H Hr) as [[->|?]%elem_of_cons|?];
      [right; left | by left | right; by right].
  - intros [Hr' H] [->|Hr]%elem_of_cons; [by left | by apply IH].
  - done.
Qed.

Lemma received_as_name n rs r : received_as n rs = Some r → name r = n.
Proof.
  induction rs as [|r' rs IH]; cbn; [done|].
  destruct (decide (name r' = n)); [by intros [= <-] | done].
Qed.

Lemma received_as_None n rs : n ∉ name <$> rs → received_as n rs = None.
Proof.
  induction rs as [|r' rs IH]; cbn; [done|].
  rewrite not_elem_of_cons. intros [Hne Hn]. rewrite decide_False by done. by apply IH.
Qed.

Lemma received_as_snoc n rs r :
  received_as n (rs ++ [r])
  = match received_as n rs with
    | Some r' => Some r'
    | None => if decide (name r = n) then Some r else None
    end.
Proof.
  induction rs as [|r' rs IH]; cbn; [done|]. by destruct (decide (name r' = n)).
Qed.

Lemma received_as_elem rs r :
  NoDup (name <$> rs) → r ∈ rs → received_as (name r) rs = Some r.
Proof.
  induction rs as [|r' rs IH]; [by intros _ ?%elem_of_nil|].
  rewrite fmap_cons. intros [Hr' Hnd]%NoDup_cons [->|Hr]%elem_of_cons; cbn.
  - by rewrite decide_True.
  - rewrite decide_False; [by apply IH|]. intros E. apply Hr'. rewrite E.
    by apply list_elem_of_fmap_2.
Qed.

Lemma shown_name rs i n : name (shown rs i n) = n.
Proof.
  unfold shown. destruct (received_as n rs) as [r|] eqn:E; [|done].
  by apply received_as_name in E.
Qed.

(** Whatever the interleaving: the list shows, for the names added and in
    that order, the todo received under the name or else the fake one. *)
Lemma steps_shown events :
  answered_in_time [] events → NoDup (adds events) → NoDup (name <$> saved events) →
  foldl step [] events = imap (shown (saved events)) (adds events).
Proof.
  induction events as [|e events IH] using rev_ind; [done|].
  intros [Hev He]%answered_in_time_snoc.
  rewrite adds_snoc, saved_snoc, foldl_app. cbn [foldl].
  destruct e as [n|r|n]; [| |done].
  - rewrite !app_nil_r. intros [Hnd [Hn _]]%NoDup_app Hrs.
    rewrite IH by done. cbn [step]. rewrite handleAddTodo_fake, length_imap, imap_app.
    f_equal. cbn. rewrite Nat.add_0_r. unfold shown. rewrite received_as_None; [done|].
    intros (r & -> & Hr)%list_elem_of_fmap.
    destruct (saved_was_sent [] events r Hev Hr) as [?%elem_of_nil|Hin]; [done|].
    apply (Hn _ Hin). left.
  - rewrite app_nil_r, fmap_app. intros Hnd [Hrs [Hr _]]%NoDup_app.
    rewrite IH by done. cbn [step]. unfold then_. rewrite fmap_imap.
    apply imap_ext. intros i n _. cbn. rewrite shown_name.
    unfold shown. rewrite received_as_snoc.
    destruct (decide (n = name r)) as [->|Hne].
    + rewrite received_as_None, decide_True; [done..|].
      intros Hin. apply (Hr _ Hin). left.
    + rewrite (decide_False (P := name r = n)) by done.
      by destruct (received_as n (saved events)).
Qed.

(** X21. Todos of pairwise different names, each added once and each
    saved, no request failing and every answer arriving after its todo was
    added: however additions and answers interleave and in whatever order the
    answers arrive, the list ends as the todos received, in the order in which
    they were added.  (The version with the loading state appends each one
    when its answer arrives.) *)
Theorem saved_in_any_order events receivedTodos :
  answered_in_time [] events →
  NoDup (adds events) →
  name <$> receivedTodos = adds events →
  receivedTodos ≡ₚ saved events →
  foldl step [] events = receivedTodos.
Proof.
  intros Hev Hnd Hnames Hperm.
  assert (Hrs : NoDup (name <$> saved events)) by (by rewrite <-Hperm, Hnames).
  rewrite steps_shown, <-Hnames, imap_fmap by done.
  transitivity (imap (const (λ todo : Todo, todo)) receivedTodos);
    [|rewrite imap_const; exact (list_fmap_id _)].
  apply imap_ext. intros i t Ht. cbn. unfold shown.
  rewrite received_as_elem; [done..|]. rewrite <-Hperm.
  by eapply list_elem_of_lookup_2.
Qed.

Lemma saved_in_any_order_witness :
  foldl step []
    [Add "a"; Add "b"; Saved {| id := 2; name := "b" |}; Add "c";
     Saved {| id := 1; name := "a" |}; Saved {| id := 3; name := "c" |}]
  = [{| id := 1; name := "a" |}; {| id := 2; name := "b" |}; {| id := 3; name := "c" |}].
Proof.
  apply (saved_in_any_order
           [Add "a"; Add "b"; Saved {| id := 2; name := "b" |}; Add "c";
            Saved {| id := 1; name := "a" |}; Saved {| id := 3; name := "c" |}]).
  - cbn. repeat split; apply (bool_decide_unpack _); by vm_compute.
  - apply (bool_decide_unpack _). vm_compute. exact I.
  - reflexivity.
  - cbn. apply Permutation_swap.
Defined.

(** X22. As long as no request fails and the ids received are not negative,
    every todo shown as optimistic has the fake id of its place in the list,
    [-(i + 1)] at index [i]: the fake ids, which are the React keys, are
    pairwise different. *)
Theorem fake_ids_by_position events i todo :
  Forall (λ e, match e with
               | Add _ => True
               | Saved receivedTodo => (0 ≤ id receivedTodo)%Z
               | Failed _ => False
               end) events →
  foldl step [] events !! i = Some todo →
  optimistic todo = true →
  id todo = (- (Z.of_nat i + 1))%Z.
Proof.
  intros Hev. revert i todo.
  induction events as [|e events IH] using rev_ind; intros i t; [done|].
  apply Forall_app in Hev as [Hev He]. apply Forall_inv in He.
  rewrite foldl_app. cbn [foldl]. specialize (IH Hev).
  destruct e as [n|r|n]; cbn [step]; [| |by destruct He].
  - rewrite handleAddTodo_fake. intros Hi. apply lookup_app_Some in Hi as [Hi|[Hlen Hi]].
    + by apply IH.
    + apply list_lookup_singleton_Some in Hi as [Hi <-]. cbn. intros _. lia.
  - unfold then_. rewrite list_lookup_fmap. intros Hi Hopt.
    destruct (foldl step [] events !! i) as [t0|] eqn:E; [|done].
    cbn in Hi. destruct (decide (name t0 = name r)).
    + injection Hi as <-. unfold optimistic in Hopt. apply Z.ltb_lt in Hopt. lia.
    + injection Hi as <-. by apply IH.
Qed.

Lemma fake_ids_by_position_witness :
  id (fake 1 "b") = (- (Z.of_nat 1 + 1))%Z.
Proof.
  apply (fake_ids_by_position [Add "a"; Add "b"; Saved {| id := 5; name := "a" |}] 1).
  - repeat constructor. cbn. lia.
  - reflexivity.
  - reflexivity.
Defined.

(** X23. After a rollback a fake id is given twice: add [a], add [b], the
    request for [a] fails, add [c]; then [b] and [c] are both in the list,
    both optimistic, with the same id, since the id is taken from the length
    of the list. *)
Theorem fake_id_reused a b c todos :
  a ≠ b → Forall (λ todo, name todo ≠ a) todos →
  foldl step todos [Add a; Add b; Failed a; Add c]
  = todos ++ [fake (S (length todos)) b; fake (S (length todos)) c].
Proof.
  intros Hab Hts. cbn. rewrite !handleAddTodo_fake. unfold catch_.
  rewrite !filter_app, filter_cons_False, filter_cons_True, !filter_nil
    by (cbn; (done || by intros H'; apply H')).
  rewrite (proj2 (filter_id_iff _ _) Hts). cbn.
  rewrite <-!app_assoc. cbn. rewrite !length_app. cbn.
  by rewrite Nat.add_1_r.
Qed.

Lemma fake_id_reused_witness :
  foldl step [] [Add "a"; Add "b"; Failed "a"; Add "c"]
  = [] ++ [fake 1 "b"; fake 1 "c"].
Proof.
  apply (fake_id_reused "a" "b" "c" []); [discriminate|constructor].
Defined.

End OptimisticMore.

(** ** The todo list with useReducer *)

Module TodosMore.
Import Todos.

Lemma count_snoc (t x : string) l :
  length (filter (λ y, y = t) (l ++ [x]))
  = length (filter (λ y, y = t) l) + if decide (x = t) then 1 else 0.
Proof.
  rewrite filter_app, length_app. f_equal.
  destruct (decide (x = t)).
  - by rewrite filter_cons_True by done.
  - by rewrite filter_cons_False by done.
Qed.

Lemma count_filter_ne (t x : string) l :
  length (filter (λ y, y = t) (filter (λ y, y ≠ x) l))
  = if decide (x = t) then 0 else length (filter (λ y, y = t) l).
Proof.
  rewrite list_filter_filter. destruct (decide (x = t)) as [->|Hne].
  - rewrite (list_filter_iff _ (λ _, False)); [|intros y; tauto].
    induction l as [|y l IH]; [done|]. by rewrite filter_cons_False by tauto.
  - f_equal. apply list_filter_iff. intros y. split; [tauto|].
    intros ->. split; [done|]. congruence.
Qed.

(** X26. Whatever actions are dispatched from the initial state, of the
    two types or of any other, the list holds a text as many times as
    [ADD_TODO] was dispatched with it since the last [DELETE_TODO] with it:
    the same text can be added several times, and deleting it removes every
    copy. *)
Theorem todos_count t actions :
  length (filter (λ y, y = t) (foldl todoReeucer initialState actions))
  = added_since_deleted t actions.
Proof.
  unfold added_since_deleted.
  induction actions as [|action actions IH] using rev_ind; [done|].
  rewrite !foldl_app. cbn [foldl]. rewrite <-IH.
  set (state := foldl todoReeucer initialState actions). clearbody state.
  unfold todoReeucer.
  destruct (decide (type action = "ADD_TODO")).
  - rewrite count_snoc. destruct (decide (todo action = t)); lia.
  - destruct (decide (type action = "DELETE_TODO")).
    + rewrite count_filter_ne. by destruct (decide (todo action = t)).
    + by destruct (decide (todo action = t)).
Qed.

End TodosMore.

(** ** The slider *)

Module SliderMore.
Import Slider.
Local Open Scope Z_scope.

Lemma clicks_snoc countElements bs b s :
  clicks countElements (bs ++ [b]) s
  = s' ← clicks countElements bs s; click countElements s' b.
Proof.
  revert s. induction bs as [|b' bs IH]; intros s; cbn [clicks app].
  - cbn [mbind option_bind]. by destruct (click countElements s b).
  - destruct (click countElements s b'); [apply IH|done].
Qed.

Lemma slider_pages clientWidth elementWidth countElements bs s :
  0 < elementWidth → elementWidth ≤ clientWidth - PADDINGS →
  clicks countElements bs (measured clientWidth elementWidth) = Some s →
  containerWidth s = clientWidth - PADDINGS ∧
  totalInViewport s = (clientWidth - PADDINGS) / elementWidth ∧
  ∃ k, 0 ≤ k ∧ viewed s = k * totalInViewport s ∧
       distance s = - (k * containerWidth s) ∧
       (k = 0 ∨ viewed s < countElements).
Proof.
  intros Hew Hcw. revert s. induction bs as [|b bs IH] using rev_ind; intros s.
  - intros [= <-]. cbn. split; [done|]. split; [done|]. exists 0. lia.
  - rewrite clicks_snoc.
    destruct (clicks countElements bs _) as [s1|]; [|done].
    destruct (IH s1 eq_refl) as (Hc & Ht & k & Hk & Hv & Hd & Hend).
    assert (0 < totalInViewport s1) as Htiv.
    { rewrite Ht. apply Z.div_str_pos. lia. }
    cbn [mbind option_bind]. destruct b; cbn [click].
    + unfold hasPrev. destruct (distance s1 <? 0) eqn:E; [|done].
      apply Z.ltb_lt in E. intros [= <-]. cbn. split; [done|]. split; [done|].
      exists (k - 1). assert (0 < k) by nia.
      split; [lia|]. split; [nia|]. split; [nia|].
      destruct (decide (k - 1 = 0)); [by left|right]. nia.
    + unfold hasNext. destruct (_ <? countElements) eqn:E; [|done].
      apply Z.ltb_lt in E. intros [= <-]. cbn. split; [done|]. split; [done|].
      exists (k + 1). split; [lia|]. split; [nia|]. split; [nia|]. right. lia.
Qed.

(** X27. Once the widths are measured and at least one element fits in the
    container, after any clicks on the buttons that are shown: [viewed] is 0
    or an index inside the list; [distance] is as many container widths to
    the left as [viewed] is pages of [totalInViewport] elements; and the
    button to go back is shown exactly when [viewed] is not 0. *)
Theorem slider_stays_in_range clientWidth elementWidth countElements bs s :
  0 < elementWidth → elementWidth ≤ clientWidth - PADDINGS →
  clicks countElements bs (measured clientWidth elementWidth) = Some s →
  (viewed s = 0 ∨ 0 < viewed s < countElements) ∧
  distance s * totalInViewport s = - (viewed s * containerWidth s) ∧
  (hasPrev s = true ↔ 0 < viewed s).
Proof.
  intros Hew Hcw Hs.
  destruct (slider_pages _ _ _ _ _ Hew Hcw Hs) as (Hc & Ht & k & Hk & Hv & Hd & Hend).
  assert (0 < totalInViewport s) as Htiv.
  { rewrite Ht. apply Z.div_str_pos. lia. }
  assert (0 < containerWidth s) by lia.
  split; [|split].
  - destruct Hend as [->|?]; [left; lia|]. destruct (decide (k = 0)); [left; nia|right; nia].
  - nia.
  - unfold hasPrev. rewrite Z.ltb_lt. nia.
Qed.

Lemma slider_stays_in_range_witness :
  let s := {| containerWidth := 900; distance := -900; totalInViewport := 4; viewed := 4 |} in
  (viewed s = 0 ∨ 0 < viewed s < 10) ∧
  distance s * totalInViewport s = - (viewed s * containerWidth s) ∧
  (hasPrev s = true ↔ 0 < viewed s).
Proof.
  apply (slider_stays_in_range 1010 200 10 [Next; Next; Prev]);
    [lia | unfold PADDINGS; lia | reflexivity].
Defined.

(** X28. Under the same conditions, when the button to go on is no longer
    shown the end of the last element is not beyond the right edge of what is
    shown: no element stays out of reach. *)
Theorem slider_shows_the_last clientWidth elementWidth countElements bs s :
  0 < elementWidth → elementWidth ≤ clientWidth - PADDINGS →
  clicks countElements bs (measured clientWidth elementWidth) = Some s →
  hasNext countElements s = false →
  countElements * elementWidth ≤ containerWidth s - distance s.
Proof.
  intros Hew Hcw Hs Hnext.
  destruct (slider_pages _ _ _ _ _ Hew Hcw Hs) as (Hc & Ht & k & Hk & Hv & Hd & Hend).
  unfold hasNext in Hnext. apply Z.ltb_ge in Hnext.
  assert (totalInViewport s * elementWidth ≤ containerWidth s) as Hfit.
  { rewrite Ht, Hc, Z.mul_comm. apply Z.mul_div_le. lia. }
  assert (0 < totalInViewport s) as Htiv.
  { rewrite Ht. apply Z.div_str_pos. lia. }
  rewrite Hd. rewrite Hv in Hnext.
  assert (countElements * elementWidth ≤ (k + 1) * totalInViewport s * elementWidth) by nia.
  nia.
Qed.

Lemma slider_shows_the_last_witness :
  let s := {| containerWidth := 900; distance := -1800; totalInViewport := 4; viewed := 8 |} in
  10 * 200 ≤ containerWidth s - distance s.
Proof.
  apply (slider_shows_the_last 1010 200 10 [Next; Next]);
    [lia | unfold PADDINGS; lia | reflexivity | reflexivity].
Defined.

(** X29. When the container is narrower than one element (and the list is
    not empty), [totalInViewport] is 0: the button to go on is always shown,
    and each click on it slides by one container width while [viewed] stays
    0, without end. *)
Theorem slider_narrow_container clientWidth elementWidth countElements n :
  0 ≤ clientWidth - PADDINGS < elementWidth → 0 < countElements →
  clicks countElements (replicate n Next) (measured clientWidth elementWidth)
  = Some {| containerWidth := clientWidth - PADDINGS;
            distance := - (Z.of_nat n * (clientWidth - PADDINGS));
            totalInViewport := 0;
            viewed := 0 |}.
Proof.
  intros Hcw Hcount.
  assert ((clientWidth - PADDINGS) / elementWidth = 0) as Hdiv by (apply Z.div_small; lia).
  induction n as [|n IH].
  - cbn. unfold measured, effect. cbn. by rewrite Hdiv.
  - replace (S n) with (n + 1)%nat by lia.
    rewrite replicate_add. change (replicate 1 Next) with [Next].
    rewrite clicks_snoc, IH. cbn.
    unfold hasNext, handleNext. cbn [viewed totalInViewport distance containerWidth].
    rewrite Z.add_0_l, (proj2 (Z.ltb_lt 0 countElements) Hcount).
    do 2 f_equal. lia.
Qed.

Lemma slider_narrow_container_witness :
  clicks 10 (replicate 3 Next) (measured 210 200)
  = Some {| containerWidth := 210 - PADDINGS;
            distance := - (Z.of_nat 3 * (210 - PADDINGS));
            totalInViewport := 0;
            viewed := 0 |}.
Proof.
  apply (slider_narrow_container 210 200 10 3); [unfold PADDINGS; lia | lia].
Defined.

End SliderMore.
